(** * game2: the falling-banana arcade game of [main.js]

    A shallow embedding of the simulation core of [main.js] (player update,
    spawner, obstacle update, collision scan, particle pools, reset, the
    restart gate and the frame function) together with the properties the
    design document states about it.

    Numbers.  JavaScript numbers are modelled as exact rationals [Q]; the
    integer-valued counters ([score], [highScore], [frameCount],
    [scoreFlashTime]) as [Z].  The page computes with binary64 numbers,
    whose sums, products and quotients are rounded: a property that sits
    on the edge of a comparison (the end of a range a product can round up
    to, an equation between two scaled numbers) is stated with a closed
    bound or with a margin far wider than the rounding, so that it reads
    the same for the rounded numbers.  [Math.random] is an oracle [random : nat -> Q]
    read at an index kept in the state; [Math.cos], [Math.sin] and [Math.PI]
    are parameters of the development (they only feed particle velocities
    and rotation angles).  Canvas drawing is not part of the state and is
    left out, except where a drawing routine writes a game variable or draws
    from [Math.random]. *)

From Stdlib Require Import QArith Qround Qabs Qminmax Lqa ZArith Lia List
  Bool String Sorted.
From stdpp Require Import gmap strings list.

Open Scope Q_scope.

(** ** Numbers *)

(** [a < b] on numbers, as a boolean. *)
Definition Qltb (a b : Q) : bool := negb (Qle_bool b a).
(** [a <= b] on numbers, as a boolean. *)
Definition Qleb (a b : Q) : bool := Qle_bool a b.
(** [a === b] on numbers. *)
Definition Qeqb (a b : Q) : bool := Qeq_bool a b.

(** [Math.sign]. *)
Definition Math_sign (a : Q) : Q :=
  if Qltb 0 a then 1 else if Qltb a 0 then -1 else 0.

(** [Math.abs]. *)
Definition Math_abs (a : Q) : Q := Qabs a.

(** [Math.floor], as an integer. *)
Definition Math_floor (a : Q) : Z := Qfloor a.

(** The canvas: [canvas.width = 800], [canvas.height = 600]. *)
Definition canvas_width : Q := 800.
Definition canvas_height : Q := 600.

(** ** Data *)

Module Player.
Record t : Type := mk {
  x : Q;
  y : Q;
  width : Q;
  height : Q;
  speed : Q;
  dx : Q;
  animationFrame : Q
}.

Definition set_x (v : Q) (p : t) : t :=
  mk v (y p) (width p) (height p) (speed p) (dx p) (animationFrame p).
Definition set_dx (v : Q) (p : t) : t :=
  mk (x p) (y p) (width p) (height p) (speed p) v (animationFrame p).
Definition set_animationFrame (v : Q) (p : t) : t :=
  mk (x p) (y p) (width p) (height p) (speed p) (dx p) v.

(** The [player] object literal. *)
Definition initial : t :=
  mk (canvas_width / 2 - 35) (canvas_height - 120) 70 45 6 0 0.
End Player.

Module Obstacle.
Record t : Type := mk {
  x : Q;
  y : Q;
  width : Q;
  height : Q;
  speed : Q;
  originalSpeed : Q;
  isBonus : bool;
  hasTransformed : bool;
  isGrowing : bool;
  scale : Q;
  targetScale : Q;
  rotation : Q
}.

Definition set_y (v : Q) (o : t) : t :=
  mk (x o) v (width o) (height o) (speed o) (originalSpeed o) (isBonus o)
     (hasTransformed o) (isGrowing o) (scale o) (targetScale o) (rotation o).
Definition set_speed (v : Q) (o : t) : t :=
  mk (x o) (y o) (width o) (height o) v (originalSpeed o) (isBonus o)
     (hasTransformed o) (isGrowing o) (scale o) (targetScale o) (rotation o).
Definition set_hasTransformed (v : bool) (o : t) : t :=
  mk (x o) (y o) (width o) (height o) (speed o) (originalSpeed o) (isBonus o)
     v (isGrowing o) (scale o) (targetScale o) (rotation o).
Definition set_scale (v : Q) (o : t) : t :=
  mk (x o) (y o) (width o) (height o) (speed o) (originalSpeed o) (isBonus o)
     (hasTransformed o) (isGrowing o) v (targetScale o) (rotation o).
End Obstacle.

(** A particle of [bonusParticles] (the sparkles of a collected bonus). *)
Module Sparkle.
Record t : Type := mk {
  x : Q;
  y : Q;
  vx : Q;
  vy : Q;
  size : Q;
  life : Q;
  decay : Q;
  color : string
}.
End Sparkle.

(** A particle of [explosionParticles].  Fire particles are pushed without
    an [isSmoke] field; the field is only tested for truthiness, so an
    absent one is [false]. *)
Module Debris.
Record t : Type := mk {
  x : Q;
  y : Q;
  vx : Q;
  vy : Q;
  size : Q;
  life : Q;
  decay : Q;
  color : string;
  friction : Q;
  isSmoke : bool
}.
End Debris.

(** An axis-aligned box [{ x, y, width, height }], as built for the
    collision test. *)
Record Hitbox : Type := {
  hb_x : Q;
  hb_y : Q;
  hb_width : Q;
  hb_height : Q
}.

(** [canvas.getBoundingClientRect()]: where the canvas sits on the page. *)
Record DOMRect : Type := {
  rect_left : Q;
  rect_top : Q;
  rect_width : Q;
  rect_height : Q
}.

(** The module-level variables of [main.js].  [seed] counts the calls made
    to [Math.random] so far, [savedHighScore] is the [highScore] slot of
    [localStorage], and [frameRequested] records whether the last run of
    [gameLoop] called [requestAnimationFrame]. *)
Record Game : Type := mkGame {
  player : Player.t;
  obstacles : list Obstacle.t;
  frameCount : Z;
  gameOver : bool;
  score : Z;
  highScore : Z;
  explosionParticles : list Debris.t;
  bonusParticles : list Sparkle.t;
  showGameOverText : bool;
  scoreFlashTime : Z;
  keys : gmap string bool;
  touchStartX : Q;
  touchCurrentX : Q;
  isTouching : bool;
  savedHighScore : option Z;
  frameRequested : bool;
  seed : nat
}.

Definition set_player (v : Player.t) (g : Game) : Game :=
  mkGame v (obstacles g) (frameCount g) (gameOver g) (score g) (highScore g)
    (explosionParticles g) (bonusParticles g) (showGameOverText g)
    (scoreFlashTime g) (keys g) (touchStartX g) (touchCurrentX g)
    (isTouching g) (savedHighScore g) (frameRequested g) (seed g).
Definition set_obstacles (v : list Obstacle.t) (g : Game) : Game :=
  mkGame (player g) v (frameCount g) (gameOver g) (score g) (highScore g)
    (explosionParticles g) (bonusParticles g) (showGameOverText g)
    (scoreFlashTime g) (keys g) (touchStartX g) (touchCurrentX g)
    (isTouching g) (savedHighScore g) (frameRequested g) (seed g).
Definition set_frameCount (v : Z) (g : Game) : Game :=
  mkGame (player g) (obstacles g) v (gameOver g) (score g) (highScore g)
    (explosionParticles g) (bonusParticles g) (showGameOverText g)
    (scoreFlashTime g) (keys g) (touchStartX g) (touchCurrentX g)
    (isTouching g) (savedHighScore g) (frameRequested g) (seed g).
Definition set_gameOver (v : bool) (g : Game) : Game :=
  mkGame (player g) (obstacles g) (frameCount g) v (score g) (highScore g)
    (explosionParticles g) (bonusParticles g) (showGameOverText g)
    (scoreFlashTime g) (keys g) (touchStartX g) (touchCurrentX g)
    (isTouching g) (savedHighScore g) (frameRequested g) (seed g).
Definition set_score (v : Z) (g : Game) : Game :=
  mkGame (player g) (obstacles g) (frameCount g) (gameOver g) v (highScore g)
    (explosionParticles g) (bonusParticles g) (showGameOverText g)
    (scoreFlashTime g) (keys g) (touchStartX g) (touchCurrentX g)
    (isTouching g) (savedHighScore g) (frameRequested g) (seed g).
Definition set_highScore (v : Z) (g : Game) : Game :=
  mkGame (player g) (obstacles g) (frameCount g) (gameOver g) (score g) v
    (explosionParticles g) (bonusParticles g) (showGameOverText g)
    (scoreFlashTime g) (keys g) (touchStartX g) (touchCurrentX g)
    (isTouching g) (savedHighScore g) (frameRequested g) (seed g).
Definition set_explosionParticles (v : list Debris.t) (g : Game) : Game :=
  mkGame (player g) (obstacles g) (frameCount g) (gameOver g) (score g)
    (highScore g) v (bonusParticles g) (showGameOverText g)
    (scoreFlashTime g) (keys g) (touchStartX g) (touchCurrentX g)
    (isTouching g) (savedHighScore g) (frameRequested g) (seed g).
Definition set_bonusParticles (v : list Sparkle.t) (g : Game) : Game :=
  mkGame (player g) (obstacles g) (frameCount g) (gameOver g) (score g)
    (highScore g) (explosionParticles g) v (showGameOverText g)
    (scoreFlashTime g) (keys g) (touchStartX g) (touchCurrentX g)
    (isTouching g) (savedHighScore g) (frameRequested g) (seed g).
Definition set_showGameOverText (v : bool) (g : Game) : Game :=
  mkGame (player g) (obstacles g) (frameCount g) (gameOver g) (score g)
    (highScore g) (explosionParticles g) (bonusParticles g) v
    (scoreFlashTime g) (keys g) (touchStartX g) (touchCurrentX g)
    (isTouching g) (savedHighScore g) (frameRequested g) (seed g).
Definition set_scoreFlashTime (v : Z) (g : Game) : Game :=
  mkGame (player g) (obstacles g) (frameCount g) (gameOver g) (score g)
    (highScore g) (explosionParticles g) (bonusParticles g)
    (showGameOverText g) v (keys g) (touchStartX g) (touchCurrentX g)
    (isTouching g) (savedHighScore g) (frameRequested g) (seed g).
Definition set_keys (v : gmap string bool) (g : Game) : Game :=
  mkGame (player g) (obstacles g) (frameCount g) (gameOver g) (score g)
    (highScore g) (explosionParticles g) (bonusParticles g)
    (showGameOverText g) (scoreFlashTime g) v (touchStartX g)
    (touchCurrentX g) (isTouching g) (savedHighScore g) (frameRequested g)
    (seed g).
Definition set_touch (start current : Q) (touching : bool) (g : Game) : Game :=
  mkGame (player g) (obstacles g) (frameCount g) (gameOver g) (score g)
    (highScore g) (explosionParticles g) (bonusParticles g)
    (showGameOverText g) (scoreFlashTime g) (keys g) start current touching
    (savedHighScore g) (frameRequested g) (seed g).
Definition set_savedHighScore (v : option Z) (g : Game) : Game :=
  mkGame (player g) (obstacles g) (frameCount g) (gameOver g) (score g)
    (highScore g) (explosionParticles g) (bonusParticles g)
    (showGameOverText g) (scoreFlashTime g) (keys g) (touchStartX g)
    (touchCurrentX g) (isTouching g) v (frameRequested g) (seed g).
Definition set_frameRequested (v : bool) (g : Game) : Game :=
  mkGame (player g) (obstacles g) (frameCount g) (gameOver g) (score g)
    (highScore g) (explosionParticles g) (bonusParticles g)
    (showGameOverText g) (scoreFlashTime g) (keys g) (touchStartX g)
    (touchCurrentX g) (isTouching g) (savedHighScore g) v (seed g).
Definition set_seed (v : nat) (g : Game) : Game :=
  mkGame (player g) (obstacles g) (frameCount g) (gameOver g) (score g)
    (highScore g) (explosionParticles g) (bonusParticles g)
    (showGameOverText g) (scoreFlashTime g) (keys g) (touchStartX g)
    (touchCurrentX g) (isTouching g) (savedHighScore g) (frameRequested g) v.

(** The state after the top-level declarations have run, before the first
    frame; [stored] is what [localStorage.getItem('highScore')] returned. *)
Definition initialGame (stored : option Z) : Game :=
  mkGame Player.initial [] 0%Z false 0%Z
    (match stored with Some h => h | None => 0%Z end)
    [] [] false 0%Z ∅ 0 0 false stored false O.

(** ** Keyboard *)

(** [keys[k]] is truthy. *)
Definition key_down (ks : gmap string bool) (k : string) : bool :=
  match ks !! k with Some b => b | None => false end.

(** The [keydown] listener. *)
Definition on_keydown (k : string) (g : Game) : Game :=
  set_keys (<[k := true]> (keys g)) g.

(** The [keyup] listener. *)
Definition on_keyup (k : string) (g : Game) : Game :=
  set_keys (<[k := false]> (keys g)) g.

(** ** [updatePlayer] *)

(** The body of [updatePlayer]: what it makes of the [player] object, given
    the keys held, the touch state and the canvas rectangle. *)
Definition movePlayer (rect : DOMRect) (ks : gmap string bool)
    (touching : bool) (touchX : Q) (p : Player.t) : Player.t :=
  let dx0 := 0 in
  let dx1 :=
    if key_down ks "ArrowLeft" || key_down ks "a" || key_down ks "A"
    then - Player.speed p else dx0 in
  let dx2 :=
    if key_down ks "ArrowRight" || key_down ks "d" || key_down ks "D"
    then Player.speed p else dx1 in
  let dx3 :=
    if touching then
      let canvasX := touchX - rect_left rect in
      let canvasRelativeX := (canvasX / rect_width rect) * canvas_width in
      let targetX := canvasRelativeX - Player.width p / 2 in
      let diff := targetX - Player.x p in
      if Qltb 2 (Math_abs diff) then Math_sign diff * Player.speed p else dx2
    else dx2 in
  let x1 := Player.x p + dx3 in
  let frame :=
    if Qeqb dx3 0 then Player.animationFrame p
    else Player.animationFrame p + 0.15 in
  let x2 := if Qltb x1 0 then 0 else x1 in
  let x3 :=
    if Qltb canvas_width (x2 + Player.width p)
    then canvas_width - Player.width p else x2 in
  Player.set_x x3 (Player.set_animationFrame frame (Player.set_dx dx3 p)).

Definition updatePlayer (rect : DOMRect) (g : Game) : Game :=
  set_player
    (movePlayer rect (keys g) (isTouching g) (touchCurrentX g) (player g)) g.

(** ** The spawner: [createObstacle] *)

(** An entry [{ x, width }] of the local [positions] array. *)
Module Position.
Record t : Type := mk { x : Q; width : Q }.
End Position.

(** The [for (let pos of positions)] validity scan of one candidate. *)
Fixpoint validPosition (x width minGap : Q) (positions : list Position.t)
  : bool :=
  match positions with
  | [] => true
  | pos :: rest =>
      if Qltb x (Position.x pos + Position.width pos)
         && Qltb (Position.x pos) (x + width)
      then false
      else
        let leftGap := x - (Position.x pos + Position.width pos) in
        let rightGap := Position.x pos - (x + width) in
        if (Qltb 0 leftGap && Qltb leftGap minGap)
           || (Qltb 0 rightGap && Qltb rightGap minGap)
        then false
        else validPosition x width minGap rest
  end.

(** [positions.sort((a, b) => a.x - b.x)]: a stable sort; [a] goes before
    [b] when the comparator is negative. *)
Fixpoint sortInsert (a : Position.t) (l : list Position.t)
  : list Position.t :=
  match l with
  | [] => [a]
  | b :: rest =>
      if Qltb (Position.x a - Position.x b) 0 then a :: b :: rest
      else b :: sortInsert a rest
  end.

Definition sortPositions (l : list Position.t) : list Position.t :=
  fold_left (fun acc a => sortInsert a acc) l [].

(** The "between obstacles" loop of the gap check. *)
Fixpoint gapBetween (minGap : Q) (positions : list Position.t) : bool :=
  match positions with
  | a :: (b :: _) as rest =>
      Qleb minGap (Position.x b - (Position.x a + Position.width a))
      || gapBetween minGap rest
  | _ => false
  end.

(** [hasValidGap] at the end of the gap check, on a non-empty sorted
    [positions]. *)
Definition hasValidGap (minGap : Q) (positions : list Position.t) : bool :=
  match positions with
  | [] => false
  | first :: _ =>
      let lastPos := List.last positions first in
      Qleb minGap (Position.x first)
      || gapBetween minGap positions
      || Qleb minGap
           (canvas_width - (Position.x lastPos + Position.width lastPos))
  end.

(** [array.findIndex(pred)], [None] for [-1]. *)
Fixpoint findIndex {A : Type} (pred : A -> bool) (l : list A) : option nat :=
  match l with
  | [] => None
  | a :: rest =>
      if pred a then Some O
      else match findIndex pred rest with
           | Some i => Some (S i)
           | None => None
           end
  end.

(** The object literal pushed on [obstacles]. *)
Definition newObstacle (x y width speed : Q) (isBonus isGrowing : bool)
    (rotation : Q) : Obstacle.t :=
  Obstacle.mk x y width 20 speed speed isBonus false isGrowing 1.5 4.5
    rotation.

Section Host.

(** [Math.random()]: the [n]-th call returns [random n]. *)
Variable random : nat -> Q.
(** [Math.cos], [Math.sin], [Math.PI]. *)
Variable Math_cos : Q -> Q.
Variable Math_sin : Q -> Q.
Variable Math_PI : Q.

(** The attempt loop for one banana:
    [for (attempt = 0; attempt < maxAttempts && !placed; attempt++)].
    [s] is the index of the next [Math.random] call. *)
Fixpoint placeBanana (attempts : nat) (y minGap : Q)
    (positions : list Position.t) (obs : list Obstacle.t) (s : nat)
  : list Position.t * list Obstacle.t * nat :=
  match attempts with
  | O => (positions, obs, s)
  | S attempts' =>
      let width := 30 in
      let x := random s * (canvas_width - width) in
      let speed := random (s + 1) * 3 + 2 in
      if validPosition x width minGap positions then
        let isBonus := Qltb (random (s + 2)) 0.2 in
        let '(isGrowing, s') :=
          if isBonus then (false, (s + 3)%nat)
          else (Qltb (random (s + 3)) 0.15, (s + 4)%nat) in
        let rotation := random s' * Math_PI * 2 in
        (positions ++ [Position.mk x width],
         obs ++ [newObstacle x y width speed isBonus isGrowing rotation],
         S s')
      else placeBanana attempts' y minGap positions obs (s + 2)
  end.

(** [for (let i = 0; i < numBananas; i++)]. *)
Fixpoint placeBananas (numBananas : nat) (maxAttempts : nat) (y minGap : Q)
    (positions : list Position.t) (obs : list Obstacle.t) (s : nat)
  : list Position.t * list Obstacle.t * nat :=
  match numBananas with
  | O => (positions, obs, s)
  | S n =>
      let '(positions', obs', s') :=
        placeBanana maxAttempts y minGap positions obs s in
      placeBananas n maxAttempts y minGap positions' obs' s'
  end.

(** The guaranteed-gap step on the sorted [positions]: when no gap is
    wide enough and more than one banana was placed, one of them, drawn
    at random, is spliced out of [obstacles].  ([removeIndex] is in range
    for a draw in [0, 1); out of range the source would throw.) *)
Definition ensureGap (y minGap : Q) (positions : list Position.t)
    (obs : list Obstacle.t) (s : nat) : list Obstacle.t * nat :=
  match positions with
  | [] => (obs, s)
  | _ =>
      let sorted := sortPositions positions in
      if negb (hasValidGap minGap sorted)
         && (1 <? length sorted)%nat
      then
        let removeIndex :=
          Math_floor (random s * inject_Z (Z.of_nat (length sorted))) in
        match sorted !! Z.to_nat removeIndex with
        | Some removedPos =>
            match findIndex
                    (fun o => Qeqb (Obstacle.x o) (Position.x removedPos)
                              && Qeqb (Obstacle.y o) y) obs with
            | Some indexToRemove => (delete indexToRemove obs, S s)
            | None => (obs, S s)
            end
        | None => (obs, S s)
        end
      else (obs, s)
  end.

(** The bananas placed by one call, in the order they were pushed, before
    the guaranteed-gap step. *)
Definition placedBatch (obs : list Obstacle.t) (s : nat)
  : list Position.t * list Obstacle.t * nat :=
  let y := -20 in
  let minGap := 70 in
  let maxAttempts := 20%nat in
  let numBananas := (Math_floor (random s * 2) + 1)%Z in
  placeBananas (Z.to_nat numBananas) maxAttempts y minGap [] obs (S s).

Definition createObstacle (g : Game) : Game :=
  let y := -20 in
  let minGap := 70 in
  let '(positions, obs, s) := placedBatch (obstacles g) (seed g) in
  let '(obs', s') := ensureGap y minGap positions obs s in
  set_seed s' (set_obstacles obs' g).

(** ** [updateObstacles] *)

(** The body of the update loop for [obstacles[i]], up to the removal
    test. *)
Definition stepObstacle (o : Obstacle.t) : Obstacle.t :=
  let o1 := Obstacle.set_y (Obstacle.y o + Obstacle.speed o) o in
  let o2 :=
    if Obstacle.isBonus o1 && negb (Obstacle.hasTransformed o1)
       && Qleb (canvas_height / 2) (Obstacle.y o1)
    then Obstacle.set_hasTransformed true o1 else o1 in
  let o3 :=
    if Obstacle.isGrowing o2 && negb (Obstacle.hasTransformed o2)
       && Qleb (canvas_height / 3) (Obstacle.y o2)
    then Obstacle.set_speed (Obstacle.originalSpeed o2 * 0.5)
           (Obstacle.set_hasTransformed true o2)
    else o2 in
  if Obstacle.isGrowing o3 && Obstacle.hasTransformed o3
     && Qltb (Obstacle.scale o3) (Obstacle.targetScale o3)
  then
    let o4 := Obstacle.set_scale (Obstacle.scale o3 + 0.03) o3 in
    if Qltb (Obstacle.targetScale o4) (Obstacle.scale o4)
    then Obstacle.set_scale (Obstacle.targetScale o4) o4 else o4
  else o3.

(** [for (let i = obstacles.length - 1; i >= 0; i--)]: the loop runs from
    the last index down, so the tail is processed before the head; an
    element past the bottom edge is spliced out and scores 10. *)
Fixpoint moveObstacles (obs : list Obstacle.t) (sc : Z)
  : list Obstacle.t * Z :=
  match obs with
  | [] => ([], sc)
  | o :: rest =>
      let '(rest', sc') := moveObstacles rest sc in
      let o' := stepObstacle o in
      if Qltb canvas_height (Obstacle.y o') then (rest', (sc' + 10)%Z)
      else (o' :: rest', sc')
  end.

Definition obstacleSpawnRate : Z := 60.

Definition updateObstacles (g : Game) : Game :=
  let '(obs, sc) := moveObstacles (obstacles g) (score g) in
  let g1 := set_score sc (set_obstacles obs g) in
  let g2 := set_frameCount (frameCount g1 + 1)%Z g1 in
  if (frameCount g2 mod obstacleSpawnRate =? 0)%Z then createObstacle g2
  else g2.

(** ** Particle pools *)

(** [createBonusEffect(x, y)]: twenty sparkles, five draws each. *)
Fixpoint bonusBurst (count : nat) (x y : Q) (s : nat) : list Sparkle.t :=
  match count with
  | O => []
  | S count' =>
      let angle := random s * Math_PI * 2 in
      let speed := random (s + 1) * 4 + 2 in
      let size := random (s + 2) * 4 + 2 in
      Sparkle.mk x y (Math_cos angle * speed) (Math_sin angle * speed)
        size 1.0 (random (s + 3) * 0.03 + 0.02)
        (if Qltb 0.5 (random (s + 4)) then "#FFD700" else "#FFA500")
      :: bonusBurst count' x y (s + 5)
  end.

Definition createBonusEffect (x y : Q) (g : Game) : Game :=
  let particleCount := 20%nat in
  set_seed (seed g + 5 * particleCount)
    (set_bonusParticles
       (bonusParticles g ++ bonusBurst particleCount x y (seed g)) g).

Definition stepSparkle (p : Sparkle.t) : Sparkle.t :=
  Sparkle.mk (Sparkle.x p + Sparkle.vx p) (Sparkle.y p + Sparkle.vy p)
    (Sparkle.vx p * 0.95) (Sparkle.vy p * 0.95) (Sparkle.size p)
    (Sparkle.life p - Sparkle.decay p) (Sparkle.decay p) (Sparkle.color p).

(** The loop runs from the last index down and splices out a particle as
    soon as its [life] is not positive. *)
Fixpoint moveSparkles (ps : list Sparkle.t) : list Sparkle.t :=
  match ps with
  | [] => []
  | p :: rest =>
      let rest' := moveSparkles rest in
      let p' := stepSparkle p in
      if Qleb (Sparkle.life p') 0 then rest' else p' :: rest'
  end.

Definition updateBonusParticles (g : Game) : Game :=
  set_bonusParticles (moveSparkles (bonusParticles g)) g.

Definition explosionColors : list string :=
  ["#FF4500"; "#FF6600"; "#FF8C00"; "#FFD700"; "#FFA500"; "#FF0000";
   "#8B0000"].

(** The sixty fire particles of [createExplosion], five draws each.  An
    index outside [colors] would give [undefined]; it is the empty string
    here (the index is in range for a draw in [0, 1)). *)
Fixpoint fireBurst (count : nat) (x y : Q) (s : nat) : list Debris.t :=
  match count with
  | O => []
  | S count' =>
      let angle := random s * Math_PI * 2 in
      let speed := random (s + 1) * 6 + 1 in
      let size := random (s + 2) * 6 + 2 in
      let color :=
        nth (Z.to_nat
               (Math_floor
                  (random (s + 3)
                   * inject_Z (Z.of_nat (length explosionColors)))))
            explosionColors "" in
      Debris.mk x y (Math_cos angle * speed) (Math_sin angle * speed)
        size 1.0 (random (s + 4) * 0.015 + 0.015) color 0.98 false
      :: fireBurst count' x y (s + 5)
  end.

(** The twenty smoke particles, four draws each. *)
Fixpoint smokeBurst (count : nat) (x y : Q) (s : nat) : list Debris.t :=
  match count with
  | O => []
  | S count' =>
      let angle := random s * Math_PI * 2 in
      let speed := random (s + 1) * 2 + 0.5 in
      Debris.mk x y (Math_cos angle * speed) (Math_sin angle * speed - 1)
        (random (s + 2) * 8 + 4) 1.0 (random (s + 3) * 0.01 + 0.01)
        "#333333" 0.95 true
      :: smokeBurst count' x y (s + 4)
  end.

Definition createExplosion (x y : Q) (g : Game) : Game :=
  let particleCount := 60%nat in
  let s := seed g in
  let s' := (s + 5 * particleCount)%nat in
  set_seed (s' + 4 * 20)
    (set_explosionParticles
       (explosionParticles g ++ fireBurst particleCount x y s
          ++ smokeBurst 20 x y s') g).

Definition stepDebris (p : Debris.t) : Debris.t :=
  let vx := Debris.vx p * Debris.friction p in
  let vy := Debris.vy p * Debris.friction p in
  let x := Debris.x p + vx in
  let y := Debris.y p + vy in
  let vy' := if Debris.isSmoke p then vy - 0.1 else vy + 0.3 in
  let size :=
    if Debris.isSmoke p then Debris.size p + 0.2 else Debris.size p in
  Debris.mk x y vx vy' size (Debris.life p - Debris.decay p)
    (Debris.decay p) (Debris.color p) (Debris.friction p) (Debris.isSmoke p).

Fixpoint moveDebris (ps : list Debris.t) : list Debris.t :=
  match ps with
  | [] => []
  | p :: rest =>
      let rest' := moveDebris rest in
      let p' := stepDebris p in
      if Qleb (Debris.life p') 0 then rest' else p' :: rest'
  end.

Definition updateExplosion (g : Game) : Game :=
  set_explosionParticles (moveDebris (explosionParticles g)) g.

(** ** [checkCollision] *)

Definition padding : Q := 8.

Definition playerHitbox (p : Player.t) : Hitbox :=
  {| hb_x := Player.x p + padding;
     hb_y := Player.y p + padding;
     hb_width := Player.width p - padding * 2;
     hb_height := Player.height p - padding * 2 |}.

(** [obstacle.scale || 1.0] scales the box about its centre, then the
    padding shrinks it. *)
Definition obstacleHitbox (o : Obstacle.t) : Hitbox :=
  let scale := if Qeqb (Obstacle.scale o) 0 then 1.0 else Obstacle.scale o in
  let scaledWidth := Obstacle.width o * scale in
  let scaledHeight := Obstacle.height o * scale in
  let offsetX := (scaledWidth - Obstacle.width o) / 2 in
  let offsetY := (scaledHeight - Obstacle.height o) / 2 in
  {| hb_x := Obstacle.x o - offsetX + padding;
     hb_y := Obstacle.y o - offsetY + padding;
     hb_width := scaledWidth - padding * 2;
     hb_height := scaledHeight - padding * 2 |}.

Definition overlap (a b : Hitbox) : bool :=
  Qltb (hb_x a) (hb_x b + hb_width b)
  && Qltb (hb_x b) (hb_x a + hb_width a)
  && Qltb (hb_y a) (hb_y b + hb_height b)
  && Qltb (hb_y b) (hb_y a + hb_height a).

Definition hits (p : Player.t) (o : Obstacle.t) : bool :=
  overlap (playerHitbox p) (obstacleHitbox o).

(** [for (let i = obstacles.length - 1; i >= 0; i--)] up to the first
    overlap: [firstHit p obs n] scans the indices [n - 1], ..., [0]. *)
Fixpoint firstHit (p : Player.t) (obs : list Obstacle.t) (n : nat)
  : option (nat * Obstacle.t) :=
  match n with
  | O => None
  | S i =>
      match obs !! i with
      | Some obstacle =>
          if hits p obstacle then Some (i, obstacle)
          else firstHit p obs i
      | None => firstHit p obs i
      end
  end.

(** The result is the returned boolean and the state the call leaves. *)
Definition checkCollision (g : Game) : bool * Game :=
  match firstHit (player g) (obstacles g) (length (obstacles g)) with
  | Some (i, obstacle) =>
      if Obstacle.isBonus obstacle && Obstacle.hasTransformed obstacle then
        let g1 := set_score (score g + 200)%Z g in
        let g2 := set_scoreFlashTime 20%Z g1 in
        let g3 :=
          createBonusEffect
            (Obstacle.x obstacle + Obstacle.width obstacle / 2)
            (Obstacle.y obstacle + Obstacle.height obstacle / 2) g2 in
        (false, set_obstacles (delete i (obstacles g3)) g3)
      else (true, g)
  | None => (false, g)
  end.

(** ** Drawing routines that touch the state *)

(** [drawScore] counts the score flash down. *)
Definition drawScore (g : Game) : Game :=
  if (0 <? scoreFlashTime g)%Z
  then set_scoreFlashTime (scoreFlashTime g - 1)%Z g else g.

(** [drawJungleBackground] draws three random numbers for each of its
    forty blades of grass. *)
Definition drawJungleBackground (g : Game) : Game :=
  set_seed (seed g + 3 * 40) g.

(** ** [gameLoop] and [resetGame] *)

Definition gameLoop (rect : DOMRect) (g : Game) : Game :=
  let g := drawJungleBackground g in
  if gameOver g then
    let g1 := updateExplosion g in
    let g2 := drawScore g1 in
    let g3 :=
      if (length (explosionParticles g2) =? 0)%nat || showGameOverText g2
      then set_showGameOverText true g2 else g2 in
    set_frameRequested (0 <? length (explosionParticles g3))%nat g3
  else
    let g1 := updateBonusParticles (updateObstacles (updatePlayer rect g)) in
    let '(collided, g2) := checkCollision g1 in
    if collided then
      let g3 := set_gameOver true g2 in
      let g4 :=
        if (highScore g3 <? score g3)%Z
        then set_savedHighScore (Some (score g3))
               (set_highScore (score g3) g3)
        else g3 in
      let p := player g4 in
      let g5 :=
        createExplosion (Player.x p + Player.width p / 2)
          (Player.y p + Player.height p / 2) g4 in
      set_frameRequested true g5
    else set_frameRequested true (drawScore g2).

(** The assignments of [resetGame], before it calls [gameLoop]. *)
Definition resetState (g : Game) : Game :=
  let p := player g in
  let p' :=
    Player.set_animationFrame 0
      (Player.set_dx 0 (Player.set_x (canvas_width / 2 - 35) p)) in
  set_showGameOverText false
    (set_bonusParticles []
       (set_explosionParticles []
          (set_gameOver false
             (set_scoreFlashTime 0%Z
                (set_score 0%Z
                   (set_frameCount 0%Z
                      (set_obstacles [] (set_player p' g)))))))).

Definition resetGame (rect : DOMRect) (g : Game) : Game :=
  gameLoop rect (resetState g).

(** ** The restart control *)

(** A pointer position: [clientX], [clientY] of a mouse event or of
    [e.touches[0]]. *)
Record Pointer : Type := { clientX : Q; clientY : Q }.

(** The hit test shared by the two listeners, on canvas coordinates. *)
Definition insideRestartButton (px py : Q) : bool :=
  let buttonWidth := 250 in
  let buttonHeight := 60 in
  let buttonX := canvas_width / 2 - buttonWidth / 2 in
  let buttonY := canvas_height / 2 + 60 in
  Qleb buttonX px && Qleb px (buttonX + buttonWidth)
  && Qleb buttonY py && Qleb py (buttonY + buttonHeight).

Definition toCanvasX (rect : DOMRect) (e : Pointer) : Q :=
  (clientX e - rect_left rect) * (canvas_width / rect_width rect).
Definition toCanvasY (rect : DOMRect) (e : Pointer) : Q :=
  (clientY e - rect_top rect) * (canvas_height / rect_height rect).

(** Whether the [click] listener calls [resetGame]. *)
Definition clickResets (rect : DOMRect) (e : Pointer) (g : Game) : bool :=
  if negb (gameOver g) then false
  else insideRestartButton (toCanvasX rect e) (toCanvasY rect e).

(** The [click] listener of the canvas. *)
Definition on_click (rect : DOMRect) (e : Pointer) (g : Game) : Game :=
  if clickResets rect e g then resetGame rect g else g.

(** Whether the [touchstart] listener calls [resetGame]. *)
Definition touchResets (rect : DOMRect) (e : Pointer) (g : Game) : bool :=
  if gameOver g
  then insideRestartButton (toCanvasX rect e) (toCanvasY rect e)
  else false.

(** The [touchstart] listener of the document. *)
Definition on_touchstart (rect : DOMRect) (e : Pointer) (g : Game) : Game :=
  if gameOver g then
    if insideRestartButton (toCanvasX rect e) (toCanvasY rect e)
    then resetGame rect g else g
  else set_touch (clientX e) (clientX e) true g.

(** The [touchmove] listener. *)
Definition on_touchmove (e : Pointer) (g : Game) : Game :=
  if gameOver g then g
  else if isTouching g
       then set_touch (touchStartX g) (clientX e) (isTouching g) g
       else g.

(** The [touchend] listener. *)
Definition on_touchend (g : Game) : Game :=
  if gameOver g then g else set_touch 0 0 false g.

End Host.

(** ** Presentation: [resizeCanvas], [drawObstacles], [drawRestartButton] *)

(** [resizeCanvas]: the CSS size (in px) given to the canvas for a window
    [width] by [height]; the result is ([canvas.style.width],
    [canvas.style.height]). *)
Definition resizeCanvas (width height : Q) : Q * Q :=
  let aspectRatio := 4 / 3 in
  if Qltb aspectRatio (width / height)
  then (height * aspectRatio, height)
  else (width, width / aspectRatio).

(** What [drawBanana] sets up before it traces the outline: the origin it
    translates to, the rotation and scale it applies, and the three colours
    it paints with. *)
Record Drawn : Type := {
  centerX : Q;
  centerY : Q;
  drawnRotation : Q;
  drawnScale : Q;
  bodyColor : string;
  shadowColor : string;
  highlightColor : string
}.

Definition drawBanana (x y width : Q) (isBonus isGrowing : bool)
    (scale rotation : Q) : Drawn :=
  let bx := x in
  let centerX := bx + 15 in
  let centerY := y + 10 in
  let '(body, shadow, highlight) :=
    if isGrowing then ("#1a1a1a", "#000000", "#333333")
    else if isBonus then ("#FFD700", "#DAA520", "#FFFFE0")
    else ("#32CD32", "#228B22", "#90EE90") in
  {| centerX := centerX; centerY := centerY;
     drawnRotation := rotation; drawnScale := scale;
     bodyColor := body; shadowColor := shadow; highlightColor := highlight |}.

(** The body of the [forEach] of [drawObstacles]. *)
Definition drawObstacle (obstacle : Obstacle.t) : Drawn :=
  let isBonus := Obstacle.isBonus obstacle && Obstacle.hasTransformed obstacle in
  let isGrowing :=
    Obstacle.isGrowing obstacle && Obstacle.hasTransformed obstacle in
  let scale :=
    if Qeqb (Obstacle.scale obstacle) 0 then 1.5 else Obstacle.scale obstacle in
  let rotation := Obstacle.rotation obstacle in
  drawBanana (Obstacle.x obstacle) (Obstacle.y obstacle)
    (Obstacle.width obstacle) isBonus isGrowing scale rotation.

Definition drawObstacles (g : Game) : list Drawn :=
  map drawObstacle (obstacles g).

(** The rectangle [drawRestartButton] fills and returns. *)
Definition drawRestartButton : Hitbox :=
  let buttonWidth := 250 in
  let buttonHeight := 60 in
  let buttonX := canvas_width / 2 - buttonWidth / 2 in
  let buttonY := canvas_height / 2 + 60 in
  {| hb_x := buttonX; hb_y := buttonY;
     hb_width := buttonWidth; hb_height := buttonHeight |}.

(** * Vocabulary of the properties *)

(** ** Frames and run states *)

(** The state at the moment [gameLoop] calls [checkCollision] in a frame
    that starts with the game running. *)
Definition beforeCollision (random : nat -> Q) (Math_PI : Q) (rect : DOMRect)
    (g : Game) : Game :=
  updateBonusParticles
    (updateObstacles random Math_PI (updatePlayer rect (drawJungleBackground g))).

(** The three run states of the design, read off the two flags: the run is
    over from the fatal collision on, and the game-over text (with the
    restart button) is displayed from the frame on which the debris has
    burnt out. *)
Inductive RunState : Type := Playing | Exploding | GameOverDisplayed.

Definition runState (g : Game) : RunState :=
  if gameOver g then
    if showGameOverText g then GameOverDisplayed else Exploding
  else Playing.

(** The states the page can be in: the initial one, and those it gets to
    by animation frames and by the keyboard, mouse and touch listeners. *)
Inductive reachable (random : nat -> Q) (Math_cos Math_sin : Q -> Q)
    (Math_PI : Q) : Game -> Prop :=
| reach_start (stored : option Z) :
    reachable random Math_cos Math_sin Math_PI (initialGame stored)
| reach_frame (rect : DOMRect) (g : Game) :
    reachable random Math_cos Math_sin Math_PI g ->
    reachable random Math_cos Math_sin Math_PI
      (gameLoop random Math_cos Math_sin Math_PI rect g)
| reach_keydown (k : string) (g : Game) :
    reachable random Math_cos Math_sin Math_PI g ->
    reachable random Math_cos Math_sin Math_PI (on_keydown k g)
| reach_keyup (k : string) (g : Game) :
    reachable random Math_cos Math_sin Math_PI g ->
    reachable random Math_cos Math_sin Math_PI (on_keyup k g)
| reach_click (rect : DOMRect) (e : Pointer) (g : Game) :
    reachable random Math_cos Math_sin Math_PI g ->
    reachable random Math_cos Math_sin Math_PI
      (on_click random Math_cos Math_sin Math_PI rect e g)
| reach_touchstart (rect : DOMRect) (e : Pointer) (g : Game) :
    reachable random Math_cos Math_sin Math_PI g ->
    reachable random Math_cos Math_sin Math_PI
      (on_touchstart random Math_cos Math_sin Math_PI rect e g)
| reach_touchmove (e : Pointer) (g : Game) :
    reachable random Math_cos Math_sin Math_PI g ->
    reachable random Math_cos Math_sin Math_PI (on_touchmove e g)
| reach_touchend (g : Game) :
    reachable random Math_cos Math_sin Math_PI g ->
    reachable random Math_cos Math_sin Math_PI (on_touchend g).

(** ** The life of an obstacle *)

(** An obstacle as [createObstacle] pushes it: at [y = -20], 30 wide, with
    a speed of [Math.random() * 3 + 2] for a draw in [0, 1), and never both
    bonus and growing. *)
Definition spawned (o : Obstacle.t) : Prop :=
  exists x speed isBonus isGrowing rotation,
    o = newObstacle x (-20) 30 speed isBonus isGrowing rotation
    /\ 2 <= speed < 5
    /\ isBonus && isGrowing = false.

(** The obstacle after [n] frames of [updateObstacles]. *)
Definition aged (n : nat) (o : Obstacle.t) : Obstacle.t :=
  Nat.iter n stepObstacle o.

(** The obstacles that can be met in [obstacles]. *)
Definition in_flight (o : Obstacle.t) : Prop :=
  exists o0 n, spawned o0 /\ o = aged n o0.

(** What every obstacle in flight satisfies. *)
Record obstacle_inv (o : Obstacle.t) : Prop := {
  inv_width : Obstacle.width o = 30;
  inv_height : Obstacle.height o = 20;
  inv_speed : 0 <= Obstacle.speed o;
  inv_originalSpeed : 0 <= Obstacle.originalSpeed o;
  inv_exclusive : Obstacle.isBonus o && Obstacle.isGrowing o = false;
  inv_targetScale : Obstacle.targetScale o = 4.5;
  inv_scale : 1.5 <= Obstacle.scale o <= 4.5;
  inv_plain_scale : Obstacle.isGrowing o = false -> Obstacle.scale o = 1.5;
  inv_bonus :
    Obstacle.isBonus o = true ->
    (Obstacle.hasTransformed o = true <-> canvas_height / 2 <= Obstacle.y o)
}.

(** ** Free spans *)

(** The span from [a] to [b] does not meet the footprint
    [[x, x + width]] of the obstacle. *)
Definition clear_of (a b : Q) (o : Obstacle.t) : Prop :=
  Obstacle.x o + Obstacle.width o <= a \/ b <= Obstacle.x o.

(** Somewhere across the field there is a span at least [minGap] wide that
    meets none of the obstacles of the batch. *)
Definition free_span (minGap : Q) (batch : list Obstacle.t) : Prop :=
  exists a b : Q,
    0 <= a /\ b <= canvas_width /\ minGap <= b - a
    /\ Forall (clear_of a b) batch.

(** A pushed obstacle stands where its entry of [positions] says: 30 wide,
    at an [x] drawn from [0, canvas.width - 30), on the spawn row. *)
Definition placed_at (pos : Position.t) (o : Obstacle.t) : Prop :=
  Obstacle.x o = Position.x pos
  /\ Obstacle.width o = Position.width pos
  /\ Position.width pos = 30
  /\ 0 <= Position.x pos < canvas_width - 30
  /\ Obstacle.y o = -20.

(** ** A host and states for the scenarios *)

(** A sequence of draws: the seventh is 0.1, all the others 0.5. *)
Definition sample_random (n : nat) : Q := if (n =? 6)%nat then 0.1 else 0.5.
(** Stand-ins for the trigonometry, which only shapes particle
    velocities. *)
Definition sample_cos (a : Q) : Q := 1 - a * a / 2.
Definition sample_sin (a : Q) : Q := a.
Definition sample_PI : Q := 3.14159.

(** The canvas shown at its own size in the corner of the page. *)
Definition sample_rect : DOMRect :=
  {| rect_left := 0; rect_top := 0; rect_width := 800; rect_height := 600 |}.

(** The obstacle of the off-screen scenario: a plain banana at (100, 590),
    30 by 20, falling at speed 5. *)
Definition scenario_obstacle : Obstacle.t :=
  Obstacle.mk 100 590 30 20 5 5 false false false 1.5 4.5 0.

Definition scenario_game : Game :=
  set_obstacles [scenario_obstacle] (initialGame None).

(** A plain banana and a ripe bonus banana one frame above the player's
    head, at the player's starting column. *)
Definition plain_banana : Obstacle.t :=
  Obstacle.mk 385 487 30 20 3 3 false false false 1.5 4.5 0.
Definition ripe_bonus : Obstacle.t :=
  Obstacle.mk 385 487 30 20 3 3 true true false 1.5 4.5 0.

(** The ripe bonus is the last of [obstacles], so the scan meets it first;
    the plain banana before it overlaps the player as well. *)
Definition bonus_game : Game :=
  set_score 530%Z
    (set_obstacles [plain_banana; ripe_bonus] (initialGame (Some 300%Z))).

(** Score 540, high score 300, and a plain banana about to hit. *)
Definition fatal_game : Game :=
  set_score 540%Z (set_obstacles [plain_banana] (initialGame (Some 300%Z))).

(** The state one frame after the fatal collision of [fatal_game]: the
    debris is flying and the game-over text is not up yet. *)
Definition exploding_game : Game :=
  gameLoop sample_random sample_cos sample_sin sample_PI sample_rect
    (gameLoop sample_random sample_cos sample_sin sample_PI sample_rect
       fatal_game).

(** A click in the middle of the restart rectangle. *)
Definition restart_click : Pointer := {| clientX := 400; clientY := 390 |}.

(** Freshly pushed bananas of the three kinds. *)
Definition fresh_bonus : Obstacle.t := newObstacle 385 (-20) 30 3 true false 0.
Definition fresh_growing : Obstacle.t :=
  newObstacle 385 (-20) 30 4 false true 0.
Definition fresh_plain : Obstacle.t := newObstacle 385 (-20) 30 3 false false 0.

(** ** Pointer positions *)

(** The canvas point shown under a pointer: how far across and down the
    displayed canvas the pointer is, as a fraction of the displayed size,
    scaled to the canvas's own 800 by 600.  ([updatePlayer] computes the
    finger's x in this order; the listeners multiply by the ratio of the
    sizes instead.) *)
Definition shownX (rect : DOMRect) (e : Pointer) : Q :=
  (clientX e - rect_left rect) / rect_width rect * canvas_width.
Definition shownY (rect : DOMRect) (e : Pointer) : Q :=
  (clientY e - rect_top rect) / rect_height rect * canvas_height.

(** The point the finger asks the player's left edge to go to, as
    [updatePlayer] computes it. *)
Definition touchTarget (rect : DOMRect) (touchX : Q) (p : Player.t) : Q :=
  (touchX - rect_left rect) / rect_width rect * canvas_width
  - Player.width p / 2.

(** ** Invariants of the running page *)

(** One transition of the page: an animation frame or one of the
    listeners. *)
Inductive step (random : nat -> Q) (Math_cos Math_sin : Q -> Q)
    (Math_PI : Q) : Game -> Game -> Prop :=
| step_frame (rect : DOMRect) (g : Game) :
    step random Math_cos Math_sin Math_PI g
      (gameLoop random Math_cos Math_sin Math_PI rect g)
| step_keydown (k : string) (g : Game) :
    step random Math_cos Math_sin Math_PI g (on_keydown k g)
| step_keyup (k : string) (g : Game) :
    step random Math_cos Math_sin Math_PI g (on_keyup k g)
| step_click (rect : DOMRect) (e : Pointer) (g : Game) :
    step random Math_cos Math_sin Math_PI g
      (on_click random Math_cos Math_sin Math_PI rect e g)
| step_touchstart (rect : DOMRect) (e : Pointer) (g : Game) :
    step random Math_cos Math_sin Math_PI g
      (on_touchstart random Math_cos Math_sin Math_PI rect e g)
| step_touchmove (e : Pointer) (g : Game) :
    step random Math_cos Math_sin Math_PI g (on_touchmove e g)
| step_touchend (g : Game) :
    step random Math_cos Math_sin Math_PI g (on_touchend g).

(** A particle of the explosion that is still alive, with a decay of at
    least 0.01 a frame; a sparkle likewise, with at least 0.02. *)
Definition debris_ok (p : Debris.t) : Prop :=
  0 < Debris.life p <= 1 /\ 0.01 <= Debris.decay p.

Definition sparkle_ok (p : Sparkle.t) : Prop :=
  0 < Sparkle.life p <= 1 /\ 0.02 <= Sparkle.decay p.

(** What holds of the game variables between any two transitions. *)
Record game_inv (g : Game) : Prop := {
  gi_score : (0 <= score g)%Z /\ (score g mod 10 = 0)%Z;
  gi_flash : (0 <= scoreFlashTime g <= 20)%Z;
  gi_frame : (0 <= frameCount g)%Z;
  gi_running :
    gameOver g = false ->
    explosionParticles g = [] /\ showGameOverText g = false;
  gi_over : gameOver g = true -> (score g <= highScore g)%Z;
  gi_saved :
    highScore g = match savedHighScore g with Some h => h | None => 0%Z end;
  gi_player :
    Player.width (player g) = 70 /\ Player.height (player g) = 45
    /\ Player.speed (player g) = 6
    /\ Player.y (player g) = canvas_height - 120
    /\ 0 <= Player.x (player g) <= canvas_width - 70;
  gi_debris : Forall debris_ok (explosionParticles g);
  gi_sparkles : Forall sparkle_ok (bonusParticles g)
}.

(** ** Order of positions *)

(** [a] is not to the right of [b]. *)
Definition left_of (a b : Position.t) : Prop := Position.x a <= Position.x b.

(** The sample page after [n] animation frames from its start.  With the
    sample draws a plain banana is spawned on frame 60 above the player,
    who does not move, and hits on frame 201. *)
Definition sample_run (n : nat) : Game :=
  Nat.iter n
    (gameLoop sample_random sample_cos sample_sin sample_PI sample_rect)
    (initialGame None).

(** * Properties *)

(** ** Comparisons *)

Lemma Qltb_lt (a b : Q) : Qltb a b = true <-> a < b.
Proof.
  unfold Qltb. rewrite negb_true_iff, <- not_true_iff_false, Qle_bool_iff.
  split; [apply Qnot_le_lt | apply Qlt_not_le].
Qed.

Lemma Qltb_ge (a b : Q) : Qltb a b = false <-> b <= a.
Proof.
  unfold Qltb. rewrite negb_false_iff. apply Qle_bool_iff.
Qed.

Lemma Qleb_le (a b : Q) : Qleb a b = true <-> a <= b.
Proof. apply Qle_bool_iff. Qed.

Lemma Qleb_gt (a b : Q) : Qleb a b = false <-> b < a.
Proof.
  unfold Qleb. rewrite <- not_true_iff_false, Qle_bool_iff.
  split; [apply Qnot_le_lt | apply Qlt_not_le].
Qed.

Lemma Qeqb_eq (a b : Q) : Qeqb a b = true <-> a == b.
Proof. apply Qeq_bool_iff. Qed.

Lemma Qeqb_neq (a b : Q) : Qeqb a b = false <-> ~ a == b.
Proof.
  unfold Qeqb. rewrite <- not_true_iff_false, Qeq_bool_iff. tauto.
Qed.

(** Case analysis on a comparison of the goal whose operands hold no
    conditional (so the innermost come first), leaving the order fact as a
    hypothesis. *)
Ltac no_if t :=
  lazymatch t with
  | context [if _ then _ else _] => fail
  | _ => idtac
  end.

Ltac qcase1 :=
  match goal with
  | |- context [Qltb ?a ?b] =>
      no_if a; no_if b;
      let H := fresh "Hlt" in
      destruct (Qltb a b) eqn:H;
      [apply Qltb_lt in H | apply Qltb_ge in H]
  | |- context [Qleb ?a ?b] =>
      no_if a; no_if b;
      let H := fresh "Hle" in
      destruct (Qleb a b) eqn:H;
      [apply Qleb_le in H | apply Qleb_gt in H]
  | |- context [Qeqb ?a ?b] =>
      no_if a; no_if b;
      let H := fresh "Heq" in
      destruct (Qeqb a b) eqn:H;
      [apply Qeqb_eq in H | apply Qeqb_neq in H]
  end.

Ltac qcase := repeat qcase1.

(** Linear arithmetic over the rationals, with the field's constants and
    the divisions by 2 and 3 of the source unfolded first. *)
Ltac qlra :=
  unfold canvas_height, canvas_width, Qdiv in *;
  change (/ 2) with (1 # 2) in *;
  change (/ 3) with (1 # 3) in *;
  lra.

(** ** The player stays on the field *)

(** The clamp at the end of [updatePlayer], from any position. *)
Lemma clamp_in_field (x1 w : Q) :
  0 <= w <= canvas_width ->
  let x2 := if Qltb x1 0 then 0 else x1 in
  let x3 := if Qltb canvas_width (x2 + w) then canvas_width - w else x2 in
  0 <= x3 <= canvas_width - w.
Proof.
  unfold canvas_width. intros Hw. cbv zeta. qcase; lra.
Qed.

(** C5.  After [updatePlayer], whatever the keys held, the touch state, the
    canvas rectangle and the position before, the player's [x] lies in
    [0, canvas.width - 70], 70 being the width of the [player] object. *)
Theorem updatePlayer_x_in_field (rect : DOMRect) (g : Game) :
  Player.width (player g) == 70 ->
  0 <= Player.x (player (updatePlayer rect g))
  /\ Player.x (player (updatePlayer rect g)) <= canvas_width - 70.
Proof.
  intros Hw. unfold updatePlayer, movePlayer.
  cbn [player set_player Player.x Player.set_x].
  match goal with
  | |- context [Qltb (Player.x (player g) + ?d) 0] =>
      pose proof (clamp_in_field (Player.x (player g) + d)
                    (Player.width (player g))) as Hc
  end.
  cbv zeta in Hc.
  assert (Hrange : 0 <= Player.width (player g) <= canvas_width)
    by (unfold canvas_width; lra).
  specialize (Hc Hrange).
  cbn [Player.width Player.set_animationFrame Player.set_dx].
  lra.
Qed.

(** The three key groups do not matter: holding left at the left wall keeps
    the player at [0]. *)
Lemma updatePlayer_x_in_field_witness :
  let g :=
    on_keydown "ArrowLeft"
      (set_player (Player.set_x 2 Player.initial) (initialGame None)) in
  let rect := {| rect_left := 0; rect_top := 0;
                 rect_width := 800; rect_height := 600 |} in
  Player.width (player g) == 70
  /\ 0 <= Player.x (player (updatePlayer rect g))
  /\ Player.x (player (updatePlayer rect g)) <= canvas_width - 70.
Proof.
  cbv zeta. split; [reflexivity |].
  apply (updatePlayer_x_in_field
           {| rect_left := 0; rect_top := 0;
              rect_width := 800; rect_height := 600 |}
           (on_keydown "ArrowLeft"
              (set_player (Player.set_x 2 Player.initial) (initialGame None)))).
  reflexivity.
Defined.

(** ** One obstacle over one frame *)

(** All the paths through [stepObstacle]: the three flags, then each
    comparison as it is reached. *)
Ltac step_cases o :=
  unfold stepObstacle; cbv zeta;
  destruct o as [? ? ? ? ? ? [|] [|] [|] ? ? ?];
  cbn in *; try discriminate; repeat (qcase1; cbn in * ).

Lemma stepObstacle_y (o : Obstacle.t) :
  Obstacle.y (stepObstacle o) = Obstacle.y o + Obstacle.speed o.
Proof. step_cases o; reflexivity. Qed.

Lemma stepObstacle_x (o : Obstacle.t) :
  Obstacle.x (stepObstacle o) = Obstacle.x o.
Proof. step_cases o; reflexivity. Qed.

Lemma stepObstacle_isBonus (o : Obstacle.t) :
  Obstacle.isBonus (stepObstacle o) = Obstacle.isBonus o.
Proof. step_cases o; reflexivity. Qed.

Lemma stepObstacle_isGrowing (o : Obstacle.t) :
  Obstacle.isGrowing (stepObstacle o) = Obstacle.isGrowing o.
Proof. step_cases o; reflexivity. Qed.

Lemma stepObstacle_targetScale (o : Obstacle.t) :
  Obstacle.targetScale (stepObstacle o) = Obstacle.targetScale o.
Proof. step_cases o; reflexivity. Qed.

(** [hasTransformed] is only ever assigned [true]. *)
Lemma stepObstacle_hasTransformed_stays (o : Obstacle.t) :
  Obstacle.hasTransformed o = true ->
  Obstacle.hasTransformed (stepObstacle o) = true.
Proof. intros H. step_cases o; congruence. Qed.

(** The speed changes only when a growing banana transforms. *)
Lemma stepObstacle_speed (o : Obstacle.t) :
  Obstacle.isGrowing o = false \/ Obstacle.hasTransformed o = true ->
  Obstacle.speed (stepObstacle o) = Obstacle.speed o.
Proof.
  intros H. step_cases o; solve [reflexivity | destruct H; discriminate].
Qed.

(** ** Leaving the field *)

Lemma updateObstacles_no_spawn (random : nat -> Q) (Math_PI : Q) (g : Game) :
  ((frameCount g + 1) mod obstacleSpawnRate <> 0)%Z ->
  updateObstacles random Math_PI g =
  set_frameCount (frameCount g + 1)%Z
    (set_score (snd (moveObstacles (obstacles g) (score g)))
       (set_obstacles (fst (moveObstacles (obstacles g) (score g))) g)).
Proof.
  intros Hfc. unfold updateObstacles.
  destruct (moveObstacles (obstacles g) (score g)) as [obs sc]. cbn.
  apply Z.eqb_neq in Hfc. rewrite Hfc. reflexivity.
Qed.

(** A lone obstacle that is still on the field after the frame. *)
Lemma updateObstacles_keeps (random : nat -> Q) (Math_PI : Q) (g : Game)
    (o : Obstacle.t) :
  obstacles g = [o] ->
  ((frameCount g + 1) mod obstacleSpawnRate <> 0)%Z ->
  Obstacle.y o + Obstacle.speed o <= canvas_height ->
  obstacles (updateObstacles random Math_PI g) = [stepObstacle o]
  /\ score (updateObstacles random Math_PI g) = score g
  /\ frameCount (updateObstacles random Math_PI g) = (frameCount g + 1)%Z.
Proof.
  intros Hobs Hfc Hy. rewrite updateObstacles_no_spawn by exact Hfc.
  rewrite Hobs. cbn [moveObstacles]. rewrite stepObstacle_y.
  apply Qltb_ge in Hy. rewrite Hy. cbn. auto.
Qed.

(** A lone obstacle that is past the bottom edge after the frame. *)
Lemma updateObstacles_drops (random : nat -> Q) (Math_PI : Q) (g : Game)
    (o : Obstacle.t) :
  obstacles g = [o] ->
  ((frameCount g + 1) mod obstacleSpawnRate <> 0)%Z ->
  canvas_height < Obstacle.y o + Obstacle.speed o ->
  obstacles (updateObstacles random Math_PI g) = []
  /\ score (updateObstacles random Math_PI g) = (score g + 10)%Z
  /\ frameCount (updateObstacles random Math_PI g) = (frameCount g + 1)%Z.
Proof.
  intros Hobs Hfc Hy. rewrite updateObstacles_no_spawn by exact Hfc.
  rewrite Hobs. cbn [moveObstacles]. rewrite stepObstacle_y.
  apply Qltb_lt in Hy. rewrite Hy. cbn. auto.
Qed.

(** C2, as the code has it.  An obstacle at [y = 590] falling at speed 5 is
    at 595 after one [updateObstacles] and at 600 after the next, still in
    [obstacles] and with the score unchanged both times (the removal test
    is [y > canvas.height], and 600 is not above 600); the third call takes
    it to 605, removes it and adds exactly 10 to the score.  (Frames on
    which the spawner is not due; a growing banana is taken after its
    transformation, so that its speed stays the same.) *)
Theorem offscreen_removal_needs_third_frame (random : nat -> Q) (Math_PI : Q)
    (g : Game) (o : Obstacle.t) :
  obstacles g = [o] ->
  Obstacle.y o == 590 ->
  Obstacle.speed o == 5 ->
  Obstacle.isGrowing o = false \/ Obstacle.hasTransformed o = true ->
  (0 <= frameCount g mod obstacleSpawnRate < 57)%Z ->
  let g1 := updateObstacles random Math_PI g in
  let g2 := updateObstacles random Math_PI g1 in
  let g3 := updateObstacles random Math_PI g2 in
  (exists o1, obstacles g1 = [o1] /\ Obstacle.y o1 == 595
              /\ score g1 = score g)
  /\ (exists o2, obstacles g2 = [o2] /\ Obstacle.y o2 == 600
                 /\ score g2 = score g)
  /\ obstacles g3 = []
  /\ score g3 = (score g + 10)%Z.
Proof.
  intros Hobs Hy Hsp Hkind Hfc. cbv zeta.
  unfold obstacleSpawnRate in *.
  assert (Hkind1 : Obstacle.isGrowing (stepObstacle o) = false
                   \/ Obstacle.hasTransformed (stepObstacle o) = true).
  { destruct Hkind as [H | H];
      [left; rewrite stepObstacle_isGrowing; exact H
      | right; apply stepObstacle_hasTransformed_stays; exact H]. }
  destruct (updateObstacles_keeps random Math_PI g o Hobs) as (Ho1 & Hs1 & Hf1).
  { unfold obstacleSpawnRate. Z.div_mod_to_equations. lia. }
  { unfold canvas_height. lra. }
  set (g1 := updateObstacles random Math_PI g) in *.
  set (o1 := stepObstacle o) in *.
  assert (Hy1 : Obstacle.y o1 == 595)
    by (unfold o1; rewrite stepObstacle_y; lra).
  assert (Hsp1 : Obstacle.speed o1 == 5)
    by (unfold o1; rewrite stepObstacle_speed by exact Hkind; exact Hsp).
  assert (Hmod1 : (frameCount g1 mod 60 = frameCount g mod 60 + 1)%Z).
  { rewrite Hf1. Z.div_mod_to_equations. lia. }
  destruct (updateObstacles_keeps random Math_PI g1 o1 Ho1) as (Ho2 & Hs2 & Hf2).
  { unfold obstacleSpawnRate. Z.div_mod_to_equations. lia. }
  { unfold canvas_height. lra. }
  set (g2 := updateObstacles random Math_PI g1) in *.
  set (o2 := stepObstacle o1) in *.
  assert (Hy2 : Obstacle.y o2 == 600)
    by (unfold o2; rewrite stepObstacle_y; lra).
  assert (Hsp2 : Obstacle.speed o2 == 5)
    by (unfold o2; rewrite stepObstacle_speed by exact Hkind1; exact Hsp1).
  assert (Hmod2 : (frameCount g2 mod 60 = frameCount g mod 60 + 2)%Z).
  { rewrite Hf2. Z.div_mod_to_equations. lia. }
  destruct (updateObstacles_drops random Math_PI g2 o2 Ho2) as (Ho3 & Hs3 & _).
  { unfold obstacleSpawnRate. Z.div_mod_to_equations. lia. }
  { unfold canvas_height. lra. }
  repeat split.
  - exists o1. repeat split; assumption.
  - exists o2. repeat split; [assumption | assumption | congruence].
  - exact Ho3.
  - rewrite Hs3. congruence.
Qed.

Lemma offscreen_removal_needs_third_frame_witness :
  let g := scenario_game in
  let g1 := updateObstacles sample_random sample_PI g in
  let g2 := updateObstacles sample_random sample_PI g1 in
  let g3 := updateObstacles sample_random sample_PI g2 in
  (exists o1, obstacles g1 = [o1] /\ Obstacle.y o1 == 595
              /\ score g1 = score g)
  /\ (exists o2, obstacles g2 = [o2] /\ Obstacle.y o2 == 600
                 /\ score g2 = score g)
  /\ obstacles g3 = []
  /\ score g3 = (score g + 10)%Z.
Proof.
  apply (offscreen_removal_needs_third_frame sample_random sample_PI
           scenario_game scenario_obstacle).
  - reflexivity.
  - reflexivity.
  - reflexivity.
  - left. reflexivity.
  - vm_compute. split; [discriminate | reflexivity].
Defined.

(** C2 as it is worded fails on the scenario: after the second frame the
    obstacle, now at [y = 600], is still in [obstacles] and nothing has
    been scored. *)
Lemma offscreen_removal_counterexample :
  let g := scenario_game in
  let g1 := updateObstacles sample_random sample_PI g in
  let g2 := updateObstacles sample_random sample_PI g1 in
  ~ ((exists o1, obstacles g1 = [o1] /\ Obstacle.y o1 == 595)
     /\ obstacles g2 = []
     /\ score g2 = (score g + 10)%Z).
Proof.
  cbv zeta. intros (_ & Hgone & _). vm_compute in Hgone. discriminate Hgone.
Qed.

(** ** The life of an obstacle *)

Lemma spawned_inv (o : Obstacle.t) : spawned o -> obstacle_inv o.
Proof.
  intros (x & sp & b & gr & rot & -> & Hsp & Hex).
  split; cbn; try reflexivity; try lra; try assumption.
  intros _. split; [discriminate | intros H; qlra].
Qed.

Lemma stepObstacle_inv (o : Obstacle.t) :
  obstacle_inv o -> obstacle_inv (stepObstacle o).
Proof.
  intros [Hw Hh Hsp Hosp Hex Hts Hsc Hplain Hbonus].
  step_cases o; subst;
    (split; cbn;
     [ reflexivity | reflexivity | qlra | qlra | reflexivity | reflexivity
     | qlra
     | try (intros; discriminate); try (intros _; apply Hplain; reflexivity)
     | try (intros; discriminate);
       try (intros _; specialize (Hbonus eq_refl);
            split; [intros _ | reflexivity]; qlra);
       try (intros _; specialize (Hbonus eq_refl);
            split; [intros E | intros E]; try discriminate E;
            exfalso; qlra) ]).
Qed.

Lemma aged_S (n : nat) (o : Obstacle.t) :
  aged (S n) o = stepObstacle (aged n o).
Proof. reflexivity. Qed.

Lemma aged_inv (n : nat) (o : Obstacle.t) :
  spawned o -> obstacle_inv (aged n o).
Proof.
  intros Hs. induction n as [| n IH].
  - apply spawned_inv, Hs.
  - rewrite aged_S. apply stepObstacle_inv, IH.
Qed.

Lemma aged_isBonus (n : nat) (o : Obstacle.t) :
  Obstacle.isBonus (aged n o) = Obstacle.isBonus o.
Proof.
  induction n as [| n IH]; [reflexivity |].
  rewrite aged_S, stepObstacle_isBonus. exact IH.
Qed.

Lemma aged_isGrowing (n : nat) (o : Obstacle.t) :
  Obstacle.isGrowing (aged n o) = Obstacle.isGrowing o.
Proof.
  induction n as [| n IH]; [reflexivity |].
  rewrite aged_S, stepObstacle_isGrowing. exact IH.
Qed.

Lemma aged_hasTransformed_stays (n m : nat) (o : Obstacle.t) :
  (n <= m)%nat ->
  Obstacle.hasTransformed (aged n o) = true ->
  Obstacle.hasTransformed (aged m o) = true.
Proof.
  intros Hnm Ht. induction Hnm as [| m Hnm IH]; [exact Ht |].
  rewrite aged_S. apply stepObstacle_hasTransformed_stays, IH.
Qed.

(** The scale of any obstacle whose target is 4.5 and that is not above it
    neither passes 4.5 nor shrinks in a frame. *)
Lemma stepObstacle_scale (o : Obstacle.t) :
  Obstacle.targetScale o = 4.5 ->
  Obstacle.scale o <= 4.5 ->
  Obstacle.scale o <= Obstacle.scale (stepObstacle o)
  /\ Obstacle.scale (stepObstacle o) <= 4.5.
Proof.
  intros Hts Hsc. step_cases o; subst; lra.
Qed.

(** C8.  A bonus banana, at its creation and after any number of frames of
    [updateObstacles], has [hasTransformed] false when its [y] is below
    [canvas.height / 2] and true when its [y] is at or past it; once true
    the flag is true after every later frame. *)
Theorem bonus_transformed_iff_past_half (o0 : Obstacle.t) (n : nat) :
  spawned o0 ->
  Obstacle.isBonus o0 = true ->
  (Obstacle.y (aged n o0) < canvas_height / 2 ->
   Obstacle.hasTransformed (aged n o0) = false)
  /\ (canvas_height / 2 <= Obstacle.y (aged n o0) ->
      Obstacle.hasTransformed (aged n o0) = true)
  /\ (forall m, (n <= m)%nat ->
      Obstacle.hasTransformed (aged n o0) = true ->
      Obstacle.hasTransformed (aged m o0) = true).
Proof.
  intros Hs Hb.
  pose proof (inv_bonus _ (aged_inv n o0 Hs)) as Hiff.
  rewrite aged_isBonus in Hiff. specialize (Hiff Hb).
  repeat split.
  - intros Hy. destruct (Obstacle.hasTransformed (aged n o0)); [| reflexivity].
    exfalso. apply (Qlt_not_le _ _ Hy). apply Hiff. reflexivity.
  - apply Hiff.
  - intros m Hnm. apply aged_hasTransformed_stays, Hnm.
Qed.

(** C9.  A growing banana starts at scale 1.5; after any number of frames
    its scale is at most 4.5 and at least what it was a frame earlier. *)
Theorem growing_scale_capped_and_monotone (o0 : Obstacle.t) (n : nat) :
  spawned o0 ->
  Obstacle.isGrowing o0 = true ->
  Obstacle.scale (aged 0 o0) == 1.5
  /\ Obstacle.scale (aged n o0) <= 4.5
  /\ Obstacle.scale (aged n o0) <= Obstacle.scale (aged (S n) o0).
Proof.
  intros Hs _.
  pose proof (aged_inv n o0 Hs) as Hinv.
  destruct (stepObstacle_scale (aged n o0) (inv_targetScale _ Hinv)
              (proj2 (inv_scale _ Hinv))) as [Hmono _].
  repeat split.
  - destruct Hs as (x & sp & b & gr & rot & -> & _). reflexivity.
  - apply (inv_scale _ Hinv).
  - rewrite aged_S. exact Hmono.
Qed.

(** The scale does grow: a transformed growing banana below the cap gains
    0.03 a frame, or lands on the cap. *)
Lemma growing_scale_step (o : Obstacle.t) :
  Obstacle.isGrowing o = true ->
  Obstacle.hasTransformed o = true ->
  Obstacle.targetScale o = 4.5 ->
  Obstacle.scale o < 4.5 ->
  Obstacle.scale (stepObstacle o) == Qmin (Obstacle.scale o + 0.03) 4.5.
Proof.
  intros Hg Ht Hts Hsc.
  step_cases o; subst; try discriminate; try lra.
  all: symmetry;
    solve [apply Q.min_r; lra | apply Q.min_l; lra].
Qed.

(** C10.  A banana that is not growing has scale 1.5 at its creation and
    after any number of frames, so the box [checkCollision] builds for it
    is the 30 by 20 box scaled by 1.5 about its centre and shrunk by the
    padding of 8 on each side: 29 by 14, offset by (0.5, 3), and never the
    nominal 30 by 20 box at (x, y). *)
Theorem plain_scale_fixed_hitbox (o0 : Obstacle.t) (n : nat) :
  spawned o0 ->
  Obstacle.isGrowing o0 = false ->
  let o := aged n o0 in
  Obstacle.scale o = 1.5
  /\ hb_x (obstacleHitbox o) == Obstacle.x o - (30 * 1.5 - 30) / 2 + 8
  /\ hb_y (obstacleHitbox o) == Obstacle.y o - (20 * 1.5 - 20) / 2 + 8
  /\ hb_width (obstacleHitbox o) == 30 * 1.5 - 8 * 2
  /\ hb_height (obstacleHitbox o) == 20 * 1.5 - 8 * 2
  /\ ~ hb_width (obstacleHitbox o) == Obstacle.width o
  /\ ~ hb_height (obstacleHitbox o) == Obstacle.height o.
Proof.
  intros Hs Hg o.
  pose proof (aged_inv n o0 Hs) as Hinv. fold o in Hinv.
  assert (Hsc : Obstacle.scale o = 1.5).
  { apply (inv_plain_scale _ Hinv). unfold o. rewrite aged_isGrowing.
    exact Hg. }
  unfold obstacleHitbox. rewrite Hsc, (inv_width _ Hinv), (inv_height _ Hinv).
  cbn [hb_x hb_y hb_width hb_height]. unfold padding.
  change (Qeqb 1.5 0) with false. cbv iota.
  repeat split; try reflexivity.
  - intros E. vm_compute in E. discriminate E.
  - intros E. vm_compute in E. discriminate E.
Qed.

(** ** The collision scan *)

Lemma firstHit_prefix (p : Player.t) (l r : list Obstacle.t) (n : nat) :
  (n <= length l)%nat -> firstHit p (l ++ r) n = firstHit p l n.
Proof.
  induction n as [| i IH]; intros Hn; [reflexivity |].
  cbn [firstHit]. rewrite lookup_app_l by lia. rewrite IH by lia.
  reflexivity.
Qed.

(** Obstacles behind the scan that do not overlap the player are passed
    over. *)
Lemma firstHit_skip (p : Player.t) (l r : list Obstacle.t) :
  Forall (fun o => hits p o = false) r ->
  firstHit p (l ++ r) (length (l ++ r)) = firstHit p l (length l).
Proof.
  induction r as [| a r IH] using rev_ind; intros Hr.
  - rewrite app_nil_r. reflexivity.
  - apply Forall_app in Hr. destruct Hr as [Hr Ha].
    apply Forall_inv in Ha.
    rewrite app_assoc, length_app. cbn [length].
    rewrite Nat.add_1_r. cbn [firstHit].
    rewrite lookup_app_r by lia. rewrite Nat.sub_diag. cbn [lookup list_lookup].
    rewrite Ha. rewrite firstHit_prefix by lia. apply IH, Hr.
Qed.

(** The scan stops at the last obstacle of the array that overlaps the
    player, whatever comes before it. *)
Lemma firstHit_found (p : Player.t) (pre post : list Obstacle.t)
    (o : Obstacle.t) :
  hits p o = true ->
  Forall (fun o' => hits p o' = false) post ->
  firstHit p (pre ++ o :: post) (length (pre ++ o :: post))
  = Some (length pre, o).
Proof.
  intros Ho Hpost.
  change (pre ++ o :: post) with (pre ++ [o] ++ post).
  rewrite app_assoc, firstHit_skip by exact Hpost.
  rewrite length_app. cbn [length]. rewrite Nat.add_1_r. cbn [firstHit].
  rewrite lookup_app_r by lia. rewrite Nat.sub_diag. cbn [lookup list_lookup].
  rewrite Ho. reflexivity.
Qed.

Lemma delete_middle {A : Type} (pre post : list A) (a : A) :
  delete (length pre) (pre ++ a :: post) = pre ++ post.
Proof.
  induction pre as [| b pre IH]; [reflexivity |].
  cbn. f_equal. exact IH.
Qed.

(** The updates before the collision check leave the flag, the high score
    and the debris alone. *)
Lemma beforeCollision_frame (random : nat -> Q) (Math_PI : Q) (rect : DOMRect)
    (g : Game) :
  gameOver (beforeCollision random Math_PI rect g) = gameOver g
  /\ highScore (beforeCollision random Math_PI rect g) = highScore g
  /\ explosionParticles (beforeCollision random Math_PI rect g)
     = explosionParticles g
  /\ showGameOverText (beforeCollision random Math_PI rect g)
     = showGameOverText g.
Proof.
  unfold beforeCollision, updateBonusParticles, updateObstacles,
    createObstacle.
  repeat match goal with
  | |- context [let '(_, _) := ?p in _] => destruct p
  | |- context [if ?b then _ else _] => destruct b
  end; cbn; auto.
Qed.

Section Frames.

Variable random : nat -> Q.
Variables Math_cos Math_sin : Q -> Q.
Variable Math_PI : Q.

Local Abbreviation checkCollision' := (checkCollision random Math_cos Math_sin Math_PI).
Local Abbreviation gameLoop' := (gameLoop random Math_cos Math_sin Math_PI).

(** [checkCollision] on a ripe bonus banana. *)
Lemma checkCollision_bonus (g : Game) (pre post : list Obstacle.t)
    (o : Obstacle.t) :
  obstacles g = pre ++ o :: post ->
  Forall (fun o' => hits (player g) o' = false) post ->
  hits (player g) o = true ->
  Obstacle.isBonus o = true ->
  Obstacle.hasTransformed o = true ->
  checkCollision' g =
  (false,
   set_obstacles (pre ++ post)
     (createBonusEffect random Math_cos Math_sin Math_PI
        (Obstacle.x o + Obstacle.width o / 2)
        (Obstacle.y o + Obstacle.height o / 2)
        (set_scoreFlashTime 20%Z (set_score (score g + 200)%Z g)))).
Proof.
  intros Hobs Hpost Ho Hb Ht. unfold checkCollision.
  rewrite Hobs, firstHit_found by assumption.
  rewrite Hb, Ht. cbn [andb]. f_equal. f_equal.
  cbn. rewrite Hobs. apply delete_middle.
Qed.

(** [checkCollision] on anything else. *)
Lemma checkCollision_fatal (g : Game) (pre post : list Obstacle.t)
    (o : Obstacle.t) :
  obstacles g = pre ++ o :: post ->
  Forall (fun o' => hits (player g) o' = false) post ->
  hits (player g) o = true ->
  Obstacle.isBonus o && Obstacle.hasTransformed o = false ->
  checkCollision' g = (true, g).
Proof.
  intros Hobs Hpost Ho Hk. unfold checkCollision.
  rewrite Hobs, firstHit_found by assumption.
  rewrite Hk. reflexivity.
Qed.

Lemma gameLoop_running (rect : DOMRect) (g : Game) :
  gameOver g = false ->
  gameLoop' rect g =
  let '(collided, g2) :=
    checkCollision' (beforeCollision random Math_PI rect g) in
  if collided then
    let g3 := set_gameOver true g2 in
    let g4 :=
      if (highScore g3 <? score g3)%Z
      then set_savedHighScore (Some (score g3))
             (set_highScore (score g3) g3)
      else g3 in
    set_frameRequested true
      (createExplosion random Math_cos Math_sin Math_PI
         (Player.x (player g4) + Player.width (player g4) / 2)
         (Player.y (player g4) + Player.height (player g4) / 2) g4)
  else set_frameRequested true (drawScore g2).
Proof.
  intros Hrun. unfold gameLoop, beforeCollision.
  cbn [gameOver drawJungleBackground set_seed]. rewrite Hrun. reflexivity.
Qed.

(** Once the game is over a frame only moves the debris: the flag, the
    scores and the obstacles stay. *)
Lemma gameLoop_over (rect : DOMRect) (g : Game) :
  gameOver g = true ->
  gameOver (gameLoop' rect g) = true
  /\ score (gameLoop' rect g) = score g
  /\ highScore (gameLoop' rect g) = highScore g
  /\ obstacles (gameLoop' rect g) = obstacles g.
Proof.
  intros Hover. unfold gameLoop.
  cbn [gameOver drawJungleBackground set_seed]. rewrite Hover.
  cbv zeta. unfold drawScore, updateExplosion.
  repeat match goal with
  | |- context [if ?b then _ else _] => destruct b
  end; cbn; auto.
Qed.

Lemma frames_over (rect : DOMRect) (k : nat) (g : Game) :
  gameOver g = true ->
  gameOver (Nat.iter k (gameLoop' rect) g) = true
  /\ score (Nat.iter k (gameLoop' rect) g) = score g
  /\ highScore (Nat.iter k (gameLoop' rect) g) = highScore g
  /\ obstacles (Nat.iter k (gameLoop' rect) g) = obstacles g.
Proof.
  intros Hover. induction k as [| k IH]; [auto |].
  destruct IH as (Ho & Hs & Hh & Hobs).
  destruct (gameLoop_over rect _ Ho) as (Ho' & Hs' & Hh' & Hobs').
  rewrite Nat.iter_succ. repeat split; congruence.
Qed.

End Frames.

Section Collisions.

Variable random : nat -> Q.
Variables Math_cos Math_sin : Q -> Q.
Variable Math_PI : Q.

Local Abbreviation gameLoop' := (gameLoop random Math_cos Math_sin Math_PI).
Local Abbreviation beforeCollision' := (beforeCollision random Math_PI).

(** C3.  In a frame of the running game, let the scan of [checkCollision]
    (from the end of [obstacles]) meet a ripe bonus banana first: [o]
    overlaps the player, it is a bonus that has transformed, and nothing
    after it in the array overlaps.  Then the frame adds exactly 200 to the
    score the obstacle update left, leaves [gameOver] false and the high
    score alone, splices [o] out, starts the 20-frame score flash (one
    frame of which [drawScore] counts off at once), and appends a burst of
    twenty sparkles at the centre of [o].  The obstacles before [o] are not
    looked at: they are all still there, whether or not they overlap. *)
Theorem ripe_bonus_collected (rect : DOMRect) (g : Game)
    (pre post : list Obstacle.t) (o : Obstacle.t) :
  gameOver g = false ->
  obstacles (beforeCollision' rect g) = pre ++ o :: post ->
  Forall (fun o' => hits (player (beforeCollision' rect g)) o' = false) post ->
  hits (player (beforeCollision' rect g)) o = true ->
  Obstacle.isBonus o = true ->
  Obstacle.hasTransformed o = true ->
  score (gameLoop' rect g) = (score (beforeCollision' rect g) + 200)%Z
  /\ gameOver (gameLoop' rect g) = false
  /\ highScore (gameLoop' rect g) = highScore g
  /\ obstacles (gameLoop' rect g) = pre ++ post
  /\ scoreFlashTime (gameLoop' rect g) = 19%Z
  /\ bonusParticles (gameLoop' rect g) =
     bonusParticles (beforeCollision' rect g)
     ++ bonusBurst random Math_cos Math_sin Math_PI 20
          (Obstacle.x o + Obstacle.width o / 2)
          (Obstacle.y o + Obstacle.height o / 2)
          (seed (beforeCollision' rect g))
  /\ explosionParticles (gameLoop' rect g) = explosionParticles g.
Proof.
  intros Hrun Hobs Hpost Ho Hb Ht.
  rewrite gameLoop_running by exact Hrun.
  destruct (beforeCollision_frame random Math_PI rect g)
    as (Hover & Hhigh & Hdebris & _).
  set (g1 := beforeCollision' rect g) in *. clearbody g1.
  rewrite (checkCollision_bonus random Math_cos Math_sin Math_PI _ pre post o)
    by assumption.
  cbv iota beta. unfold drawScore, createBonusEffect. cbn.
  repeat split; try reflexivity; congruence.
Qed.

(** C4.  In a frame of the running game, let the scan meet first an
    obstacle [o] that is a plain banana, a bonus banana that has not
    transformed, or a growing banana (transformed or not); a banana is
    never both bonus and growing.  Then the frame sets [gameOver], leaves
    the score as the obstacle update left it, sets the high score to the
    larger of the previous high score and that score, and keeps every
    obstacle.  In the frames that follow the game stays over and the high
    score is not written again: the run ends once. *)
Theorem fatal_collision_ends_run (rect : DOMRect) (g : Game)
    (pre post : list Obstacle.t) (o : Obstacle.t) :
  gameOver g = false ->
  obstacles (beforeCollision' rect g) = pre ++ o :: post ->
  Forall (fun o' => hits (player (beforeCollision' rect g)) o' = false) post ->
  hits (player (beforeCollision' rect g)) o = true ->
  Obstacle.isBonus o && Obstacle.isGrowing o = false ->
  (Obstacle.isBonus o = false /\ Obstacle.isGrowing o = false)
  \/ (Obstacle.isBonus o = true /\ Obstacle.hasTransformed o = false)
  \/ Obstacle.isGrowing o = true ->
  gameOver (gameLoop' rect g) = true
  /\ score (gameLoop' rect g) = score (beforeCollision' rect g)
  /\ highScore (gameLoop' rect g)
     = Z.max (highScore g) (score (beforeCollision' rect g))
  /\ obstacles (gameLoop' rect g) = pre ++ o :: post
  /\ (forall k : nat,
      gameOver (Nat.iter k (gameLoop' rect) (gameLoop' rect g)) = true
      /\ highScore (Nat.iter k (gameLoop' rect) (gameLoop' rect g))
         = Z.max (highScore g) (score (beforeCollision' rect g))).
Proof.
  intros Hrun Hobs Hpost Ho Hex Hkind.
  assert (Hfatal : Obstacle.isBonus o && Obstacle.hasTransformed o = false).
  { destruct (Obstacle.isBonus o), (Obstacle.hasTransformed o),
      (Obstacle.isGrowing o); cbn in *; try reflexivity;
      try discriminate Hex;
      destruct Hkind as [[? ?] | [[? ?] | ?]]; discriminate. }
  assert (Hnow :
    gameOver (gameLoop' rect g) = true
    /\ score (gameLoop' rect g) = score (beforeCollision' rect g)
    /\ highScore (gameLoop' rect g)
       = Z.max (highScore g) (score (beforeCollision' rect g))
    /\ obstacles (gameLoop' rect g) = pre ++ o :: post).
  { rewrite gameLoop_running by exact Hrun.
    destruct (beforeCollision_frame random Math_PI rect g)
      as (Hover & Hhigh & Hdebris & _).
    set (g1 := beforeCollision' rect g) in *. clearbody g1.
    rewrite (checkCollision_fatal random Math_cos Math_sin Math_PI _ pre post o)
      by assumption.
    cbv iota beta zeta. unfold createExplosion. cbn.
    destruct (highScore g1 <? score g1)%Z eqn:Hcmp; cbn;
      [apply Z.ltb_lt in Hcmp | apply Z.ltb_ge in Hcmp];
      repeat split; try reflexivity; try assumption; lia. }
  destruct Hnow as (Hover & Hscore & Hhigh & Hkeep).
  repeat split; try assumption.
  - apply frames_over, Hover.
  - destruct (frames_over random Math_cos Math_sin Math_PI rect k _ Hover)
      as (_ & _ & Hh & _).
    rewrite Hh. exact Hhigh.
Qed.

(** [checkCollision] returns [true] only on a state it has not changed,
    and never writes [gameOver]. *)
Lemma checkCollision_true (g g' : Game) :
  checkCollision random Math_cos Math_sin Math_PI g = (true, g') -> g' = g.
Proof.
  unfold checkCollision.
  destruct (firstHit _ _ _) as [[i o] |]; [| intros E; inversion E].
  destruct (Obstacle.isBonus o && Obstacle.hasTransformed o);
    intros E; inversion E; reflexivity.
Qed.

Lemma checkCollision_gameOver (g : Game) :
  gameOver (snd (checkCollision random Math_cos Math_sin Math_PI g))
  = gameOver g.
Proof.
  unfold checkCollision.
  destruct (firstHit _ _ _) as [[i o] |]; [| reflexivity].
  destruct (Obstacle.isBonus o && Obstacle.hasTransformed o); reflexivity.
Qed.

(** A frame that ends the run commits the high score. *)
Lemma gameLoop_commits_highScore (rect : DOMRect) (g : Game) :
  gameOver g = false ->
  gameOver (gameLoop' rect g) = true ->
  highScore (gameLoop' rect g)
  = Z.max (highScore g) (score (gameLoop' rect g)).
Proof.
  intros Hrun. rewrite gameLoop_running by exact Hrun.
  destruct (beforeCollision_frame random Math_PI rect g)
    as (Hover & Hhigh & _).
  set (g1 := beforeCollision' rect g) in *. clearbody g1.
  pose proof (checkCollision_gameOver g1) as Hflag.
  destruct (checkCollision random Math_cos Math_sin Math_PI g1)
    as [[|] g2] eqn:Hcc; cbv iota beta zeta.
  - apply checkCollision_true in Hcc. subst g2. intros _.
    unfold createExplosion. cbn.
    destruct (highScore g1 <? score g1)%Z eqn:Hcmp; cbn;
      [apply Z.ltb_lt in Hcmp | apply Z.ltb_ge in Hcmp]; lia.
  - cbn in Hflag. unfold drawScore.
    destruct (0 <? scoreFlashTime g2)%Z; cbn; congruence.
Qed.

Lemma checkCollision_empty (g : Game) :
  obstacles g = [] ->
  checkCollision random Math_cos Math_sin Math_PI g = (false, g).
Proof.
  intros H. unfold checkCollision. rewrite H. reflexivity.
Qed.

(** A frame of the running game with no obstacle, no sparkle, no score
    flash and the spawner not due: only the player moves. *)
Lemma gameLoop_quiet (rect : DOMRect) (r : Game) :
  gameOver r = false ->
  obstacles r = [] ->
  ((frameCount r + 1) mod obstacleSpawnRate <> 0)%Z ->
  bonusParticles r = [] ->
  scoreFlashTime r = 0%Z ->
  score (gameLoop' rect r) = score r
  /\ obstacles (gameLoop' rect r) = []
  /\ explosionParticles (gameLoop' rect r) = explosionParticles r
  /\ bonusParticles (gameLoop' rect r) = []
  /\ highScore (gameLoop' rect r) = highScore r
  /\ gameOver (gameLoop' rect r) = false
  /\ showGameOverText (gameLoop' rect r) = showGameOverText r
  /\ player (gameLoop' rect r)
     = movePlayer rect (keys r) (isTouching r) (touchCurrentX r) (player r).
Proof.
  intros Hrun Hobs Hfc Hbp Hft.
  rewrite gameLoop_running by exact Hrun.
  unfold beforeCollision.
  set (g1 := updatePlayer rect (drawJungleBackground r)).
  assert (H1 : obstacles g1 = obstacles r /\ score g1 = score r
               /\ frameCount g1 = frameCount r
               /\ bonusParticles g1 = bonusParticles r
               /\ explosionParticles g1 = explosionParticles r
               /\ highScore g1 = highScore r /\ gameOver g1 = gameOver r
               /\ showGameOverText g1 = showGameOverText r
               /\ scoreFlashTime g1 = scoreFlashTime r
               /\ player g1
                  = movePlayer rect (keys r) (isTouching r) (touchCurrentX r)
                      (player r))
    by (repeat split; reflexivity).
  destruct H1 as (Hobs1 & Hsc1 & Hfc1 & Hbp1 & Hep1 & Hhs1 & Hgo1 & Hst1
                  & Hft1 & Hpl1).
  clearbody g1.
  rewrite updateObstacles_no_spawn by (rewrite Hfc1; exact Hfc).
  rewrite Hobs1, Hobs. cbn [moveObstacles fst snd].
  rewrite checkCollision_empty by reflexivity.
  cbv iota beta. unfold updateBonusParticles, drawScore.
  cbn [scoreFlashTime set_bonusParticles set_frameCount set_score
       set_obstacles].
  rewrite Hft1, Hft, Z.ltb_irrefl.
  cbn [score obstacles explosionParticles bonusParticles highScore gameOver
       showGameOverText player set_frameRequested set_bonusParticles
       set_frameCount set_score set_obstacles].
  rewrite Hbp1, Hbp. cbn [moveSparkles].
  repeat split; congruence.
Qed.

(** With no key held and no finger down the player stays where it is, as
    long as that is on the field. *)
Lemma movePlayer_idle (rect : DOMRect) (ks : gmap string bool) (touchX : Q)
    (p : Player.t) :
  key_down ks "ArrowLeft" = false ->
  key_down ks "a" = false ->
  key_down ks "A" = false ->
  key_down ks "ArrowRight" = false ->
  key_down ks "d" = false ->
  key_down ks "D" = false ->
  0 <= Player.x p ->
  Player.x p + Player.width p <= canvas_width ->
  Player.x (movePlayer rect ks false touchX p) == Player.x p
  /\ Player.dx (movePlayer rect ks false touchX p) == 0
  /\ Player.animationFrame (movePlayer rect ks false touchX p)
     == Player.animationFrame p.
Proof.
  intros H1 H2 H3 H4 H5 H6 Hx0 Hx1. unfold movePlayer.
  rewrite H1, H2, H3, H4, H5, H6. cbn [orb].
  change (Qeqb 0 0) with true. cbv iota zeta.
  cbn [Player.x Player.dx Player.animationFrame Player.set_x Player.set_dx
       Player.set_animationFrame Player.width].
  qcase; repeat split; try reflexivity; qlra.
Qed.

(** The [player] object is written by [updatePlayer] and [resetGame]
    only, and its [width] by nothing. *)
Lemma updateObstacles_player (g : Game) :
  player (updateObstacles random Math_PI g) = player g.
Proof.
  unfold updateObstacles, createObstacle.
  repeat match goal with
  | |- context [let '(_, _) := ?p in _] => destruct p
  | |- context [if ?b then _ else _] => destruct b
  end; reflexivity.
Qed.

Lemma checkCollision_player (g : Game) :
  player (snd (checkCollision random Math_cos Math_sin Math_PI g)) = player g.
Proof.
  unfold checkCollision.
  destruct (firstHit _ _ _) as [[i o] |]; [| reflexivity].
  destruct (Obstacle.isBonus o && Obstacle.hasTransformed o); reflexivity.
Qed.

Lemma gameLoop_player_width (rect : DOMRect) (g : Game) :
  Player.width (player (gameLoop' rect g)) = Player.width (player g).
Proof.
  destruct (gameOver g) eqn:Hg.
  - unfold gameLoop. cbn [gameOver drawJungleBackground set_seed].
    rewrite Hg. cbv zeta. unfold drawScore, updateExplosion.
    repeat match goal with
    | |- context [if ?b then _ else _] => destruct b
    end; reflexivity.
  - rewrite gameLoop_running by exact Hg. unfold beforeCollision.
    set (g0 := updatePlayer rect (drawJungleBackground g)).
    assert (H0 : Player.width (player g0) = Player.width (player g))
      by reflexivity.
    clearbody g0.
    pose proof (updateObstacles_player g0) as H1.
    set (g1 := updateObstacles random Math_PI g0) in *. clearbody g1.
    assert (H2 : player (updateBonusParticles g1) = player g1) by reflexivity.
    set (g2 := updateBonusParticles g1) in *. clearbody g2.
    pose proof (checkCollision_player g2) as H3.
    destruct (checkCollision random Math_cos Math_sin Math_PI g2)
      as [[|] g3]; cbn [snd] in H3; cbv iota beta zeta.
    + unfold createExplosion.
      destruct (highScore (set_gameOver true g3) <? score (set_gameOver true g3))%Z;
        cbn [player set_frameRequested set_seed set_explosionParticles
             set_savedHighScore set_highScore set_gameOver];
        congruence.
    + unfold drawScore. destruct (0 <? scoreFlashTime g3)%Z;
        cbn [player set_frameRequested set_scoreFlashTime]; congruence.
Qed.

Lemma frames_player_width (rect : DOMRect) (k : nat) (g : Game) :
  Player.width (player (Nat.iter k (gameLoop' rect) g))
  = Player.width (player g).
Proof.
  induction k as [| k IH]; [reflexivity |].
  rewrite Nat.iter_succ, gameLoop_player_width. exact IH.
Qed.

(** What the assignments of [resetGame] leave. *)
Lemma resetState_fields (g : Game) :
  score (resetState g) = 0%Z
  /\ obstacles (resetState g) = []
  /\ explosionParticles (resetState g) = []
  /\ bonusParticles (resetState g) = []
  /\ highScore (resetState g) = highScore g
  /\ gameOver (resetState g) = false
  /\ showGameOverText (resetState g) = false
  /\ frameCount (resetState g) = 0%Z
  /\ scoreFlashTime (resetState g) = 0%Z
  /\ keys (resetState g) = keys g
  /\ isTouching (resetState g) = isTouching g
  /\ touchCurrentX (resetState g) = touchCurrentX g.
Proof. repeat split; reflexivity. Qed.

Lemma resetState_player (g : Game) :
  Player.x (player (resetState g)) = canvas_width / 2 - 35
  /\ Player.dx (player (resetState g)) = 0
  /\ Player.animationFrame (player (resetState g)) = 0
  /\ Player.y (player (resetState g)) = Player.y (player g)
  /\ Player.width (player (resetState g)) = Player.width (player g)
  /\ Player.height (player (resetState g)) = Player.height (player g)
  /\ Player.speed (player (resetState g)) = Player.speed (player g).
Proof. repeat split; reflexivity. Qed.

(** C6.  Let a frame of the running game, entered with a high score of 300,
    end the run with a score of 540, and let any number of game-over frames
    follow.  The state is then terminal with score 540 and high score 540.
    [resetGame] makes its assignments and runs a frame on the result.  After
    the assignments the score is 0, [obstacles] and both particle arrays are
    empty, the high score is still 540, [gameOver] and [showGameOverText]
    are false, and the player is back at [canvas.width / 2 - 35] with no
    velocity and animation phase 0.  After the frame that [resetGame] runs
    all of that still holds, the player having moved only if a key is held
    or a finger is down. *)
Theorem reset_after_fatal_collision (rect rect' : DOMRect) (g : Game)
    (k : nat) :
  gameOver g = false ->
  highScore g = 300%Z ->
  gameOver (gameLoop' rect g) = true ->
  score (gameLoop' rect g) = 540%Z ->
  Player.width (player g) = 70 ->
  let over := Nat.iter k (gameLoop' rect) (gameLoop' rect g) in
  let r := resetState over in
  let g' := resetGame random Math_cos Math_sin Math_PI rect' over in
  (gameOver over = true /\ score over = 540%Z /\ highScore over = 540%Z)
  /\ (score r = 0%Z /\ obstacles r = [] /\ explosionParticles r = []
      /\ bonusParticles r = [] /\ highScore r = 540%Z
      /\ gameOver r = false /\ showGameOverText r = false
      /\ Player.x (player r) = canvas_width / 2 - 35
      /\ Player.dx (player r) = 0
      /\ Player.animationFrame (player r) = 0)
  /\ g' = gameLoop' rect' r
  /\ (score g' = 0%Z /\ obstacles g' = [] /\ explosionParticles g' = []
      /\ bonusParticles g' = [] /\ highScore g' = 540%Z
      /\ gameOver g' = false /\ showGameOverText g' = false)
  /\ (key_down (keys over) "ArrowLeft" = false ->
      key_down (keys over) "a" = false ->
      key_down (keys over) "A" = false ->
      key_down (keys over) "ArrowRight" = false ->
      key_down (keys over) "d" = false ->
      key_down (keys over) "D" = false ->
      isTouching over = false ->
      Player.x (player g') == canvas_width / 2 - 35
      /\ Player.dx (player g') == 0
      /\ Player.animationFrame (player g') == 0).
Proof.
  intros Hrun Hhigh Hover Hscore Hwidth over r g'.
  assert (Hcommit : highScore (gameLoop' rect g) = 540%Z).
  { rewrite gameLoop_commits_highScore by assumption.
    rewrite Hhigh, Hscore. reflexivity. }
  destruct (frames_over random Math_cos Math_sin Math_PI rect k _ Hover)
    as (Hover' & Hscore' & Hhigh' & _).
  fold over in Hover', Hscore', Hhigh'.
  assert (Hterminal : gameOver over = true /\ score over = 540%Z
                      /\ highScore over = 540%Z)
    by (repeat split; congruence).
  assert (Hw : Player.width (player over) = 70).
  { unfold over. rewrite frames_player_width, gameLoop_player_width.
    exact Hwidth. }
  clearbody over.
  destruct (resetState_fields over)
    as (Rsc & Robs & Rep & Rbp & Rhs & Rgo & Rst & Rfc & Rft & Rk & Rt & Rtx).
  destruct (resetState_player over) as (Px & Pdx & Paf & _ & Pw & _).
  fold r in Rsc, Robs, Rep, Rbp, Rhs, Rgo, Rst, Rfc, Rft, Rk, Rt, Rtx,
    Px, Pdx, Paf, Pw.
  destruct (gameLoop_quiet rect' r Rgo Robs) as
    (Gsc & Gobs & Gep & Gbp & Ghs & Ggo & Gst & Gpl);
    [rewrite Rfc; discriminate | exact Rbp | exact Rft |].
  subst g'.
  change (resetGame random Math_cos Math_sin Math_PI rect' over)
    with (gameLoop' rect' r).
  clearbody r.
  destruct Hterminal as (T1 & T2 & T3).
  split; [repeat split; assumption |].
  split; [repeat split; congruence |].
  split; [reflexivity |].
  split; [repeat split; congruence |].
  intros K1 K2 K3 K4 K5 K6 Kt. rewrite Gpl, Rk, Rt, Kt.
  destruct (movePlayer_idle rect' (keys over) (touchCurrentX r) (player r)
              K1 K2 K3 K4 K5 K6) as (Mx & Mdx & Maf);
    [rewrite Px; qlra | rewrite Px, Pw, Hw; qlra |].
  repeat split.
  - rewrite Mx, Px. reflexivity.
  - exact Mdx.
  - rewrite Maf, Paf. reflexivity.
Qed.

End Collisions.

(** ** Scenarios for the collision and reset properties *)

Lemma ripe_bonus_collected_witness :
  let g' :=
    gameLoop sample_random sample_cos sample_sin sample_PI sample_rect
      bonus_game in
  score g' = 730%Z
  /\ gameOver g' = false
  /\ obstacles g' = [stepObstacle plain_banana]
  /\ length (bonusParticles g') = 20%nat.
Proof.
  cbv zeta.
  destruct (ripe_bonus_collected sample_random sample_cos sample_sin
              sample_PI sample_rect bonus_game
              [stepObstacle plain_banana] [] (stepObstacle ripe_bonus))
    as (Hs & Hg & _ & Ho & _ & Hb & _).
  - reflexivity.
  - vm_compute. reflexivity.
  - constructor.
  - vm_compute. reflexivity.
  - reflexivity.
  - reflexivity.
  - refine (conj _ (conj Hg (conj _ _))).
    + rewrite Hs. vm_compute. reflexivity.
    + rewrite Ho. reflexivity.
    + rewrite Hb. vm_compute. reflexivity.
Defined.

Lemma fatal_collision_ends_run_witness :
  let g' :=
    gameLoop sample_random sample_cos sample_sin sample_PI sample_rect
      fatal_game in
  gameOver g' = true /\ score g' = 540%Z /\ highScore g' = 540%Z
  /\ obstacles g' = [stepObstacle plain_banana].
Proof.
  cbv zeta.
  destruct (fatal_collision_ends_run sample_random sample_cos sample_sin
              sample_PI sample_rect fatal_game
              [] [] (stepObstacle plain_banana))
    as (Hg & Hs & Hh & Ho & _).
  - reflexivity.
  - vm_compute. reflexivity.
  - constructor.
  - vm_compute. reflexivity.
  - reflexivity.
  - left. split; reflexivity.
  - refine (conj Hg (conj _ (conj _ Ho))).
    + rewrite Hs. vm_compute. reflexivity.
    + rewrite Hh. vm_compute. reflexivity.
Defined.

Lemma reset_after_fatal_collision_witness :
  let over :=
    Nat.iter 2
      (gameLoop sample_random sample_cos sample_sin sample_PI sample_rect)
      (gameLoop sample_random sample_cos sample_sin sample_PI sample_rect
         fatal_game) in
  let g' :=
    resetGame sample_random sample_cos sample_sin sample_PI sample_rect
      over in
  highScore over = 540%Z
  /\ score g' = 0%Z /\ obstacles g' = [] /\ explosionParticles g' = []
  /\ bonusParticles g' = [] /\ highScore g' = 540%Z /\ gameOver g' = false.
Proof.
  cbv zeta.
  destruct (reset_after_fatal_collision sample_random sample_cos sample_sin
              sample_PI sample_rect sample_rect fatal_game 2)
    as ((_ & _ & Hh) & _ & _ & (H1 & H2 & H3 & H4 & H5 & H6 & _) & _).
  - reflexivity.
  - reflexivity.
  - vm_compute. reflexivity.
  - vm_compute. reflexivity.
  - reflexivity.
  - exact (conj Hh (conj H1 (conj H2 (conj H3 (conj H4 (conj H5 H6)))))).
Defined.

(** ** The restart gate *)

(** C7, as the code has it.  Both listeners test [gameOver] and nothing
    else before the hit test, so the gate is open in both states with the
    terminal flag set, [Exploding] as well as [GameOverDisplayed]: a click
    or a touch calls [resetGame] exactly when the run is not [Playing] and
    the point is inside the restart rectangle.  While the game is playing
    the gate never accepts: a click changes nothing and a touch only
    starts a drag. *)
Theorem restart_gate_is_gameOver (random : nat -> Q)
    (Math_cos Math_sin : Q -> Q) (Math_PI : Q)
    (rect : DOMRect) (e : Pointer) (g : Game) :
  (clickResets rect e g = true <->
   runState g <> Playing
   /\ insideRestartButton (toCanvasX rect e) (toCanvasY rect e) = true)
  /\ (touchResets rect e g = true <->
      runState g <> Playing
      /\ insideRestartButton (toCanvasX rect e) (toCanvasY rect e) = true)
  /\ on_click random Math_cos Math_sin Math_PI rect e g
     = (if clickResets rect e g
        then resetGame random Math_cos Math_sin Math_PI rect g else g)
  /\ on_touchstart random Math_cos Math_sin Math_PI rect e g
     = (if touchResets rect e g
        then resetGame random Math_cos Math_sin Math_PI rect g
        else if gameOver g then g
             else set_touch (clientX e) (clientX e) true g)
  /\ (runState g = Playing ->
      on_click random Math_cos Math_sin Math_PI rect e g = g
      /\ on_touchstart random Math_cos Math_sin Math_PI rect e g
         = set_touch (clientX e) (clientX e) true g).
Proof.
  unfold clickResets, touchResets, on_click, on_touchstart, clickResets,
    runState.
  destruct (gameOver g); cbn [negb].
  - destruct (insideRestartButton (toCanvasX rect e) (toCanvasY rect e)),
      (showGameOverText g);
      repeat split; try reflexivity; try discriminate; intros H;
        try (destruct H as [_ H]; discriminate H);
        try (exfalso; apply H; reflexivity); try discriminate H.
  - repeat split; try reflexivity; try discriminate; intros H;
      try (destruct H as [H _]; exfalso; apply H; reflexivity).
Qed.

(** The gate does not wait for the game-over text: while the debris is
    still flying a click or a touch inside the rectangle restarts the
    game. *)
Lemma restart_accepted_while_exploding :
  runState exploding_game = Exploding
  /\ clickResets sample_rect restart_click exploding_game = true
  /\ touchResets sample_rect restart_click exploding_game = true
  /\ runState
       (on_click sample_random sample_cos sample_sin sample_PI sample_rect
          restart_click exploding_game) = Playing.
Proof.
  split; [vm_compute; reflexivity |].
  split; [vm_compute; reflexivity |].
  split; vm_compute; reflexivity.
Qed.

(** C7 as it is worded fails: one frame after the fatal collision the run
    is [Exploding], not in the game-over display state, and a click inside
    the restart rectangle is accepted all the same. *)
Lemma restart_gate_counterexample :
  ~ (clickResets sample_rect restart_click exploding_game = true ->
     runState exploding_game = GameOverDisplayed).
Proof.
  intros Hclaim.
  assert (Haccepted :
            clickResets sample_rect restart_click exploding_game = true)
    by (vm_compute; reflexivity).
  specialize (Hclaim Haccepted). vm_compute in Hclaim. discriminate Hclaim.
Qed.

(** ** The spawner leaves a way through *)

Section Spawner.

Variable random : nat -> Q.
Variable Math_PI : Q.
Hypothesis random_range : forall n : nat, 0 <= random n < 1.

(** One run of the attempt loop pushes at most one banana, and pushes the
    same one on [positions] and on [obstacles]. *)
Lemma placeBanana_spec (attempts : nat) (minGap : Q)
    (positions : list Position.t) (obs : list Obstacle.t) (s : nat) :
  let '(positions', obs', _) :=
    placeBanana random Math_PI attempts (-20) minGap positions obs s in
  (positions' = positions /\ obs' = obs)
  \/ (exists pos o,
        positions' = positions ++ [pos] /\ obs' = obs ++ [o]
        /\ placed_at pos o /\ spawned o).
Proof using random_range.
  revert s. induction attempts as [| attempts IH]; intros s.
  - left. split; reflexivity.
  - cbn [placeBanana]. cbv zeta.
    destruct (validPosition _ _ _ _).
    + pose proof (random_range s) as Hx.
      pose proof (random_range (s + 1)) as Hsp.
      destruct (Qltb (random (s + 2)) 0.2) eqn:Hb.
      * right. eexists. eexists.
        split; [reflexivity |]. split; [reflexivity |].
        split.
        { unfold placed_at. cbn. repeat split; try reflexivity; qlra. }
        { eexists _, _, _, _, _. split; [reflexivity |].
          split; [lra | reflexivity]. }
      * right. eexists. eexists.
        split; [reflexivity |]. split; [reflexivity |].
        split.
        { unfold placed_at. cbn. repeat split; try reflexivity; qlra. }
        { eexists _, _, _, _, _. split; [reflexivity |].
          split; [lra | reflexivity]. }
    + apply IH.
Qed.

(** [Math.floor(Math.random() * 2) + 1] is 1 or 2. *)
Lemma numBananas_range (s : nat) :
  Z.to_nat (Math_floor (random s * 2) + 1) = 1%nat
  \/ Z.to_nat (Math_floor (random s * 2) + 1) = 2%nat.
Proof using random_range.
  pose proof (random_range s) as Hr. unfold Math_floor.
  assert (Hlo : (0 <= Qfloor (random s * 2))%Z).
  { change 0%Z with (Qfloor 0). apply Qfloor_resp_le. lra. }
  assert (Hhi : (Qfloor (random s * 2) < 2)%Z).
  { rewrite Zlt_Qlt. apply Qle_lt_trans with (random s * 2).
    - apply Qfloor_le.
    - change (inject_Z 2) with 2. lra. }
  assert (Hcase : Qfloor (random s * 2) = 0%Z \/ Qfloor (random s * 2) = 1%Z)
    by lia.
  destruct Hcase as [-> | ->]; [left | right]; reflexivity.
Qed.

(** The batch of one call: at most two bananas, appended to [obstacles],
    each where its entry of [positions] says. *)
Lemma placedBatch_spec (obs : list Obstacle.t) (s : nat) :
  exists (batch : list Obstacle.t) (s' : nat),
    placedBatch random Math_PI obs s
    = (fst (fst (placedBatch random Math_PI obs s)), obs ++ batch, s')
    /\ Forall2 placed_at (fst (fst (placedBatch random Math_PI obs s))) batch
    /\ Forall spawned batch
    /\ (length batch <= 2)%nat.
Proof using random_range.
  unfold placedBatch. cbv zeta.
  destruct (numBananas_range s) as [-> | ->]; cbn [placeBananas].
  - pose proof (placeBanana_spec 20 70 [] obs (S s)) as H1.
    destruct (placeBanana random Math_PI 20 (-20) 70 [] obs (S s))
      as [[ps1 obs1] s1].
    destruct H1 as [[-> ->] | (pos & o & -> & -> & Hp & Hs)]; cbn [fst].
    + exists [], s1. rewrite app_nil_r.
      split; [reflexivity |]. split; [constructor |].
      split; [constructor | cbn; lia].
    + exists [o], s1.
      split; [reflexivity |].
      split; [constructor; [exact Hp | constructor] |].
      split; [constructor; [exact Hs | constructor] | cbn; lia].
  - pose proof (placeBanana_spec 20 70 [] obs (S s)) as H1.
    destruct (placeBanana random Math_PI 20 (-20) 70 [] obs (S s))
      as [[ps1 obs1] s1].
    pose proof (placeBanana_spec 20 70 ps1 obs1 s1) as H2.
    destruct (placeBanana random Math_PI 20 (-20) 70 ps1 obs1 s1)
      as [[ps2 obs2] s2].
    cbn [fst].
    destruct H1 as [[-> ->] | (pos1 & o1 & -> & -> & Hp1 & Hs1)];
      destruct H2 as [[-> ->] | (pos2 & o2 & -> & -> & Hp2 & Hs2)].
    + exists [], s2. rewrite app_nil_r.
      split; [reflexivity |]. split; [constructor |].
      split; [constructor | cbn; lia].
    + exists [o2], s2.
      split; [reflexivity |].
      split; [constructor; [exact Hp2 | constructor] |].
      split; [constructor; [exact Hs2 | constructor] | cbn; lia].
    + exists [o1], s2.
      split; [reflexivity |].
      split; [constructor; [exact Hp1 | constructor] |].
      split; [constructor; [exact Hs1 | constructor] | cbn; lia].
    + exists [o1; o2], s2. rewrite <- (app_assoc obs [o1] [o2]). cbn [app].
      split; [reflexivity |].
      split; [constructor; [exact Hp1 | constructor; [exact Hp2 | constructor]] |].
      split; [constructor; [exact Hs1 | constructor; [exact Hs2 | constructor]]
             | cbn; lia].
Qed.

(** Two bananas 30 wide on a field 800 wide always leave one of the three
    gaps the check looks at 70 wide or more, so the check finds one. *)
Lemma hasValidGap_two (p1 p2 : Position.t) :
  Position.width p1 = 30 -> 0 <= Position.x p1 < canvas_width - 30 ->
  Position.width p2 = 30 -> 0 <= Position.x p2 < canvas_width - 30 ->
  hasValidGap 70 (sortPositions [p1; p2]) = true.
Proof.
  intros Hw1 Hx1 Hw2 Hx2. unfold sortPositions. cbn [fold_left sortInsert].
  destruct (Qltb (Position.x p2 - Position.x p1) 0) eqn:Hord;
    [apply Qltb_lt in Hord | apply Qltb_ge in Hord];
    unfold hasValidGap; cbn [List.last gapBetween]; rewrite Hw1, Hw2;
    rewrite !orb_true_iff, !Qleb_le;
    destruct (Qlt_le_dec (Position.x p1) 70) as [Ha | Ha];
    destruct (Qlt_le_dec (Position.x p2) 70) as [Hb | Hb];
    destruct (Qlt_le_dec 700 (Position.x p1)) as [Hc | Hc];
    destruct (Qlt_le_dec 700 (Position.x p2)) as [Hd | Hd];
    try (left; left; qlra);
    try (left; right; left; qlra);
    try (right; qlra).
Qed.

(** With at most two bananas placed the guaranteed-gap step never removes
    anything. *)
Lemma ensureGap_keeps (positions : list Position.t) (batch obs : list Obstacle.t)
    (s : nat) :
  Forall2 placed_at positions batch ->
  (length batch <= 2)%nat ->
  ensureGap random (-20) 70 positions obs s = (obs, s).
Proof.
  intros Hp Hlen. unfold ensureGap.
  destruct Hp as [| p1 o1 ps1 b1 Hp1 Hp]; [reflexivity |].
  destruct Hp as [| p2 o2 ps2 b2 Hp2 Hp].
  - cbn. rewrite andb_false_r. reflexivity.
  - destruct Hp as [| p3 o3 ps3 b3 Hp3 Hp]; [| cbn in Hlen; lia].
    destruct Hp1 as (_ & _ & Hw1 & Hx1 & _).
    destruct Hp2 as (_ & _ & Hw2 & Hx2 & _).
    rewrite (hasValidGap_two p1 p2 Hw1 Hx1 Hw2 Hx2). reflexivity.
Qed.

(** At most two bananas leave a free span of 70. *)
Lemma free_span_batch (positions : list Position.t) (batch : list Obstacle.t) :
  Forall2 placed_at positions batch ->
  (length batch <= 2)%nat ->
  free_span 70 batch.
Proof.
  intros Hp Hlen. unfold free_span, clear_of.
  destruct Hp as [| p1 o1 ps1 b1 Hp1 Hp].
  { exists 0, canvas_width. repeat split; try constructor; qlra. }
  destruct Hp1 as (Ex1 & Ew1 & Hw1 & Hx1 & _).
  destruct Hp as [| p2 o2 ps2 b2 Hp2 Hp].
  { destruct (Qlt_le_dec (Position.x p1) 70) as [Ha | Ha].
    - exists (Position.x p1 + 30), canvas_width.
      split; [qlra |]. split; [qlra |]. split; [qlra |].
      constructor; [| constructor]. left. rewrite Ex1, Ew1, Hw1. qlra.
    - exists 0, (Position.x p1).
      split; [qlra |]. split; [qlra |]. split; [qlra |].
      constructor; [| constructor]. right. rewrite Ex1. qlra. }
  destruct Hp as [| p3 o3 ps3 b3 Hp3 Hp]; [| cbn in Hlen; lia].
  destruct Hp2 as (Ex2 & Ew2 & Hw2 & Hx2 & _).
  set (x1 := Position.x p1) in *. set (x2 := Position.x p2) in *.
  assert (Hall : forall a b : Q,
    (x1 + 30 <= a \/ b <= x1) -> (x2 + 30 <= a \/ b <= x2) ->
    Forall (fun o => Obstacle.x o + Obstacle.width o <= a \/ b <= Obstacle.x o)
      [o1; o2]).
  { intros a b H1 H2. constructor; [| constructor; [| constructor]].
    - rewrite Ex1, Ew1, Hw1. exact H1.
    - rewrite Ex2, Ew2, Hw2. exact H2. }
  destruct (Qlt_le_dec x1 70) as [Ha | Ha];
    destruct (Qlt_le_dec x2 70) as [Hb | Hb].
  - destruct (Qlt_le_dec x1 x2) as [Hc | Hc].
    + exists (x2 + 30), canvas_width.
      split; [qlra |]. split; [qlra |]. split; [qlra |].
      apply Hall; left; qlra.
    + exists (x1 + 30), canvas_width.
      split; [qlra |]. split; [qlra |]. split; [qlra |].
      apply Hall; left; qlra.
  - destruct (Qlt_le_dec x2 (canvas_width - 100)) as [Hc | Hc].
    + exists (x2 + 30), canvas_width.
      split; [qlra |]. split; [qlra |]. split; [qlra |].
      apply Hall; left; qlra.
    + exists (x1 + 30), x2.
      split; [qlra |]. split; [qlra |]. split; [qlra |].
      apply Hall; [left | right]; qlra.
  - destruct (Qlt_le_dec x1 (canvas_width - 100)) as [Hc | Hc].
    + exists (x1 + 30), canvas_width.
      split; [qlra |]. split; [qlra |]. split; [qlra |].
      apply Hall; left; qlra.
    + exists (x2 + 30), x1.
      split; [qlra |]. split; [qlra |]. split; [qlra |].
      apply Hall; [right | left]; qlra.
  - destruct (Qlt_le_dec x1 x2) as [Hc | Hc].
    + exists 0, x1.
      split; [qlra |]. split; [qlra |]. split; [qlra |].
      apply Hall; right; qlra.
    + exists 0, x2.
      split; [qlra |]. split; [qlra |]. split; [qlra |].
      apply Hall; right; qlra.
Qed.

(** [createObstacle] appends its batch to [obstacles] and removes
    nothing. *)
Lemma createObstacle_appends (g : Game) :
  exists batch : list Obstacle.t,
    obstacles (createObstacle random Math_PI g) = obstacles g ++ batch
    /\ Forall2 placed_at
         (fst (fst (placedBatch random Math_PI (obstacles g) (seed g)))) batch
    /\ Forall spawned batch
    /\ (length batch <= 2)%nat.
Proof using random_range.
  destruct (placedBatch_spec (obstacles g) (seed g))
    as (batch & s' & Heq & Hplaced & Hspawned & Hlen).
  exists batch. unfold createObstacle.
  set (ps := fst (fst (placedBatch random Math_PI (obstacles g) (seed g))))
    in *.
  rewrite Heq. rewrite (ensureGap_keeps ps batch _ _ Hplaced Hlen).
  cbn [obstacles set_seed set_obstacles].
  repeat split; assumption.
Qed.

(** C1.  When a call of [createObstacle] places two bananas (or more), then
    after its guaranteed-gap step the bananas of the batch are all in
    [obstacles], appended to what was there, and some span of the field at
    least 70 wide (the player's width, [minGap]) meets the footprint of
    none of them.  The draws of [Math.random] are in [0, 1). *)
Theorem spawner_leaves_free_span (g : Game) :
  (2 <= length (fst (fst (placedBatch random Math_PI (obstacles g) (seed g)))))%nat ->
  exists batch : list Obstacle.t,
    obstacles (createObstacle random Math_PI g) = obstacles g ++ batch
    /\ length batch
       = length (fst (fst (placedBatch random Math_PI (obstacles g) (seed g))))
    /\ free_span 70 batch.
Proof using random_range.
  intros _.
  destruct (createObstacle_appends g)
    as (batch & Happ & Hplaced & _ & Hlen).
  exists batch. split; [exact Happ |]. split.
  - symmetry. apply (Forall2_length _ _ _ Hplaced).
  - apply (free_span_batch _ batch Hplaced Hlen).
Qed.

End Spawner.

Lemma sample_random_range (n : nat) : 0 <= sample_random n < 1.
Proof.
  unfold sample_random. destruct (n =? 6)%nat; lra.
Qed.

(** With the sample draws two bananas are placed, at x = 385 and x = 77. *)
Lemma spawner_leaves_free_span_witness :
  exists batch : list Obstacle.t,
    obstacles (createObstacle sample_random sample_PI (initialGame None))
    = batch
    /\ length batch = 2%nat
    /\ free_span 70 batch.
Proof.
  destruct (spawner_leaves_free_span sample_random sample_PI
              sample_random_range (initialGame None))
    as (batch & Happ & Hlen & Hfree).
  - vm_compute. lia.
  - exists batch. split; [exact Happ |]. split; [| exact Hfree].
    rewrite Hlen. vm_compute. reflexivity.
Defined.

(** ** Every obstacle of a reachable state is in flight *)

Lemma spawned_in_flight (o : Obstacle.t) : spawned o -> in_flight o.
Proof. intros Hs. exists o, O. split; [exact Hs | reflexivity]. Qed.

Lemma stepObstacle_in_flight (o : Obstacle.t) :
  in_flight o -> in_flight (stepObstacle o).
Proof.
  intros (o0 & n & Hs & ->). exists o0, (S n).
  split; [exact Hs | reflexivity].
Qed.

Lemma moveObstacles_in_flight (obs : list Obstacle.t) (sc : Z) :
  Forall in_flight obs -> Forall in_flight (fst (moveObstacles obs sc)).
Proof.
  induction 1 as [| o obs Ho Hobs IH]; [constructor |].
  cbn [moveObstacles].
  destruct (moveObstacles obs sc) as [rest' sc']. cbn [fst] in IH.
  destruct (Qltb canvas_height (Obstacle.y (stepObstacle o))); cbn [fst].
  - exact IH.
  - constructor; [apply stepObstacle_in_flight, Ho | exact IH].
Qed.

Section Reachability.

Variable random : nat -> Q.
Variables Math_cos Math_sin : Q -> Q.
Variable Math_PI : Q.
Hypothesis random_range : forall n : nat, 0 <= random n < 1.

Local Abbreviation gameLoop' := (gameLoop random Math_cos Math_sin Math_PI).

Lemma updateObstacles_in_flight (g : Game) :
  Forall in_flight (obstacles g) ->
  Forall in_flight (obstacles (updateObstacles random Math_PI g)).
Proof using random_range.
  intros Hg. unfold updateObstacles.
  pose proof (moveObstacles_in_flight (obstacles g) (score g) Hg) as Hmove.
  destruct (moveObstacles (obstacles g) (score g)) as [obs sc].
  cbn [fst] in Hmove.
  set (g2 := set_frameCount _ _).
  assert (Hg2 : obstacles g2 = obs) by reflexivity. clearbody g2.
  destruct (frameCount g2 mod obstacleSpawnRate =? 0)%Z.
  - destruct (createObstacle_appends random Math_PI random_range g2)
      as (batch & -> & _ & Hspawned & _).
    rewrite Hg2. apply Forall_app. split; [exact Hmove |].
    eapply Forall_impl; [exact Hspawned | apply spawned_in_flight].
  - rewrite Hg2. exact Hmove.
Qed.

Lemma checkCollision_in_flight (g : Game) :
  Forall in_flight (obstacles g) ->
  Forall in_flight
    (obstacles (snd (checkCollision random Math_cos Math_sin Math_PI g))).
Proof.
  intros Hg. unfold checkCollision.
  destruct (firstHit _ _ _) as [[i o] |]; [| exact Hg].
  destruct (Obstacle.isBonus o && Obstacle.hasTransformed o); [| exact Hg].
  cbn [snd obstacles set_obstacles createBonusEffect set_seed
       set_bonusParticles set_scoreFlashTime set_score].
  apply Forall_delete, Hg.
Qed.

Lemma gameLoop_in_flight (rect : DOMRect) (g : Game) :
  Forall in_flight (obstacles g) ->
  Forall in_flight (obstacles (gameLoop' rect g)).
Proof using random_range.
  intros Hg. destruct (gameOver g) eqn:Hover.
  - destruct (gameLoop_over random Math_cos Math_sin Math_PI rect g Hover)
      as (_ & _ & _ & ->).
    exact Hg.
  - rewrite gameLoop_running by exact Hover. unfold beforeCollision.
    set (g0 := updatePlayer rect (drawJungleBackground g)).
    assert (H0 : obstacles g0 = obstacles g) by reflexivity. clearbody g0.
    rewrite <- H0 in Hg. apply updateObstacles_in_flight in Hg.
    set (g1 := updateObstacles random Math_PI g0) in *. clearbody g1.
    change (obstacles g1) with (obstacles (updateBonusParticles g1)) in Hg.
    set (g2 := updateBonusParticles g1) in *. clearbody g2.
    apply checkCollision_in_flight in Hg.
    destruct (checkCollision random Math_cos Math_sin Math_PI g2)
      as [[|] g3]; cbn [snd] in Hg; cbv iota beta zeta.
    + unfold createExplosion.
      destruct (highScore (set_gameOver true g3)
                <? score (set_gameOver true g3))%Z;
        cbn [obstacles set_frameRequested set_seed set_explosionParticles
             set_savedHighScore set_highScore set_gameOver];
        exact Hg.
    + unfold drawScore. destruct (0 <? scoreFlashTime g3)%Z;
        cbn [obstacles set_frameRequested set_scoreFlashTime]; exact Hg.
Qed.

Lemma resetGame_in_flight (rect : DOMRect) (g : Game) :
  Forall in_flight
    (obstacles (resetGame random Math_cos Math_sin Math_PI rect g)).
Proof using random_range.
  unfold resetGame.
  assert (H : obstacles (resetState g) = []) by reflexivity.
  set (r := resetState g) in *. clearbody r.
  apply gameLoop_in_flight. rewrite H. constructor.
Qed.

(** In every reachable state, every obstacle is a spawned one aged by some
    number of frames. *)
Theorem reachable_in_flight (g : Game) :
  reachable random Math_cos Math_sin Math_PI g ->
  Forall in_flight (obstacles g).
Proof using random_range.
  induction 1 as [stored | rect g _ IH | k g _ IH | k g _ IH
                  | rect e g _ IH | rect e g _ IH | e g _ IH | g _ IH].
  - constructor.
  - apply gameLoop_in_flight, IH.
  - exact IH.
  - exact IH.
  - unfold on_click. destruct (clickResets rect e g);
      [apply resetGame_in_flight | exact IH].
  - unfold on_touchstart. destruct (gameOver g).
    + destruct (insideRestartButton _ _);
        [apply resetGame_in_flight | exact IH].
    + exact IH.
  - unfold on_touchmove. destruct (gameOver g); [exact IH |].
    destruct (isTouching g); exact IH.
  - unfold on_touchend. destruct (gameOver g); exact IH.
Qed.

End Reachability.

(** What the obstacles of a reachable state satisfy. *)
Corollary reachable_obstacle_inv (random : nat -> Q)
    (Math_cos Math_sin : Q -> Q) (Math_PI : Q) (g : Game) :
  (forall n : nat, 0 <= random n < 1) ->
  reachable random Math_cos Math_sin Math_PI g ->
  Forall obstacle_inv (obstacles g).
Proof.
  intros Hr Hg.
  eapply Forall_impl;
    [apply (reachable_in_flight random Math_cos Math_sin Math_PI Hr g Hg) |].
  intros o (o0 & n & Hs & ->). apply aged_inv, Hs.
Qed.

(** ** Scenarios for the lives of obstacles *)

Lemma fresh_bonus_spawned : spawned fresh_bonus.
Proof.
  exists 385, 3, true, false, 0. split; [reflexivity |].
  split; [lra | reflexivity].
Qed.

Lemma fresh_growing_spawned : spawned fresh_growing.
Proof.
  exists 385, 4, false, true, 0. split; [reflexivity |].
  split; [lra | reflexivity].
Qed.

Lemma fresh_plain_spawned : spawned fresh_plain.
Proof.
  exists 385, 3, false, false, 0. split; [reflexivity |].
  split; [lra | reflexivity].
Qed.

(** A bonus banana falling at speed 3 is unripe after 106 frames (y = 298)
    and ripe after 107 (y = 301). *)
Lemma bonus_transformed_iff_past_half_witness :
  Obstacle.hasTransformed (aged 106 fresh_bonus) = false
  /\ Obstacle.hasTransformed (aged 107 fresh_bonus) = true.
Proof.
  split.
  - apply (proj1 (bonus_transformed_iff_past_half fresh_bonus 106
                    fresh_bonus_spawned eq_refl)).
    apply Qltb_lt. vm_compute. reflexivity.
  - apply (proj1 (proj2 (bonus_transformed_iff_past_half fresh_bonus 107
                           fresh_bonus_spawned eq_refl))).
    apply Qleb_le. vm_compute. reflexivity.
Defined.

(** A growing banana falling at speed 4 transforms on frame 55 and is at
    its cap well before frame 200. *)
Lemma growing_scale_capped_and_monotone_witness :
  Obstacle.scale (aged 200 fresh_growing) <= 4.5
  /\ Obstacle.scale (aged 60 fresh_growing)
     <= Obstacle.scale (aged 61 fresh_growing).
Proof.
  split.
  - apply (proj1 (proj2 (growing_scale_capped_and_monotone fresh_growing 200
                           fresh_growing_spawned eq_refl))).
  - apply (proj2 (proj2 (growing_scale_capped_and_monotone fresh_growing 60
                           fresh_growing_spawned eq_refl))).
Defined.

Lemma plain_scale_fixed_hitbox_witness :
  Obstacle.scale (aged 150 fresh_plain) = 1.5
  /\ hb_width (obstacleHitbox (aged 150 fresh_plain)) == 29
  /\ hb_height (obstacleHitbox (aged 150 fresh_plain)) == 14.
Proof.
  destruct (plain_scale_fixed_hitbox fresh_plain 150 fresh_plain_spawned
              eq_refl) as (Hs & _ & _ & Hw & Hh & _).
  split; [exact Hs |]. split.
  - rewrite Hw. reflexivity.
  - rewrite Hh. reflexivity.
Defined.

(** * Further properties of the code *)

(** ** Keyboard and touch input *)

(** [keydown] and [keyup] of a key set and clear that key and leave every
    other key as it was. *)
Theorem keydown_keyup_round_trip (k k' : string) (g : Game) :
  key_down (keys (on_keydown k g)) k = true
  /\ key_down (keys (on_keyup k g)) k = false
  /\ key_down (keys (on_keyup k (on_keydown k g))) k = false
  /\ (k' <> k ->
      key_down (keys (on_keydown k g)) k' = key_down (keys g) k'
      /\ key_down (keys (on_keyup k g)) k' = key_down (keys g) k').
Proof.
  unfold on_keydown, on_keyup, key_down. cbn [keys set_keys].
  rewrite !lookup_insert_eq.
  repeat split; try reflexivity;
    rewrite lookup_insert_ne by congruence; reflexivity.
Qed.

Lemma Math_sign_cases (a : Q) :
  (0 < a /\ Math_sign a = 1)
  \/ (a < 0 /\ Math_sign a = -1)
  \/ (a == 0 /\ Math_sign a = 0).
Proof.
  unfold Math_sign. qcase.
  - left. split; [assumption | reflexivity].
  - right. left. split; [assumption | reflexivity].
  - right. right. split; [lra | reflexivity].
Qed.

Lemma Math_abs_gt (a b : Q) :
  0 <= b -> (b < Math_abs a <-> a < - b \/ b < a).
Proof.
  intros Hb. unfold Math_abs.
  destruct (Qlt_le_dec a 0) as [Hneg | Hpos].
  - rewrite Qabs_neg by lra. split; [intros H; left; lra |].
    intros [H | H]; lra.
  - rewrite Qabs_pos by exact Hpos. split; [intros H; right; exact H |].
    intros [H | H]; lra.
Qed.

(** The velocity [updatePlayer] leaves in [player.dx] is the player's
    speed to the left, the same to the right, or zero, whatever the keys
    and the touch state. *)
Theorem updatePlayer_velocity (rect : DOMRect) (g : Game) :
  Player.dx (player (updatePlayer rect g)) == - Player.speed (player g)
  \/ Player.dx (player (updatePlayer rect g)) == 0
  \/ Player.dx (player (updatePlayer rect g)) == Player.speed (player g).
Proof.
  unfold updatePlayer, movePlayer.
  cbn [player set_player Player.dx Player.set_x Player.set_animationFrame
       Player.set_dx].
  destruct (key_down (keys g) "ArrowLeft" || key_down (keys g) "a"
            || key_down (keys g) "A");
    destruct (key_down (keys g) "ArrowRight" || key_down (keys g) "d"
              || key_down (keys g) "D");
    destruct (isTouching g);
    try (left; reflexivity); try (right; left; reflexivity);
    try (right; right; reflexivity);
    destruct (Qltb 2 _);
    try (left; reflexivity); try (right; left; reflexivity);
    try (right; right; reflexivity);
    match goal with
    | |- context [Math_sign ?d] =>
        destruct (Math_sign_cases d) as [[_ ->] | [[_ ->] | [_ ->]]]
    end;
    solve [left; ring | right; left; ring | right; right; ring].
Qed.

(** With a right key held and no finger down the player is sent to the
    right, whether or not a left key is held too: the right test comes
    second and overwrites. *)
Theorem right_key_wins (rect : DOMRect) (g : Game) :
  key_down (keys g) "ArrowRight" || key_down (keys g) "d"
    || key_down (keys g) "D" = true ->
  isTouching g = false ->
  Player.dx (player (updatePlayer rect g)) = Player.speed (player g).
Proof.
  intros Hright Hidle. unfold updatePlayer, movePlayer.
  cbn [player set_player Player.dx Player.set_x Player.set_animationFrame
       Player.set_dx].
  rewrite Hright, Hidle. reflexivity.
Qed.

Lemma right_key_wins_witness :
  let g := on_keydown "d" (on_keydown "ArrowLeft" (initialGame None)) in
  Player.dx (player (updatePlayer sample_rect g)) = 6.
Proof.
  apply (right_key_wins sample_rect
           (on_keydown "d" (on_keydown "ArrowLeft" (initialGame None))));
    reflexivity.
Defined.

Lemma movePlayer_keeps (rect : DOMRect) (ks : gmap string bool)
    (touching : bool) (touchX : Q) (p : Player.t) :
  Player.speed (movePlayer rect ks touching touchX p) = Player.speed p
  /\ Player.width (movePlayer rect ks touching touchX p) = Player.width p
  /\ Player.height (movePlayer rect ks touching touchX p) = Player.height p
  /\ Player.y (movePlayer rect ks touching touchX p) = Player.y p.
Proof. repeat split; reflexivity. Qed.

(** With a finger down more than 2 away from where the player is, the
    player takes one step of its speed towards the finger. *)
Lemma movePlayer_follows_touch (rect : DOMRect) (ks : gmap string bool)
    (touchX : Q) (p : Player.t) :
  (2 < touchTarget rect touchX p - Player.x p ->
   0 <= Player.x p + Player.speed p ->
   Player.x p + Player.speed p + Player.width p <= canvas_width ->
   Player.x (movePlayer rect ks true touchX p) == Player.x p + Player.speed p)
  /\ (touchTarget rect touchX p - Player.x p < -2 ->
      0 <= Player.x p - Player.speed p ->
      Player.x p - Player.speed p + Player.width p <= canvas_width ->
      Player.x (movePlayer rect ks true touchX p)
      == Player.x p - Player.speed p).
Proof.
  unfold touchTarget, movePlayer.
  cbn [Player.x Player.set_x Player.set_animationFrame Player.set_dx
       Player.width Player.speed].
  set (t := (touchX - rect_left rect) / rect_width rect * canvas_width).
  clearbody t.
  set (d := t - Player.width p / 2 - Player.x p).
  pose proof (Math_abs_gt d 2 ltac:(lra)) as Habs.
  destruct (Qltb 2 (Math_abs d)) eqn:Hfar;
    [apply Qltb_lt in Hfar | apply Qltb_ge in Hfar].
  - destruct (Math_sign_cases d) as [[Hs ->] | [[Hs ->] | [Hs ->]]];
      unfold d in *; split; intros H1 H2 H3; qcase; qlra.
  - split; intros H1 H2 H3; exfalso; apply (Qle_not_lt _ _ Hfar);
      apply Habs; unfold d; [right | left]; lra.
Qed.

(** The touch control can jitter.  With a finger down between 2 and 4 to
    the right of the player (speed 6, away from the walls), one frame takes
    the player 6 to the right, past the finger, and the next frame takes it
    back to where it was: it never settles. *)
Theorem touch_follow_oscillates (rect : DOMRect) (g : Game) :
  isTouching g = true ->
  Player.speed (player g) == 6 ->
  Player.width (player g) == 70 ->
  2 < touchTarget rect (touchCurrentX g) (player g) - Player.x (player g) ->
  touchTarget rect (touchCurrentX g) (player g) - Player.x (player g) < 4 ->
  0 <= Player.x (player g) ->
  Player.x (player g) + 6 <= canvas_width - 70 ->
  Player.x (player (updatePlayer rect g)) == Player.x (player g) + 6
  /\ Player.x (player (updatePlayer rect (updatePlayer rect g)))
     == Player.x (player g).
Proof.
  intros Htouch Hspeed Hwidth Hlo Hhi Hx0 Hx1.
  unfold updatePlayer at 1 3.
  cbn [player set_player keys isTouching touchCurrentX].
  rewrite Htouch.
  set (p := player g) in *. set (tx := touchCurrentX g) in *.
  set (ks := keys g).
  destruct (movePlayer_follows_touch rect ks tx p) as [Hright _].
  assert (H1 : Player.x (movePlayer rect ks true tx p) == Player.x p + 6).
  { rewrite Hright; [lra | exact Hlo | qlra | qlra]. }
  split; [exact H1 |].
  unfold updatePlayer. cbn [player set_player keys isTouching touchCurrentX].
  rewrite Htouch. fold p tx ks.
  set (p1 := movePlayer rect ks true tx p) in *.
  destruct (movePlayer_keeps rect ks true tx p) as (Hsp & Hw & _).
  fold p1 in Hsp, Hw.
  assert (Htarget : touchTarget rect tx p1 = touchTarget rect tx p).
  { unfold touchTarget. rewrite Hw. reflexivity. }
  destruct (movePlayer_follows_touch rect ks tx p1) as [_ Hleft].
  rewrite Hleft; rewrite ?Htarget, ?Hsp, ?Hw; qlra.
Qed.

Lemma touch_follow_oscillates_witness :
  let g := set_touch 403 403 true (initialGame None) in
  Player.x (player (updatePlayer sample_rect g)) == 371
  /\ Player.x (player (updatePlayer sample_rect (updatePlayer sample_rect g)))
     == 365.
Proof.
  cbv zeta.
  destruct (touch_follow_oscillates sample_rect
              (set_touch 403 403 true (initialGame None))) as [H1 H2];
    [ reflexivity | reflexivity | reflexivity | reflexivity | reflexivity
    | apply Qle_bool_iff; reflexivity | apply Qle_bool_iff; reflexivity | ].
  split; [rewrite H1 | rewrite H2]; reflexivity.
Defined.

(** ** Presentation *)

(** With exact numbers, for a window of positive size [resizeCanvas]
    gives the canvas a size that fits in the window, fills it in one
    direction, and is exactly 4 : 3. *)
Lemma resizeCanvas_exact (width height : Q) :
  0 < width ->
  0 < height ->
  let '(w, h) := resizeCanvas width height in
  0 < w /\ w <= width /\ 0 < h /\ h <= height
  /\ w * 3 == h * 4
  /\ (w == width \/ h == height).
Proof.
  intros Hw Hh. unfold resizeCanvas. cbv zeta.
  assert (Hratio : width == width / height * height)
    by (field; lra).
  set (r := width / height) in *. clearbody r.
  destruct (Qltb (4 / 3) r) eqn:Hwide;
    [apply Qltb_lt in Hwide | apply Qltb_ge in Hwide].
  - assert (Hprod : 4 / 3 * height < r * height)
      by (apply Qmult_lt_compat_r; assumption).
    repeat split; qlra.
  - assert (Hprod : r * height <= 4 / 3 * height)
      by (apply Qmult_le_compat_r; [assumption | lra]).
    assert (Hdiv : width / (4 / 3) == width * (3 # 4)) by (field; lra).
    rewrite Hdiv. repeat split; qlra.
Qed.

(** [window.innerWidth] and [window.innerHeight] are positive 32-bit
    integers.  For such a window [resizeCanvas] gives the canvas a size
    that fits in the window, fills it in one direction, and is 4 : 3 to
    within a thousandth of a pixel ([3 w] and [4 h] differ by at most
    0.001).  The ratio is exact with exact numbers; the product
    [height * (4 / 3)] and the quotient [width / (4 / 3)] the page computes
    are rounded, which the margin covers for sizes in this range. *)
Theorem resizeCanvas_fits (innerWidth innerHeight : Z) :
  (0 < innerWidth <= 2147483647)%Z ->
  (0 < innerHeight <= 2147483647)%Z ->
  let '(w, h) :=
    resizeCanvas (inject_Z innerWidth) (inject_Z innerHeight) in
  0 < w /\ w <= inject_Z innerWidth
  /\ 0 < h /\ h <= inject_Z innerHeight
  /\ (w == inject_Z innerWidth \/ h == inject_Z innerHeight)
  /\ Qabs (w * 3 - h * 4) <= 0.001.
Proof.
  intros [HW _] [HH _].
  assert (Hw : 0 < inject_Z innerWidth)
    by (change 0 with (inject_Z 0); rewrite <- Zlt_Qlt; exact HW).
  assert (Hh : 0 < inject_Z innerHeight)
    by (change 0 with (inject_Z 0); rewrite <- Zlt_Qlt; exact HH).
  pose proof (resizeCanvas_exact _ _ Hw Hh) as Hexact.
  destruct (resizeCanvas (inject_Z innerWidth) (inject_Z innerHeight))
    as [w h].
  destruct Hexact as (H1 & H2 & H3 & H4 & Hratio & Hfill).
  split; [exact H1 |]. split; [exact H2 |]. split; [exact H3 |].
  split; [exact H4 |]. split; [exact Hfill |].
  apply Qabs_case; intros _; lra.
Qed.

(** A tall phone window: the canvas takes the full width. *)
Lemma resizeCanvas_fits_witness :
  let '(w, h) := resizeCanvas (inject_Z 400) (inject_Z 900) in
  0 < w /\ w <= inject_Z 400 /\ 0 < h /\ h <= inject_Z 900
  /\ (w == inject_Z 400 \/ h == inject_Z 900)
  /\ Qabs (w * 3 - h * 4) <= 0.001.
Proof.
  apply (resizeCanvas_fits 400 900); lia.
Defined.

(** The hit test of the click and touch listeners accepts exactly the
    points of the rectangle [drawRestartButton] paints, edges included:
    x from 275 to 525 and y from 360 to 420. *)
Theorem restart_hit_test_is_drawn_button (px py : Q) :
  (insideRestartButton px py = true <->
   hb_x drawRestartButton <= px
   /\ px <= hb_x drawRestartButton + hb_width drawRestartButton
   /\ hb_y drawRestartButton <= py
   /\ py <= hb_y drawRestartButton + hb_height drawRestartButton)
  /\ (insideRestartButton px py = true <->
      275 <= px <= 525 /\ 360 <= py <= 420).
Proof.
  unfold insideRestartButton, drawRestartButton.
  cbn [hb_x hb_y hb_width hb_height]. cbv zeta.
  rewrite !andb_true_iff, !Qleb_le.
  split; split; intros H; repeat split; qlra.
Qed.

Lemma insideRestartButton_compat (a b c d : Q) :
  a == c -> b == d -> insideRestartButton a b = insideRestartButton c d.
Proof.
  intros Hac Hbd. unfold insideRestartButton. cbv zeta.
  unfold Qleb. rewrite Hac, Hbd. reflexivity.
Qed.

Lemma insideRestartButton_iff (px py : Q) :
  insideRestartButton px py = true <->
  275 <= px <= 525 /\ 360 <= py <= 420.
Proof.
  unfold insideRestartButton. cbv zeta.
  rewrite !andb_true_iff, !Qleb_le.
  split; intros H; repeat split; qlra.
Qed.

(** The listeners get the canvas point by multiplying the pointer's offset
    by the ratio of the canvas size to the displayed size; with exact
    numbers that is the point shown under the pointer. *)
Lemma toCanvas_shown (rect : DOMRect) (e : Pointer) :
  0 < rect_width rect ->
  0 < rect_height rect ->
  toCanvasX rect e == shownX rect e /\ toCanvasY rect e == shownY rect e.
Proof.
  intros Hw Hh. unfold toCanvasX, toCanvasY, shownX, shownY.
  split; field; lra.
Qed.

(** The listeners undo the display scaling.  For a canvas displayed at
    least one pixel wide and high, anywhere on the page, a click or a
    touch that is shown at least one canvas unit inside the restart
    rectangle restarts the game exactly when the game is over, and one
    shown at least one unit outside it never does: away from the edge of
    the rectangle the decision does not depend on how large the canvas is
    displayed.  (On the edge itself the rounding of the scaled coordinates
    decides, which is why the band of one unit is left out.) *)
Theorem click_is_independent_of_display_size (rect : DOMRect) (e : Pointer)
    (g : Game) :
  1 <= rect_width rect ->
  1 <= rect_height rect ->
  (276 <= shownX rect e <= 524 ->
   361 <= shownY rect e <= 419 ->
   clickResets rect e g = gameOver g /\ touchResets rect e g = gameOver g)
  /\ (shownX rect e <= 274 \/ 526 <= shownX rect e
      \/ shownY rect e <= 359 \/ 421 <= shownY rect e ->
      clickResets rect e g = false /\ touchResets rect e g = false).
Proof.
  intros Hw Hh.
  destruct (toCanvas_shown rect e) as [Hx Hy]; [lra | lra |].
  unfold clickResets, touchResets.
  rewrite (insideRestartButton_compat _ _ _ _ Hx Hy).
  set (px := shownX rect e). set (py := shownY rect e).
  clearbody px py. split.
  - intros Hpx Hpy.
    assert (Hin : insideRestartButton px py = true)
      by (apply insideRestartButton_iff; lra).
    rewrite Hin. destruct (gameOver g); split; reflexivity.
  - intros Hout.
    assert (Hnot : insideRestartButton px py = false).
    { destruct (insideRestartButton px py) eqn:Hin; [| reflexivity].
      apply insideRestartButton_iff in Hin.
      destruct Hout as [H | [H | [H | H]]]; lra. }
    rewrite Hnot. destruct (gameOver g); split; reflexivity.
Qed.

(** A canvas displayed at 400 by 300, offset on the page, and a click in
    the middle of the button as displayed. *)
Lemma click_is_independent_of_display_size_witness :
  let rect := {| rect_left := 20; rect_top := 50;
                 rect_width := 400; rect_height := 300 |} in
  let e := {| clientX := 220; clientY := 245 |} in
  clickResets rect e exploding_game = true
  /\ touchResets rect e exploding_game = true.
Proof.
  cbv zeta.
  destruct (click_is_independent_of_display_size
              {| rect_left := 20; rect_top := 50;
                 rect_width := 400; rect_height := 300 |}
              {| clientX := 220; clientY := 245 |} exploding_game)
    as [Hin _]; [vm_compute; discriminate | vm_compute; discriminate |].
  destruct Hin as [Hclick Htouch];
    [split; vm_compute; discriminate | split; vm_compute; discriminate |].
  rewrite Hclick, Htouch. split; vm_compute; reflexivity.
Defined.

(** ** Particles *)

Lemma moveDebris_ok (ps : list Debris.t) :
  Forall (fun p => 0 <= Debris.decay p) ps ->
  Forall (fun p => Debris.life p <= 1) ps ->
  Forall (fun p => 0 < Debris.life p <= 1) (moveDebris ps).
Proof.
  induction ps as [| p ps IH]; intros Hd Hl; [constructor |].
  apply Forall_cons in Hd. destruct Hd as [Hd Hds].
  apply Forall_cons in Hl. destruct Hl as [Hl Hls].
  cbn [moveDebris].
  destruct (Qleb (Debris.life (stepDebris p)) 0) eqn:Hdead;
    [apply IH; assumption |].
  apply Qleb_gt in Hdead. constructor; [| apply IH; assumption].
  cbn [stepDebris Debris.life] in *. lra.
Qed.

Lemma moveDebris_decay (P : Q -> Prop) (ps : list Debris.t) :
  Forall (fun p => P (Debris.decay p)) ps ->
  Forall (fun p => P (Debris.decay p)) (moveDebris ps).
Proof.
  induction 1 as [| p ps Hp Hps IH]; [constructor |].
  cbn [moveDebris].
  destruct (Qleb (Debris.life (stepDebris p)) 0); [exact IH |].
  constructor; [exact Hp | exact IH].
Qed.

Lemma moveDebris_keeps_ok (ps : list Debris.t) :
  Forall debris_ok ps -> Forall debris_ok (moveDebris ps).
Proof.
  intros H.
  assert (Hlife : Forall (fun p => 0 < Debris.life p <= 1) (moveDebris ps)).
  { apply moveDebris_ok; eapply Forall_impl; try exact H;
      intros p [[_ Hl] Hd]; cbn; lra. }
  assert (Hdecay : Forall (fun p => 0.01 <= Debris.decay p) (moveDebris ps)).
  { apply (moveDebris_decay (fun d => 0.01 <= d)).
    eapply Forall_impl; [exact H |]. intros p [_ Hd]. exact Hd. }
  clear H. induction Hlife as [| p qs Hp Hqs IH]; [constructor |].
  apply Forall_cons in Hdecay. destruct Hdecay as [Hd Hds].
  constructor; [split; assumption | apply IH, Hds].
Qed.

Lemma moveSparkles_keeps_ok (ps : list Sparkle.t) :
  Forall sparkle_ok ps -> Forall sparkle_ok (moveSparkles ps).
Proof.
  induction 1 as [| p ps [[Hpos Hle] Hd] Hps IH]; [constructor |].
  cbn [moveSparkles].
  destruct (Qleb (Sparkle.life (stepSparkle p)) 0) eqn:Hdead; [exact IH |].
  apply Qleb_gt in Hdead. constructor; [| exact IH].
  unfold sparkle_ok. cbn [stepSparkle Sparkle.life Sparkle.decay] in *. lra.
Qed.

(** A particle whose life is at most [n] decays is gone after [n]
    updates. *)
Lemma moveDebris_burns_out (n : nat) (ps : list Debris.t) :
  Forall (fun p => 0 <= Debris.decay p
                   /\ Debris.life p <= inject_Z (Z.of_nat (S n)) * Debris.decay p)
    ps ->
  Nat.iter (S n) moveDebris ps = [].
Proof.
  revert ps. induction n as [| n IH]; intros ps H.
  - cbn [Nat.iter nat_rect]. induction H as [| p ps [Hd Hl] Hps IHps];
      [reflexivity |].
    cbn [moveDebris]. rewrite IHps.
    destruct (Qleb (Debris.life (stepDebris p)) 0) eqn:Hdead; [reflexivity |].
    apply Qleb_gt in Hdead. cbn [stepDebris Debris.life] in Hdead.
    change (inject_Z (Z.of_nat 1)) with 1 in Hl. lra.
  - rewrite Nat.iter_succ_r. apply IH.
    induction H as [| p ps [Hd Hl] Hps IHps]; [constructor |].
    cbn [moveDebris].
    destruct (Qleb (Debris.life (stepDebris p)) 0); [exact IHps |].
    constructor; [| exact IHps].
    cbn [stepDebris Debris.life Debris.decay]. split; [exact Hd |].
    rewrite Nat2Z.inj_succ in Hl. unfold Z.succ in Hl.
    rewrite inject_Z_plus in Hl. change (inject_Z 1) with 1 in Hl. lra.
Qed.

Lemma moveSparkles_burns_out (n : nat) (ps : list Sparkle.t) :
  Forall (fun p => 0 <= Sparkle.decay p
                   /\ Sparkle.life p
                      <= inject_Z (Z.of_nat (S n)) * Sparkle.decay p) ps ->
  Nat.iter (S n) moveSparkles ps = [].
Proof.
  revert ps. induction n as [| n IH]; intros ps H.
  - cbn [Nat.iter nat_rect]. induction H as [| p ps [Hd Hl] Hps IHps];
      [reflexivity |].
    cbn [moveSparkles]. rewrite IHps.
    destruct (Qleb (Sparkle.life (stepSparkle p)) 0) eqn:Hdead;
      [reflexivity |].
    apply Qleb_gt in Hdead. cbn [stepSparkle Sparkle.life] in Hdead.
    change (inject_Z (Z.of_nat 1)) with 1 in Hl. lra.
  - rewrite Nat.iter_succ_r. apply IH.
    induction H as [| p ps [Hd Hl] Hps IHps]; [constructor |].
    cbn [moveSparkles].
    destruct (Qleb (Sparkle.life (stepSparkle p)) 0); [exact IHps |].
    constructor; [| exact IHps].
    cbn [stepSparkle Sparkle.life Sparkle.decay]. split; [exact Hd |].
    rewrite Nat2Z.inj_succ in Hl. unfold Z.succ in Hl.
    rewrite inject_Z_plus in Hl. change (inject_Z 1) with 1 in Hl. lra.
Qed.

Section Bursts.

Variable random : nat -> Q.
Variables Math_cos Math_sin : Q -> Q.
Variable Math_PI : Q.
Hypothesis random_range : forall n : nat, 0 <= random n < 1.

(** [Math.floor(Math.random() * n)] is a valid index of an array of
    length [n]. *)
Lemma random_index_in_range (s n : nat) :
  (0 < n)%nat ->
  (Z.to_nat (Math_floor (random s * inject_Z (Z.of_nat n))) < n)%nat.
Proof using random_range.
  intros Hn. pose proof (random_range s) as Hr. unfold Math_floor.
  assert (Hpos : 0 < inject_Z (Z.of_nat n)).
  { change 0 with (inject_Z 0). rewrite <- Zlt_Qlt. lia. }
  assert (Hlo : (0 <= Qfloor (random s * inject_Z (Z.of_nat n)))%Z).
  { change 0%Z with (Qfloor 0). apply Qfloor_resp_le.
    apply Qmult_le_0_compat; lra. }
  assert (Hhi : (Qfloor (random s * inject_Z (Z.of_nat n)) < Z.of_nat n)%Z).
  { rewrite Zlt_Qlt.
    apply Qle_lt_trans with (random s * inject_Z (Z.of_nat n)).
    - apply Qfloor_le.
    - apply Qlt_le_trans with (1 * inject_Z (Z.of_nat n)).
      + apply Qmult_lt_compat_r; lra.
      + rewrite Qmult_1_l. apply Qle_refl. }
  lia.
Qed.

Lemma fireBurst_spec (count : nat) (x y : Q) (s : nat) :
  length (fireBurst random Math_cos Math_sin Math_PI count x y s) = count
  /\ Forall
       (fun p => Debris.x p = x /\ Debris.y p = y
                 /\ Debris.life p == 1
                 /\ 0.015 <= Debris.decay p < 0.03
                 /\ 2 <= Debris.size p < 8
                 /\ Debris.isSmoke p = false
                 /\ In (Debris.color p) explosionColors)
       (fireBurst random Math_cos Math_sin Math_PI count x y s).
Proof using random_range.
  revert s. induction count as [| count IH]; intros s.
  - split; [reflexivity | constructor].
  - destruct (IH (s + 5)%nat) as [Hlen Hall].
    cbn [fireBurst]. cbv zeta. split; [cbn [length]; congruence |].
    constructor; [| exact Hall].
    pose proof (random_range (s + 2)) as Hsize.
    pose proof (random_range (s + 4)) as Hdecay.
    cbn [Debris.x Debris.y Debris.life Debris.decay Debris.size
         Debris.isSmoke Debris.color].
    repeat split; try reflexivity; try lra.
    apply nth_In.
    apply (random_index_in_range (s + 3) (length explosionColors)).
    cbn. lia.
Qed.

Lemma smokeBurst_spec (count : nat) (x y : Q) (s : nat) :
  length (smokeBurst random Math_cos Math_sin Math_PI count x y s) = count
  /\ Forall
       (fun p => Debris.x p = x /\ Debris.y p = y
                 /\ Debris.life p == 1
                 /\ 0.01 <= Debris.decay p < 0.02
                 /\ 4 <= Debris.size p < 12
                 /\ Debris.isSmoke p = true
                 /\ Debris.color p = "#333333")
       (smokeBurst random Math_cos Math_sin Math_PI count x y s).
Proof using random_range.
  revert s. induction count as [| count IH]; intros s.
  - split; [reflexivity | constructor].
  - destruct (IH (s + 4)%nat) as [Hlen Hall].
    cbn [smokeBurst]. cbv zeta. split; [cbn [length]; congruence |].
    constructor; [| exact Hall].
    pose proof (random_range (s + 2)) as Hsize.
    pose proof (random_range (s + 3)) as Hdecay.
    cbn [Debris.x Debris.y Debris.life Debris.decay Debris.size
         Debris.isSmoke Debris.color].
    repeat split; try reflexivity; lra.
Qed.

Lemma bonusBurst_spec (count : nat) (x y : Q) (s : nat) :
  length (bonusBurst random Math_cos Math_sin Math_PI count x y s) = count
  /\ Forall
       (fun p => Sparkle.x p = x /\ Sparkle.y p = y
                 /\ Sparkle.life p == 1
                 /\ 0.02 <= Sparkle.decay p < 0.05
                 /\ 2 <= Sparkle.size p < 6
                 /\ (Sparkle.color p = "#FFD700"
                     \/ Sparkle.color p = "#FFA500"))
       (bonusBurst random Math_cos Math_sin Math_PI count x y s).
Proof using random_range.
  revert s. induction count as [| count IH]; intros s.
  - split; [reflexivity | constructor].
  - destruct (IH (s + 5)%nat) as [Hlen Hall].
    cbn [bonusBurst]. cbv zeta. split; [cbn [length]; congruence |].
    constructor; [| exact Hall].
    pose proof (random_range (s + 2)) as Hsize.
    pose proof (random_range (s + 3)) as Hdecay.
    cbn [Sparkle.x Sparkle.y Sparkle.life Sparkle.decay Sparkle.size
         Sparkle.color].
    repeat split; try reflexivity; try lra.
    destruct (Qltb 0.5 (random (s + 4))); [left | right]; reflexivity.
Qed.

(** [createExplosion] appends 80 particles to [explosionParticles], 60 of
    fire and then 20 of smoke, all at the point given and with life 1.
    Fire decays by 0.015 to 0.03 a frame, has a size of 2 to 8 and takes
    its colour from the palette of seven (the random index is always in
    range); smoke decays by 0.01 to 0.02, has a size of 4 to 12 and is
    grey.  The bounds are closed at both ends: the upper ends are not
    reached by exact numbers, but rounding can reach them. *)
Theorem createExplosion_burst (x y : Q) (g : Game) :
  exists fire smoke : list Debris.t,
    explosionParticles
      (createExplosion random Math_cos Math_sin Math_PI x y g)
    = explosionParticles g ++ fire ++ smoke
    /\ length fire = 60%nat /\ length smoke = 20%nat
    /\ Forall
         (fun p => Debris.x p = x /\ Debris.y p = y
                   /\ Debris.life p == 1
                   /\ 0.015 <= Debris.decay p <= 0.03
                   /\ 2 <= Debris.size p <= 8
                   /\ Debris.isSmoke p = false
                   /\ In (Debris.color p) explosionColors) fire
    /\ Forall
         (fun p => Debris.x p = x /\ Debris.y p = y
                   /\ Debris.life p == 1
                   /\ 0.01 <= Debris.decay p <= 0.02
                   /\ 4 <= Debris.size p <= 12
                   /\ Debris.isSmoke p = true
                   /\ Debris.color p = "#333333") smoke.
Proof using random_range.
  destruct (fireBurst_spec 60 x y (seed g)) as [Hflen Hfire].
  destruct (smokeBurst_spec 20 x y (seed g + 5 * 60)) as [Hslen Hsmoke].
  eexists. eexists. split; [reflexivity |].
  split; [exact Hflen |]. split; [exact Hslen |]. split.
  - revert Hfire. apply List.Forall_impl.
    intros p (Hx & Hy & Hl & Hd & Hs & Hk & Hc).
    split; [exact Hx |]. split; [exact Hy |]. split; [exact Hl |].
    split; [lra |]. split; [lra |]. split; [exact Hk | exact Hc].
  - revert Hsmoke. apply List.Forall_impl.
    intros p (Hx & Hy & Hl & Hd & Hs & Hk & Hc).
    split; [exact Hx |]. split; [exact Hy |]. split; [exact Hl |].
    split; [lra |]. split; [lra |]. split; [exact Hk | exact Hc].
Qed.

(** [createBonusEffect] appends 20 sparkles at the point given, with life
    1, a decay of 0.02 to 0.05 a frame, a size of 2 to 6, and gold or
    orange.  The bounds are closed at both ends: the upper ends are not
    reached by exact numbers, but rounding can reach them. *)
Theorem createBonusEffect_burst (x y : Q) (g : Game) :
  exists burst : list Sparkle.t,
    bonusParticles
      (createBonusEffect random Math_cos Math_sin Math_PI x y g)
    = bonusParticles g ++ burst
    /\ length burst = 20%nat
    /\ Forall
         (fun p => Sparkle.x p = x /\ Sparkle.y p = y
                   /\ Sparkle.life p == 1
                   /\ 0.02 <= Sparkle.decay p <= 0.05
                   /\ 2 <= Sparkle.size p <= 6
                   /\ (Sparkle.color p = "#FFD700"
                       \/ Sparkle.color p = "#FFA500")) burst.
Proof using random_range.
  destruct (bonusBurst_spec 20 x y (seed g)) as [Hlen Hall].
  eexists. split; [reflexivity |]. split; [exact Hlen |].
  revert Hall. apply List.Forall_impl.
  intros p (Hx & Hy & Hl & Hd & Hs & Hc).
  split; [exact Hx |]. split; [exact Hy |]. split; [exact Hl |].
  split; [lra |]. split; [lra | exact Hc].
Qed.

End Bursts.

(** ** Spawning and leaving *)

(** The update loop as a whole: every obstacle takes its step, those past
    the bottom edge go, each of them scoring 10, and the others keep their
    order. *)
Lemma moveObstacles_account (obs : list Obstacle.t) (sc : Z) :
  fst (moveObstacles obs sc)
  = List.filter (fun o => negb (Qltb canvas_height (Obstacle.y o)))
      (map stepObstacle obs)
  /\ snd (moveObstacles obs sc)
     = (sc + 10 * Z.of_nat
                  (length (List.filter
                             (fun o => Qltb canvas_height
                                         (Obstacle.y o + Obstacle.speed o))
                             obs)))%Z.
Proof.
  induction obs as [| o obs [IHf IHs]]; [split; cbn; [reflexivity | lia] |].
  cbn [moveObstacles map List.filter].
  destruct (moveObstacles obs sc) as [rest' sc']. cbn [fst snd] in *.
  rewrite <- (stepObstacle_y o).
  destruct (Qltb canvas_height (Obstacle.y (stepObstacle o)));
    cbn [negb fst snd length]; split; try congruence; lia.
Qed.

Lemma updateObstacles_score (random : nat -> Q) (Math_PI : Q)
    (g : Game) :
  score (updateObstacles random Math_PI g)
  = (score g
     + 10 * Z.of_nat
              (length (List.filter
                         (fun o => Qltb canvas_height
                                     (Obstacle.y o + Obstacle.speed o))
                         (obstacles g))))%Z.
Proof.
  unfold updateObstacles.
  destruct (moveObstacles_account (obstacles g) (score g)) as [_ Hs].
  destruct (moveObstacles (obstacles g) (score g)) as [obs sc].
  cbn [snd] in Hs. subst sc.
  set (g2 := set_frameCount _ _).
  assert (H2 : score g2
               = (score g
                  + 10 * Z.of_nat
                           (length (List.filter
                                      (fun o => Qltb canvas_height
                                                  (Obstacle.y o + Obstacle.speed o))
                                      (obstacles g))))%Z) by reflexivity.
  clearbody g2.
  destruct (frameCount g2 mod obstacleSpawnRate =? 0)%Z; [| exact H2].
  unfold createObstacle.
  destruct (placedBatch random Math_PI (obstacles g2) (seed g2))
    as [[ps obs'] s'].
  destruct (ensureGap random (-20) 70 ps obs' s') as [obs'' s''].
  exact H2.
Qed.

(** [updateObstacles] adds to the score exactly 10 for each obstacle whose
    step takes it below the bottom edge ([y + speed > 600]), on every
    frame, spawning or not. *)
Theorem updateObstacles_scores_ten_per_exit (random : nat -> Q) (Math_PI : Q)
    (g : Game) :
  score (updateObstacles random Math_PI g)
  = (score g
     + 10 * Z.of_nat
              (length (List.filter
                         (fun o => Qltb canvas_height
                                     (Obstacle.y o + Obstacle.speed o))
                         (obstacles g))))%Z.
Proof. apply updateObstacles_score. Qed.

Section Spawning.

Variable random : nat -> Q.
Variable Math_PI : Q.
Hypothesis random_range : forall n : nat, 0 <= random n < 1.

(** The first candidate of a call has nothing to collide with, so it is
    placed at its first attempt: a call never places nothing. *)
Lemma placedBatch_nonempty (obs : list Obstacle.t) (s : nat) :
  fst (fst (placedBatch random Math_PI obs s)) <> [].
Proof using random_range.
  unfold placedBatch. cbv zeta.
  assert (Hfirst : exists pos o s1,
            placeBanana random Math_PI 20 (-20) 70 [] obs (S s)
            = ([pos], obs ++ [o], s1)).
  { cbn [placeBanana validPosition]. cbv zeta.
    destruct (Qltb (random (S s + 2)) 0.2); eexists; eexists; eexists;
      reflexivity. }
  destruct Hfirst as (pos & o & s1 & Hfirst).
  destruct (numBananas_range random random_range s) as [-> | ->];
    cbn [placeBananas]; rewrite Hfirst.
  - cbn [fst]. discriminate.
  - pose proof (placeBanana_spec random Math_PI random_range 20 70 [pos]
                  (obs ++ [o]) s1) as H2.
    destruct (placeBanana random Math_PI 20 (-20) 70 [pos] (obs ++ [o]) s1)
      as [[ps2 obs2] s2].
    cbn [fst].
    destruct H2 as [[-> _] | (pos2 & o2 & -> & _)]; discriminate.
Qed.

(** A call of [createObstacle] appends one or two bananas to [obstacles]
    and removes none.  Each new banana is on the spawn row [y = -20], 30
    by 20, at an [x] in [0, 770), untransformed, at scale 1.5, with a speed
    of 2 to 5 (the upper end is not reached by exact numbers, but rounding
    can reach it), and not both bonus and growing.  Nothing but
    [obstacles] and the count of random draws changes. *)
Theorem createObstacle_adds_one_or_two (g : Game) :
  exists batch : list Obstacle.t,
    obstacles (createObstacle random Math_PI g) = obstacles g ++ batch
    /\ (length batch = 1%nat \/ length batch = 2%nat)
    /\ Forall
         (fun o =>
            Obstacle.y o = -20 /\ Obstacle.width o = 30
            /\ Obstacle.height o = 20
            /\ 0 <= Obstacle.x o < canvas_width - 30
            /\ Obstacle.hasTransformed o = false
            /\ Obstacle.scale o = 1.5
            /\ 2 <= Obstacle.speed o <= 5
            /\ Obstacle.originalSpeed o = Obstacle.speed o
            /\ Obstacle.isBonus o && Obstacle.isGrowing o = false) batch
    /\ score (createObstacle random Math_PI g) = score g
    /\ player (createObstacle random Math_PI g) = player g
    /\ frameCount (createObstacle random Math_PI g) = frameCount g.
Proof using random_range.
  destruct (createObstacle_appends random Math_PI random_range g)
    as (batch & Happ & Hplaced & Hspawned & Hlen).
  pose proof (placedBatch_nonempty (obstacles g) (seed g)) as Hne.
  exists batch. split; [exact Happ |]. split.
  { pose proof (Forall2_length _ _ _ Hplaced) as Hl.
    destruct (fst (fst (placedBatch random Math_PI (obstacles g) (seed g))))
      as [| p ps]; [congruence |].
    cbn [length] in Hl. lia. }
  split.
  { clear Happ Hlen Hne.
    induction Hplaced as [| pos o ps b Hp Hps IH]; [constructor |].
    apply Forall_cons in Hspawned. destruct Hspawned as [Hs Hss].
    constructor; [| apply IH, Hss].
    destruct Hp as (Hx & _ & _ & Hrange & _).
    destruct Hs as (x & sp & bo & gr & rot & -> & Hsp & Hex).
    cbn in *. subst x.
    repeat split; try reflexivity; try assumption; lra. }
  unfold createObstacle.
  destruct (placedBatch random Math_PI (obstacles g) (seed g))
    as [[ps obs'] s'].
  destruct (ensureGap random (-20) 70 ps obs' s') as [obs'' s''].
  repeat split; reflexivity.
Qed.

(** What the validity scan accepts: a candidate that overlaps none of the
    positions already taken and whose gap to each of them, where there is
    one, is at least [minGap].  A candidate that touches a taken position
    (gap 0) passes. *)
Lemma validPosition_iff (x width minGap : Q) (positions : list Position.t) :
  validPosition x width minGap positions = true <->
  Forall
    (fun pos =>
       (x + width <= Position.x pos
        \/ Position.x pos + Position.width pos <= x)
       /\ (0 < x - (Position.x pos + Position.width pos) ->
           minGap <= x - (Position.x pos + Position.width pos))
       /\ (0 < Position.x pos - (x + width) ->
           minGap <= Position.x pos - (x + width)))
    positions.
Proof.
  induction positions as [| pos ps IH].
  - split; [constructor | reflexivity].
  - cbn [validPosition]. cbv zeta. rewrite Forall_cons, <- IH. clear IH.
    destruct (Qltb x (Position.x pos + Position.width pos)) eqn:H1;
      [apply Qltb_lt in H1 | apply Qltb_ge in H1];
      destruct (Qltb (Position.x pos) (x + width)) eqn:H2;
      [apply Qltb_lt in H2 | apply Qltb_ge in H2 | apply Qltb_lt in H2
       | apply Qltb_ge in H2];
      cbn [andb];
      try (split; [discriminate | intros [[[H | H] _] _]; lra]).
    all: destruct (Qltb 0 (x - (Position.x pos + Position.width pos))) eqn:H3;
      [apply Qltb_lt in H3 | apply Qltb_ge in H3];
      destruct (Qltb (x - (Position.x pos + Position.width pos)) minGap) eqn:H4;
      [apply Qltb_lt in H4 | apply Qltb_ge in H4 | apply Qltb_lt in H4
       | apply Qltb_ge in H4];
      destruct (Qltb 0 (Position.x pos - (x + width))) eqn:H5;
      [apply Qltb_lt in H5 | apply Qltb_ge in H5 | apply Qltb_lt in H5
       | apply Qltb_ge in H5 | apply Qltb_lt in H5 | apply Qltb_ge in H5
       | apply Qltb_lt in H5 | apply Qltb_ge in H5];
      destruct (Qltb (Position.x pos - (x + width)) minGap) eqn:H6;
      cbn [andb orb];
      try (apply Qltb_lt in H6); try (apply Qltb_ge in H6);
      try (split; [discriminate | intros [(_ & Ha & Hb) _]; lra]);
      (split; [intros Hv; split; [| exact Hv];
               repeat split; intros; lra
              | intros [_ Hv]; exact Hv]).
Qed.

(** The attempt loop pushes only a candidate that passed the scan. *)
Lemma placeBanana_valid (attempts : nat) (minGap : Q)
    (positions : list Position.t) (obs : list Obstacle.t) (s : nat) :
  let '(positions', _, _) :=
    placeBanana random Math_PI attempts (-20) minGap positions obs s in
  positions' = positions
  \/ (exists pos,
        positions' = positions ++ [pos]
        /\ Position.width pos = 30
        /\ validPosition (Position.x pos) 30 minGap positions = true).
Proof.
  revert s. induction attempts as [| attempts IH]; intros s.
  - left. reflexivity.
  - cbn [placeBanana]. cbv zeta.
    destruct (validPosition (random s * (canvas_width - 30)) 30 minGap
                positions) eqn:Hvalid.
    + destruct (Qltb (random (s + 2)) 0.2);
        right; eexists; split; [reflexivity | split; [reflexivity | exact Hvalid]
                               | reflexivity | split; [reflexivity | exact Hvalid]].
    + apply IH.
Qed.

(** With exact numbers two bananas of one batch do not overlap, and the
    gap between them is either nothing (they touch) or at least 70. *)
Lemma batch_of_two_exact (g : Game) (o1 o2 : Obstacle.t) :
  obstacles (createObstacle random Math_PI g) = obstacles g ++ [o1; o2] ->
  (Obstacle.x o1 + 30 <= Obstacle.x o2
   /\ (Obstacle.x o2 - (Obstacle.x o1 + 30) == 0
       \/ 70 <= Obstacle.x o2 - (Obstacle.x o1 + 30)))
  \/ (Obstacle.x o2 + 30 <= Obstacle.x o1
      /\ (Obstacle.x o1 - (Obstacle.x o2 + 30) == 0
          \/ 70 <= Obstacle.x o1 - (Obstacle.x o2 + 30))).
Proof using random_range.
  intros Hbatch.
  destruct (createObstacle_appends random Math_PI random_range g)
    as (batch & Happ & Hplaced & _ & _).
  rewrite Hbatch in Happ. apply app_inv_head in Happ. subst batch.
  assert (Hvalid : exists p1 p2,
            fst (fst (placedBatch random Math_PI (obstacles g) (seed g)))
            = [p1; p2]
            /\ Position.width p1 = 30
            /\ validPosition (Position.x p2) 30 70 [p1] = true).
  { unfold placedBatch in *. cbv zeta in *.
    destruct (numBananas_range random random_range (seed g)) as [E | E];
      rewrite E in *; cbn [placeBananas] in *.
    - pose proof (placeBanana_valid 20 70 [] (obstacles g) (S (seed g))) as H1.
      destruct (placeBanana random Math_PI 20 (-20) 70 [] (obstacles g)
                  (S (seed g))) as [[ps1 obs1] s1].
      cbn [fst] in Hplaced.
      destruct H1 as [-> | (pos & -> & _)]; inversion Hplaced; subst;
        match goal with H : Forall2 _ [] (_ :: _) |- _ => inversion H end.
    - pose proof (placeBanana_valid 20 70 [] (obstacles g) (S (seed g))) as H1.
      destruct (placeBanana random Math_PI 20 (-20) 70 [] (obstacles g)
                  (S (seed g))) as [[ps1 obs1] s1].
      pose proof (placeBanana_valid 20 70 ps1 obs1 s1) as H2.
      destruct (placeBanana random Math_PI 20 (-20) 70 ps1 obs1 s1)
        as [[ps2 obs2] s2].
      cbn [fst] in *.
      destruct H1 as [-> | (p1 & -> & Hw1 & _)];
        destruct H2 as [-> | (p2 & -> & Hw2 & Hv)]; cbn [app] in *.
      + inversion Hplaced.
      + inversion Hplaced; subst.
        match goal with H : Forall2 _ [] (_ :: _) |- _ => inversion H end.
      + inversion Hplaced; subst.
        match goal with H : Forall2 _ [] (_ :: _) |- _ => inversion H end.
      + exists p1, p2. split; [reflexivity |]. split; assumption. }
  destruct Hvalid as (p1 & p2 & Hps & Hw1 & Hv).
  rewrite Hps in Hplaced.
  inversion Hplaced as [| ? ? ? ? Hp1 Hrest]; subst.
  inversion Hrest as [| ? ? ? ? Hp2 _]; subst.
  destruct Hp1 as (Hx1 & _). destruct Hp2 as (Hx2 & _).
  apply validPosition_iff in Hv. apply Forall_inv in Hv.
  rewrite Hw1, <- Hx1, <- Hx2 in Hv.
  destruct Hv as ([Hsep | Hsep] & Hleft & Hright).
  - right. split; [exact Hsep |].
    destruct (Qlt_le_dec 0 (Obstacle.x o1 - (Obstacle.x o2 + 30)))
      as [Hpos | Hzero]; [right; apply Hright, Hpos | left; lra].
  - left. split; [exact Hsep |].
    destruct (Qlt_le_dec 0 (Obstacle.x o2 - (Obstacle.x o1 + 30)))
      as [Hpos | Hzero]; [right; apply Hleft, Hpos | left; lra].
Qed.

(** Two bananas of one batch are separated, up to rounding.  The distance
    between their facing edges, [|x2 - x1| - 30], is never below -0.001
    (they do not overlap by more than a thousandth of a pixel) and never
    between 0.001 and 69.999: the bananas touch or leave the player's
    width of 70 between them.  The scan of [createObstacle] compares
    rounded sums and differences, which can be off by some 10^-13; the
    margin of 0.001 covers that. *)
Theorem batch_of_two_is_separated (g : Game) (o1 o2 : Obstacle.t) :
  obstacles (createObstacle random Math_PI g) = obstacles g ++ [o1; o2] ->
  -0.001 <= Qabs (Obstacle.x o2 - Obstacle.x o1) - 30
  /\ (Qabs (Obstacle.x o2 - Obstacle.x o1) - 30 <= 0.001
      \/ 69.999 <= Qabs (Obstacle.x o2 - Obstacle.x o1) - 30).
Proof using random_range.
  intros Hbatch. pose proof (batch_of_two_exact g o1 o2 Hbatch) as Hexact.
  set (x1 := Obstacle.x o1) in *. set (x2 := Obstacle.x o2) in *.
  clearbody x1 x2. clear Hbatch.
  apply (Qabs_case (x2 - x1)
           (fun a => -0.001 <= a - 30
                     /\ (a - 30 <= 0.001 \/ 69.999 <= a - 30)));
    intros Hsign.
  - destruct Hexact as [[Hsep [Hzero | Hwide]] | [Hsep _]].
    + split; [lra | left; lra].
    + split; [lra | right; lra].
    + lra.
  - destruct Hexact as [[Hsep _] | [Hsep [Hzero | Hwide]]].
    + lra.
    + split; [lra | left; lra].
    + split; [lra | right; lra].
Qed.

End Spawning.

(** ** Sorting the positions and checking the gaps *)

Lemma sortInsert_perm (a : Position.t) (l : list Position.t) :
  Permutation (a :: l) (sortInsert a l).
Proof.
  induction l as [| b l IH]; [reflexivity |].
  cbn [sortInsert]. destruct (Qltb (Position.x a - Position.x b) 0);
    [reflexivity |].
  rewrite perm_swap. apply perm_skip, IH.
Qed.

Lemma sortInsert_sorted (a : Position.t) (l : list Position.t) :
  StronglySorted left_of l -> StronglySorted left_of (sortInsert a l).
Proof.
  induction 1 as [| b l Hl IH Hb]; [repeat constructor |].
  cbn [sortInsert].
  destruct (Qltb (Position.x a - Position.x b) 0) eqn:Hcmp;
    [apply Qltb_lt in Hcmp | apply Qltb_ge in Hcmp].
  - constructor; [constructor; assumption |].
    constructor; [unfold left_of; lra |].
    eapply Forall_impl; [exact Hb |]. unfold left_of. intros c Hc. lra.
  - constructor; [exact IH |].
    rewrite <- (sortInsert_perm a l). constructor; [unfold left_of; lra |].
    exact Hb.
Qed.

Lemma sortPositions_acc (l acc : list Position.t) :
  StronglySorted left_of acc ->
  Permutation (l ++ acc) (fold_left (fun acc a => sortInsert a acc) l acc)
  /\ StronglySorted left_of
       (fold_left (fun acc a => sortInsert a acc) l acc).
Proof.
  revert acc. induction l as [| a l IH]; intros acc Hacc.
  - split; [reflexivity | exact Hacc].
  - cbn [fold_left app].
    destruct (IH (sortInsert a acc) (sortInsert_sorted a acc Hacc))
      as [Hperm Hsorted].
    split; [| exact Hsorted].
    rewrite <- Hperm, <- sortInsert_perm. apply Permutation_middle.
Qed.

(** [positions.sort((a, b) => a.x - b.x)] rearranges the positions, losing
    and adding none, into non-decreasing order of [x]. *)
Lemma sortPositions_sorts (l : list Position.t) :
  Permutation l (sortPositions l)
  /\ StronglySorted left_of (sortPositions l).
Proof.
  destruct (sortPositions_acc l [] (SSorted_nil _)) as [Hperm Hsorted].
  rewrite app_nil_r in Hperm. split; assumption.
Qed.

(** A gap found between two neighbours of the sorted array is clear of
    every position of the array. *)
Lemma gapBetween_sound (minGap w : Q) (p : Position.t)
    (rest : list Position.t) :
  StronglySorted left_of (p :: rest) ->
  Forall (fun q => Position.width q = w) (p :: rest) ->
  gapBetween minGap (p :: rest) = true ->
  exists (a : Q) (q : Position.t),
    In q rest /\ Position.x p + w <= a /\ minGap <= Position.x q - a
    /\ Forall (fun r => Position.x r + Position.width r <= a
                        \/ Position.x q <= Position.x r) (p :: rest).
Proof.
  revert p. induction rest as [| q rest IH]; intros p Hsorted Hw Hgap;
    [discriminate Hgap |].
  cbn [gapBetween] in Hgap.
  apply StronglySorted_inv in Hsorted. destruct Hsorted as [Hsorted Hp].
  apply Forall_cons in Hw. destruct Hw as [Hwp Hw].
  apply orb_true_iff in Hgap. destruct Hgap as [Hhere | Hlater].
  - apply Qleb_le in Hhere. rewrite Hwp in Hhere.
    exists (Position.x p + w), q.
    split; [left; reflexivity |]. split; [lra |]. split; [exact Hhere |].
    constructor; [left; rewrite Hwp; lra |].
    apply StronglySorted_inv in Hsorted. destruct Hsorted as [_ Hq].
    constructor; [right; lra |].
    eapply Forall_impl; [exact Hq |]. intros r Hr. right. exact Hr.
  - destruct (IH q Hsorted Hw Hlater) as (a & r & Hin & Ha & Hm & Hclear).
    exists a, r. split; [right; exact Hin |].
    apply Forall_inv in Hp. unfold left_of in Hp.
    split; [lra |]. split; [exact Hm |].
    constructor; [left; rewrite Hwp; lra | exact Hclear].
Qed.

Lemma last_default {A : Type} (a d d' : A) (l : list A) :
  List.last (a :: l) d = List.last (a :: l) d'.
Proof.
  revert a. induction l as [| b l IH]; intros a; [reflexivity |].
  change (List.last (a :: b :: l) d) with (List.last (b :: l) d).
  change (List.last (a :: b :: l) d') with (List.last (b :: l) d').
  apply IH.
Qed.

Lemma last_in {A : Type} (a d : A) (l : list A) :
  In (List.last (a :: l) d) (a :: l).
Proof.
  revert a. induction l as [| b l IH]; intros a; [left; reflexivity |].
  change (List.last (a :: b :: l) d) with (List.last (b :: l) d).
  right. apply IH.
Qed.

(** The last position of a sorted array is the rightmost. *)
Lemma last_rightmost (a d : Position.t) (l : list Position.t) :
  StronglySorted left_of (a :: l) ->
  Forall (fun p => Position.x p <= Position.x (List.last (a :: l) d))
    (a :: l).
Proof.
  revert a. induction l as [| b l IH]; intros a Hsorted.
  - constructor; [cbn; lra | constructor].
  - change (List.last (a :: b :: l) d) with (List.last (b :: l) d).
    apply StronglySorted_inv in Hsorted. destruct Hsorted as [Hs Hf].
    specialize (IH b Hs). constructor; [| exact IH].
    apply Forall_inv in Hf. apply Forall_inv in IH.
    unfold left_of in Hf. lra.
Qed.

(** The gap check is sound for any number of bananas: when it finds a gap
    in a sorted array of positions of one width that lie on the field,
    there is a span of the field at least [minGap] wide that meets none of
    them. *)
Theorem hasValidGap_sound (minGap w : Q) (positions : list Position.t) :
  StronglySorted left_of positions ->
  Forall (fun p => Position.width p = w) positions ->
  Forall (fun p => 0 <= Position.x p /\ Position.x p + w <= canvas_width)
    positions ->
  0 <= w ->
  hasValidGap minGap positions = true ->
  exists a b : Q,
    0 <= a /\ b <= canvas_width /\ minGap <= b - a
    /\ Forall (fun p => Position.x p + Position.width p <= a
                        \/ b <= Position.x p) positions.
Proof.
  intros Hsorted Hw Hfield Hw0 Hgap.
  destruct positions as [| first rest]; [discriminate Hgap |].
  unfold hasValidGap in Hgap.
  apply orb_true_iff in Hgap. destruct Hgap as [Hgap | Hright].
  apply orb_true_iff in Hgap. destruct Hgap as [Hleft | Hmid].
  - apply Qleb_le in Hleft. exists 0, (Position.x first).
    pose proof (Forall_inv Hfield) as [Hf0 Hf1].
    split; [lra |]. split; [lra |]. split; [lra |].
    apply StronglySorted_inv in Hsorted. destruct Hsorted as [_ Hfirst].
    constructor; [right; lra |].
    eapply Forall_impl; [exact Hfirst |]. intros r Hr. right. exact Hr.
  - destruct (gapBetween_sound minGap w first rest Hsorted Hw Hmid)
      as (a & q & Hin & Ha & Hm & Hclear).
    exists a, (Position.x q).
    pose proof (Forall_inv Hfield) as [Hf0 _].
    assert (Hq : 0 <= Position.x q /\ Position.x q + w <= canvas_width).
    { apply Forall_cons in Hfield. destruct Hfield as [_ Hrest].
      rewrite Forall_forall in Hrest. apply Hrest.
      apply list_elem_of_In. exact Hin. }
    split; [lra |]. split; [lra |]. split; [exact Hm | exact Hclear].
  - apply Qleb_le in Hright.
    set (lastPos := List.last (first :: rest) first) in *.
    pose proof (last_in first first rest) as Hlast. fold lastPos in Hlast.
    pose proof (last_rightmost first first rest Hsorted) as Hmax.
    fold lastPos in Hmax.
    rewrite Forall_forall in Hw, Hfield, Hmax.
    apply list_elem_of_In in Hlast.
    rewrite (Hw lastPos Hlast) in Hright.
    destruct (Hfield lastPos Hlast) as [Hfl _].
    exists (Position.x lastPos + w), canvas_width.
    split; [lra |]. split; [lra |]. split; [lra |].
    rewrite Forall_forall. intros r Hr. left.
    rewrite (Hw r Hr). specialize (Hmax r Hr). cbv beta in Hmax.
    unfold lastPos in *. lra.
Qed.

(** ** More on the life of an obstacle *)

Lemma stepObstacle_originalSpeed (o : Obstacle.t) :
  Obstacle.originalSpeed (stepObstacle o) = Obstacle.originalSpeed o.
Proof. step_cases o; reflexivity. Qed.

Lemma stepObstacle_speed_cases (o : Obstacle.t) :
  Obstacle.speed o = Obstacle.originalSpeed o
  \/ Obstacle.speed o = Obstacle.originalSpeed o * 0.5 ->
  Obstacle.speed (stepObstacle o) = Obstacle.originalSpeed o
  \/ Obstacle.speed (stepObstacle o) = Obstacle.originalSpeed o * 0.5.
Proof. intros H. step_cases o; tauto. Qed.

Lemma aged_speed_cases (n : nat) (o0 : Obstacle.t) :
  spawned o0 ->
  2 <= Obstacle.originalSpeed (aged n o0) < 5
  /\ (Obstacle.speed (aged n o0) = Obstacle.originalSpeed (aged n o0)
      \/ Obstacle.speed (aged n o0)
         = Obstacle.originalSpeed (aged n o0) * 0.5).
Proof.
  intros Hs. induction n as [| n [IHo IHs]].
  - destruct Hs as (x & sp & b & gr & rot & -> & Hsp & _). cbn.
    split; [lra | left; reflexivity].
  - rewrite aged_S, stepObstacle_originalSpeed.
    split; [exact IHo | apply stepObstacle_speed_cases, IHs].
Qed.

Lemma aged_x (n : nat) (o : Obstacle.t) :
  Obstacle.x (aged n o) = Obstacle.x o.
Proof.
  induction n as [| n IH]; [reflexivity |].
  rewrite aged_S, stepObstacle_x. exact IH.
Qed.

(** A banana falls straight down, by at least 1 and less than 5 a frame:
    its [x] never changes and after [n] frames its [y] is between
    [-20 + n] and [-20 + 5 n].  So no banana is on the field for more
    than 620 frames. *)
Theorem obstacle_falls_and_leaves (o0 : Obstacle.t) (n : nat) :
  spawned o0 ->
  Obstacle.x (aged n o0) = Obstacle.x o0
  /\ -20 + inject_Z (Z.of_nat n) <= Obstacle.y (aged n o0)
  /\ Obstacle.y (aged n o0) <= -20 + 5 * inject_Z (Z.of_nat n)
  /\ ((620 < n)%nat -> canvas_height < Obstacle.y (aged n o0)).
Proof.
  intros Hs.
  assert (Hy : -20 + inject_Z (Z.of_nat n) <= Obstacle.y (aged n o0)
               /\ Obstacle.y (aged n o0) <= -20 + 5 * inject_Z (Z.of_nat n)).
  { induction n as [| n [IHlo IHhi]].
    - destruct Hs as (x & sp & b & gr & rot & -> & _).
      change (Obstacle.y (aged 0 (newObstacle x (-20) 30 sp b gr rot)))
        with (-20).
      change (inject_Z (Z.of_nat 0)) with 0. lra.
    - rewrite aged_S, stepObstacle_y.
      destruct (aged_speed_cases n o0 Hs) as [Ho [Hsp | Hsp]];
        rewrite Hsp; rewrite Nat2Z.inj_succ; unfold Z.succ;
        rewrite inject_Z_plus; change (inject_Z 1) with 1; lra. }
  split; [apply aged_x |]. split; [apply Hy |]. split; [apply Hy |].
  intros Hn. destruct Hy as [Hlo _].
  assert (Hbig : 621 <= inject_Z (Z.of_nat n)).
  { change 621 with (inject_Z 621). rewrite <- Zle_Qle. lia. }
  qlra.
Qed.

Lemma obstacle_falls_and_leaves_witness :
  canvas_height < Obstacle.y (aged 621 fresh_plain).
Proof.
  apply (obstacle_falls_and_leaves fresh_plain 621 fresh_plain_spawned).
  lia.
Defined.

Lemma stepObstacle_growing_inv (o : Obstacle.t) :
  Obstacle.isGrowing o = true ->
  Obstacle.isBonus o = false ->
  0 <= Obstacle.speed o ->
  (Obstacle.hasTransformed o = true <-> canvas_height / 3 <= Obstacle.y o)
  /\ (Obstacle.hasTransformed o = false ->
      Obstacle.speed o = Obstacle.originalSpeed o)
  /\ (Obstacle.hasTransformed o = true ->
      Obstacle.speed o = Obstacle.originalSpeed o * 0.5) ->
  (Obstacle.hasTransformed (stepObstacle o) = true
   <-> canvas_height / 3 <= Obstacle.y (stepObstacle o))
  /\ (Obstacle.hasTransformed (stepObstacle o) = false ->
      Obstacle.speed (stepObstacle o) = Obstacle.originalSpeed (stepObstacle o))
  /\ (Obstacle.hasTransformed (stepObstacle o) = true ->
      Obstacle.speed (stepObstacle o)
      = Obstacle.originalSpeed (stepObstacle o) * 0.5).
Proof.
  intros Hg Hb Hsp (Hiff & Hslow & Hfast).
  step_cases o; try discriminate;
    (split; [split; [intros; try discriminate; try qlra;
                     try (specialize (proj1 Hiff eq_refl); intros; qlra)
                    | intros; try reflexivity;
                      try (exfalso; qlra);
                      try (apply Hiff; qlra) ]
            | split; intros; try discriminate; try reflexivity;
              try (apply Hslow; reflexivity);
              try (apply Hfast; reflexivity) ]).
Qed.

(** A growing banana is transformed exactly when its [y] is at or past a
    third of the field height (200); until then it falls at the speed it
    was given, and from then on at half of it. *)
Theorem growing_transforms_at_a_third (o0 : Obstacle.t) (n : nat) :
  spawned o0 ->
  Obstacle.isGrowing o0 = true ->
  (Obstacle.hasTransformed (aged n o0) = true
   <-> canvas_height / 3 <= Obstacle.y (aged n o0))
  /\ (Obstacle.hasTransformed (aged n o0) = false ->
      Obstacle.speed (aged n o0) = Obstacle.speed o0)
  /\ (Obstacle.hasTransformed (aged n o0) = true ->
      Obstacle.speed (aged n o0) = Obstacle.speed o0 * 0.5).
Proof.
  intros Hs Hg.
  assert (Hb : Obstacle.isBonus o0 = false).
  { pose proof (inv_exclusive _ (spawned_inv o0 Hs)) as Hex.
    rewrite Hg, andb_true_r in Hex. exact Hex. }
  assert (Horig : forall k, Obstacle.originalSpeed (aged k o0)
                            = Obstacle.speed o0).
  { intros k. induction k as [| k IH].
    - destruct Hs as (x & sp & b & gr & rot & -> & _). reflexivity.
    - rewrite aged_S, stepObstacle_originalSpeed. exact IH. }
  rewrite <- (Horig n).
  induction n as [| n IH].
  - destruct Hs as (x & sp & b & gr & rot & -> & _). cbn.
    split; [split; [discriminate | intros; qlra] |].
    split; [reflexivity | discriminate].
  - rewrite aged_S. apply stepObstacle_growing_inv.
    + rewrite aged_isGrowing. exact Hg.
    + rewrite aged_isBonus. exact Hb.
    + apply (inv_speed _ (aged_inv n o0 Hs)).
    + exact IH.
Qed.

Lemma growing_transforms_at_a_third_witness :
  Obstacle.hasTransformed (aged 54 fresh_growing) = false
  /\ Obstacle.hasTransformed (aged 55 fresh_growing) = true
  /\ Obstacle.speed (aged 55 fresh_growing) = 4 * 0.5.
Proof.
  destruct (growing_transforms_at_a_third fresh_growing 55
              fresh_growing_spawned eq_refl) as (Hiff & _ & Hhalf).
  split; [vm_compute; reflexivity |].
  assert (Ht : Obstacle.hasTransformed (aged 55 fresh_growing) = true).
  { apply Hiff. apply Qle_bool_iff. vm_compute. reflexivity. }
  split; [exact Ht | exact (Hhalf Ht)].
Defined.

(** A banana that is neither bonus nor growing never transforms, so it is
    fatal to touch all the way down. *)
Theorem plain_never_transforms (o0 : Obstacle.t) (n : nat) :
  spawned o0 ->
  Obstacle.isBonus o0 = false ->
  Obstacle.isGrowing o0 = false ->
  Obstacle.hasTransformed (aged n o0) = false
  /\ Obstacle.isBonus (aged n o0) && Obstacle.hasTransformed (aged n o0)
     = false.
Proof.
  intros Hs Hb Hg.
  assert (Ht : Obstacle.hasTransformed (aged n o0) = false).
  { induction n as [| n IH].
    - destruct Hs as (x & sp & b & gr & rot & -> & _). reflexivity.
    - rewrite aged_S.
      pose proof (aged_isBonus n o0) as Eb. rewrite Hb in Eb.
      pose proof (aged_isGrowing n o0) as Eg. rewrite Hg in Eg.
      revert IH Eb Eg. generalize (aged n o0). intros o IH Eb Eg.
      step_cases o; congruence. }
  split; [exact Ht |]. rewrite Ht. apply andb_false_r.
Qed.

Lemma plain_never_transforms_witness :
  Obstacle.hasTransformed (aged 150 fresh_plain) = false.
Proof.
  apply (plain_never_transforms fresh_plain 150 fresh_plain_spawned
           eq_refl eq_refl).
Defined.

(** ** What is drawn and what collides *)



Section Painting.

Variable random : nat -> Q.
Variables Math_cos Math_sin : Q -> Q.
Variable Math_PI : Q.

(** The banana the collision scan meets first ends the run unless
    [drawObstacles] paints it gold: the test for "edible" in
    [checkCollision] and the test for the gold colour are the same for
    every banana that is not both bonus and growing.  A banana that has not
    transformed is painted green whatever its kind. *)
Theorem collision_is_fatal_unless_gold (g : Game)
    (pre post : list Obstacle.t) (o : Obstacle.t) :
  obstacles g = pre ++ o :: post ->
  Forall (fun o' => hits (player g) o' = false) post ->
  hits (player g) o = true ->
  Obstacle.isBonus o && Obstacle.isGrowing o = false ->
  fst (checkCollision random Math_cos Math_sin Math_PI g)
  = negb (String.eqb (bodyColor (drawObstacle o)) "#FFD700")
  /\ (Obstacle.hasTransformed o = false ->
      bodyColor (drawObstacle o) = "#32CD32").
Proof.
  intros Hobs Hpost Hhit Hex.
  destruct (Obstacle.isBonus o && Obstacle.hasTransformed o) eqn:Hedible.
  - apply andb_true_iff in Hedible. destruct Hedible as [Hb Ht].
    rewrite (checkCollision_bonus random Math_cos Math_sin Math_PI g pre post o)
      by assumption.
    unfold drawObstacle, drawBanana. rewrite Hb, Ht in *.
    cbn in Hex. rewrite Hex. cbn. split; [reflexivity | discriminate].
  - rewrite (checkCollision_fatal random Math_cos Math_sin Math_PI g pre post o)
      by assumption.
    unfold drawObstacle, drawBanana. rewrite Hedible.
    destruct (Obstacle.isGrowing o && Obstacle.hasTransformed o) eqn:Hblack;
      cbn; split; try reflexivity.
    intros Ht. rewrite Ht, andb_false_r in Hblack. discriminate Hblack.
Qed.

End Painting.

Lemma collision_is_fatal_unless_gold_witness :
  fst (checkCollision sample_random sample_cos sample_sin sample_PI
         (beforeCollision sample_random sample_PI sample_rect bonus_game))
  = false.
Proof.
  destruct (collision_is_fatal_unless_gold sample_random sample_cos
              sample_sin sample_PI
              (beforeCollision sample_random sample_PI sample_rect bonus_game)
              [stepObstacle plain_banana] [] (stepObstacle ripe_bonus))
    as [H _].
  - vm_compute. reflexivity.
  - constructor.
  - vm_compute. reflexivity.
  - reflexivity.
  - rewrite H. reflexivity.
Defined.



Section Misses.

Variable random : nat -> Q.
Variables Math_cos Math_sin : Q -> Q.
Variable Math_PI : Q.

(** What the scan returns is an obstacle of the array that overlaps the
    player. *)
Lemma firstHit_some (p : Player.t) (obs : list Obstacle.t) (n i : nat)
    (o : Obstacle.t) :
  firstHit p obs n = Some (i, o) ->
  obs !! i = Some o /\ hits p o = true /\ (i < n)%nat.
Proof.
  induction n as [| k IH]; [discriminate |].
  cbn [firstHit]. destruct (obs !! k) as [o' |] eqn:Hk.
  - destruct (hits p o') eqn:Hh.
    + intros E. inversion E; subst. repeat split; [assumption.. | lia].
    + intros E. destruct (IH E) as (? & ? & ?). repeat split; [assumption.. | lia].
  - intros E. destruct (IH E) as (? & ? & ?). repeat split; [assumption.. | lia].
Qed.

(** When no obstacle overlaps the player (in particular when there is no
    obstacle) [checkCollision] returns [false] and changes nothing. *)
Theorem checkCollision_miss (g : Game) :
  Forall (fun o => hits (player g) o = false) (obstacles g) ->
  checkCollision random Math_cos Math_sin Math_PI g = (false, g).
Proof.
  intros Hmiss. unfold checkCollision.
  pose proof (firstHit_skip (player g) [] (obstacles g) Hmiss) as H.
  cbn [app length firstHit] in H. rewrite H. reflexivity.
Qed.

End Misses.

Lemma checkCollision_miss_witness :
  checkCollision sample_random sample_cos sample_sin sample_PI scenario_game
  = (false, scenario_game).
Proof.
  apply (checkCollision_miss sample_random sample_cos sample_sin sample_PI
           scenario_game).
  constructor; [vm_compute; reflexivity | constructor].
Defined.

(** ** Invariants of the running page *)

Lemma movePlayer_x_in_field (rect : DOMRect) (ks : gmap string bool)
    (touching : bool) (touchX : Q) (p : Player.t) :
  Player.width p = 70 ->
  0 <= Player.x (movePlayer rect ks touching touchX p) <= canvas_width - 70.
Proof.
  intros Hw. unfold movePlayer. cbn [Player.x Player.set_x].
  match goal with
  | |- context [Qltb (Player.x p + ?d) 0] =>
      pose proof (clamp_in_field (Player.x p + d) (Player.width p)) as Hc
  end.
  cbv zeta in Hc. rewrite Hw in *.
  apply Hc. unfold canvas_width. lra.
Qed.

Lemma game_inv_initial (stored : option Z) : game_inv (initialGame stored).
Proof.
  split; cbn [initialGame score scoreFlashTime frameCount gameOver
              explosionParticles showGameOverText highScore savedHighScore
              player bonusParticles].
  - split; [lia | reflexivity].
  - lia.
  - lia.
  - intros _. split; reflexivity.
  - discriminate.
  - destruct stored; reflexivity.
  - unfold Player.initial.
    cbn [Player.width Player.height Player.speed Player.y Player.x].
    repeat split; try reflexivity; qlra.
  - constructor.
  - constructor.
Qed.

Lemma game_inv_drawJungleBackground (g : Game) :
  game_inv g -> game_inv (drawJungleBackground g).
Proof. intros [H1 H2 H3 H4 H5 H6 H7 H8 H9]. split; assumption. Qed.

Lemma game_inv_updatePlayer (rect : DOMRect) (g : Game) :
  game_inv g -> game_inv (updatePlayer rect g).
Proof.
  intros [H1 H2 H3 H4 H5 H6 H7 H8 H9]. split; try assumption.
  unfold updatePlayer. cbn [player set_player].
  destruct H7 as (Hw & Hh & Hs & Hy & Hx).
  destruct (movePlayer_keeps rect (keys g) (isTouching g) (touchCurrentX g)
              (player g)) as (Ks & Kw & Kh & Ky).
  rewrite Ks, Kw, Kh, Ky.
  repeat split; try assumption;
    apply (movePlayer_x_in_field rect _ _ _ _ Hw).
Qed.

Lemma game_inv_updateBonusParticles (g : Game) :
  game_inv g -> game_inv (updateBonusParticles g).
Proof.
  intros [H1 H2 H3 H4 H5 H6 H7 H8 H9]. split; try assumption.
  apply moveSparkles_keeps_ok, H9.
Qed.

Lemma game_inv_drawScore (g : Game) :
  game_inv g -> game_inv (drawScore g).
Proof.
  intros [H1 H2 H3 H4 H5 H6 H7 H8 H9]. unfold drawScore.
  destruct (0 <? scoreFlashTime g)%Z eqn:Hflash;
    [apply Z.ltb_lt in Hflash | split; assumption].
  split; try assumption. cbn [scoreFlashTime set_scoreFlashTime]. lia.
Qed.

Lemma game_inv_set_frameRequested (b : bool) (g : Game) :
  game_inv g -> game_inv (set_frameRequested b g).
Proof. intros [H1 H2 H3 H4 H5 H6 H7 H8 H9]. split; assumption. Qed.

Lemma game_inv_set_touch (a b : Q) (t : bool) (g : Game) :
  game_inv g -> game_inv (set_touch a b t g).
Proof. intros [H1 H2 H3 H4 H5 H6 H7 H8 H9]. split; assumption. Qed.

Lemma game_inv_set_keys (ks : gmap string bool) (g : Game) :
  game_inv g -> game_inv (set_keys ks g).
Proof. intros [H1 H2 H3 H4 H5 H6 H7 H8 H9]. split; assumption. Qed.

Lemma game_inv_resetState (g : Game) :
  game_inv g -> game_inv (resetState g).
Proof.
  intros [H1 H2 H3 H4 H5 H6 H7 H8 H9].
  destruct H7 as (Hw & Hh & Hs & Hy & Hx).
  split; cbn [score scoreFlashTime frameCount gameOver explosionParticles
              showGameOverText highScore savedHighScore player
              bonusParticles resetState set_showGameOverText
              set_bonusParticles set_explosionParticles set_gameOver
              set_scoreFlashTime set_score set_frameCount set_obstacles
              set_player].
  - split; [lia | reflexivity].
  - lia.
  - lia.
  - intros _. split; reflexivity.
  - discriminate.
  - exact H6.
  - cbn [Player.width Player.height Player.speed Player.y Player.x
         Player.set_animationFrame Player.set_dx Player.set_x].
    repeat split; try assumption; qlra.
  - constructor.
  - constructor.
Qed.

Section Invariants.

Variable random : nat -> Q.
Variables Math_cos Math_sin : Q -> Q.
Variable Math_PI : Q.
Hypothesis random_range : forall n : nat, 0 <= random n < 1.

Local Abbreviation gameLoop' := (gameLoop random Math_cos Math_sin Math_PI).
Local Abbreviation checkCollision' :=
  (checkCollision random Math_cos Math_sin Math_PI).

(** [updateObstacles] writes [obstacles], [score], [frameCount] and the
    count of random draws, and nothing else. *)
Lemma updateObstacles_fields (g : Game) :
  player (updateObstacles random Math_PI g) = player g
  /\ gameOver (updateObstacles random Math_PI g) = gameOver g
  /\ highScore (updateObstacles random Math_PI g) = highScore g
  /\ savedHighScore (updateObstacles random Math_PI g) = savedHighScore g
  /\ explosionParticles (updateObstacles random Math_PI g)
     = explosionParticles g
  /\ bonusParticles (updateObstacles random Math_PI g) = bonusParticles g
  /\ showGameOverText (updateObstacles random Math_PI g) = showGameOverText g
  /\ scoreFlashTime (updateObstacles random Math_PI g) = scoreFlashTime g
  /\ keys (updateObstacles random Math_PI g) = keys g
  /\ isTouching (updateObstacles random Math_PI g) = isTouching g
  /\ touchCurrentX (updateObstacles random Math_PI g) = touchCurrentX g
  /\ frameCount (updateObstacles random Math_PI g) = (frameCount g + 1)%Z.
Proof.
  unfold updateObstacles, createObstacle.
  repeat match goal with
  | |- context [let '(_, _) := ?p in _] => destruct p
  | |- context [if ?b then _ else _] => destruct b
  end; repeat split; reflexivity.
Qed.

Lemma game_inv_updateObstacles (g : Game) :
  gameOver g = false ->
  game_inv g -> game_inv (updateObstacles random Math_PI g).
Proof.
  intros Hrun [[H1 H1'] H2 H3 H4 H5 H6 H7 H8 H9].
  destruct (updateObstacles_fields g)
    as (Fp & Fo & Fh & Fs & Fe & Fb & Ft & Ff & _ & _ & _ & Fc).
  pose proof (updateObstacles_score random Math_PI g) as Fsc.
  set (g' := updateObstacles random Math_PI g) in *. clearbody g'.
  set (k := Z.of_nat _) in Fsc.
  assert (Hk : (0 <= k)%Z) by (unfold k; lia). clearbody k.
  split.
  - rewrite Fsc. split; [lia |]. Z.div_mod_to_equations. lia.
  - rewrite Ff. exact H2.
  - rewrite Fc. lia.
  - rewrite Fo, Fe, Ft. exact H4.
  - rewrite Fo, Hrun. discriminate.
  - rewrite Fh, Fs. exact H6.
  - rewrite Fp. exact H7.
  - rewrite Fe. exact H8.
  - rewrite Fb. exact H9.
Qed.

(** The three ways [checkCollision] can go. *)
Lemma checkCollision_cases (g : Game) :
  checkCollision' g = (false, g)
  \/ (exists i o,
        obstacles g !! i = Some o /\ hits (player g) o = true
        /\ Obstacle.isBonus o = true /\ Obstacle.hasTransformed o = true
        /\ checkCollision' g
           = (false,
              set_obstacles (delete i (obstacles g))
                (createBonusEffect random Math_cos Math_sin Math_PI
                   (Obstacle.x o + Obstacle.width o / 2)
                   (Obstacle.y o + Obstacle.height o / 2)
                   (set_scoreFlashTime 20%Z (set_score (score g + 200)%Z g)))))
  \/ (exists i o,
        obstacles g !! i = Some o /\ hits (player g) o = true
        /\ Obstacle.isBonus o && Obstacle.hasTransformed o = false
        /\ checkCollision' g = (true, g)).
Proof.
  unfold checkCollision.
  destruct (firstHit (player g) (obstacles g) (length (obstacles g)))
    as [[i o] |] eqn:Hfirst; [| left; reflexivity].
  destruct (firstHit_some _ _ _ _ _ Hfirst) as (Hlook & Hhit & _).
  destruct (Obstacle.isBonus o && Obstacle.hasTransformed o) eqn:Hedible.
  - apply andb_true_iff in Hedible. destruct Hedible as [Hb Ht].
    right. left. exists i, o. repeat split; try assumption.
  - right. right. exists i, o. repeat split; assumption.
Qed.

Lemma game_inv_checkCollision (g : Game) :
  gameOver g = false ->
  game_inv g ->
  game_inv (snd (checkCollision' g))
  /\ gameOver (snd (checkCollision' g)) = false.
Proof using random_range.
  intros Hrun Hinv.
  destruct (checkCollision_cases g)
    as [-> | [(i & o & _ & _ & _ & _ & ->) | (i & o & _ & _ & _ & ->)]];
    cbn [snd]; [split; assumption | | split; assumption].
  destruct Hinv as [[H1 H1'] H2 H3 H4 H5 H6 H7 H8 H9].
  destruct (bonusBurst_spec random Math_cos Math_sin Math_PI random_range 20
              (Obstacle.x o + Obstacle.width o / 2)
              (Obstacle.y o + Obstacle.height o / 2) (seed g)) as [_ Hburst].
  split; [| exact Hrun].
  split; unfold createBonusEffect;
    cbn [score scoreFlashTime frameCount gameOver explosionParticles
         showGameOverText highScore savedHighScore player bonusParticles
         seed set_obstacles set_seed set_bonusParticles set_scoreFlashTime
         set_score].
  - split; [lia |]. Z.div_mod_to_equations. lia.
  - lia.
  - exact H3.
  - exact H4.
  - rewrite Hrun. discriminate.
  - exact H6.
  - exact H7.
  - exact H8.
  - apply Forall_app. split; [exact H9 |].
    eapply Forall_impl; [exact Hburst |].
    intros p (_ & _ & Hl & Hd & _). unfold sparkle_ok. lra.
Qed.

(** The frame of a fatal collision, from the collision on. *)
Lemma game_inv_fatal (x y : Q) (g : Game) :
  gameOver g = false ->
  game_inv g ->
  game_inv
    (set_frameRequested true
       (createExplosion random Math_cos Math_sin Math_PI x y
          (if (highScore (set_gameOver true g) <? score (set_gameOver true g))%Z
           then set_savedHighScore (Some (score (set_gameOver true g)))
                  (set_highScore (score (set_gameOver true g))
                     (set_gameOver true g))
           else set_gameOver true g))).
Proof using random_range.
  intros Hrun [[H1 H1'] H2 H3 H4 H5 H6 H7 H8 H9].
  destruct (H4 Hrun) as [Hempty _].
  cbn [highScore score set_gameOver].
  destruct (fireBurst_spec random Math_cos Math_sin Math_PI random_range 60
              x y (seed g)) as [_ Hfire].
  destruct (smokeBurst_spec random Math_cos Math_sin Math_PI random_range 20
              x y (seed g + 5 * 60)) as [_ Hsmoke].
  assert (Hdebris :
    Forall debris_ok
      (explosionParticles g
       ++ fireBurst random Math_cos Math_sin Math_PI 60 x y (seed g)
       ++ smokeBurst random Math_cos Math_sin Math_PI 20 x y
            (seed g + 5 * 60))).
  { rewrite Hempty. cbn [app]. apply Forall_app. split.
    - eapply Forall_impl; [exact Hfire |].
      intros p (_ & _ & Hl & Hd & _). unfold debris_ok. lra.
    - eapply Forall_impl; [exact Hsmoke |].
      intros p (_ & _ & Hl & Hd & _). unfold debris_ok. lra. }
  destruct (highScore g <? score g)%Z eqn:Hcmp;
    [apply Z.ltb_lt in Hcmp | apply Z.ltb_ge in Hcmp];
    split; unfold createExplosion;
    cbn [score scoreFlashTime frameCount gameOver explosionParticles
         showGameOverText highScore savedHighScore player bonusParticles
         seed set_frameRequested set_seed set_explosionParticles
         set_savedHighScore set_highScore set_gameOver].
  - split; assumption.
  - exact H2.
  - exact H3.
  - discriminate.
  - intros _. lia.
  - reflexivity.
  - exact H7.
  - exact Hdebris.
  - exact H9.
  - split; assumption.
  - exact H2.
  - exact H3.
  - discriminate.
  - intros _. exact Hcmp.
  - exact H6.
  - exact H7.
  - exact Hdebris.
  - exact H9.
Qed.

(** A frame with the game over moves the debris, counts the score flash
    down and decides about the game-over text; everything else is frozen. *)
Lemma gameLoop_over_fields (rect : DOMRect) (g : Game) :
  gameOver g = true ->
  gameOver (gameLoop' rect g) = true
  /\ score (gameLoop' rect g) = score g
  /\ highScore (gameLoop' rect g) = highScore g
  /\ savedHighScore (gameLoop' rect g) = savedHighScore g
  /\ obstacles (gameLoop' rect g) = obstacles g
  /\ player (gameLoop' rect g) = player g
  /\ frameCount (gameLoop' rect g) = frameCount g
  /\ bonusParticles (gameLoop' rect g) = bonusParticles g
  /\ keys (gameLoop' rect g) = keys g
  /\ isTouching (gameLoop' rect g) = isTouching g
  /\ touchCurrentX (gameLoop' rect g) = touchCurrentX g
  /\ explosionParticles (gameLoop' rect g)
     = moveDebris (explosionParticles g)
  /\ scoreFlashTime (gameLoop' rect g)
     = (if (0 <? scoreFlashTime g)%Z then scoreFlashTime g - 1
        else scoreFlashTime g)%Z
  /\ showGameOverText (gameLoop' rect g)
     = ((length (moveDebris (explosionParticles g)) =? 0)%nat
        || showGameOverText g)
  /\ frameRequested (gameLoop' rect g)
     = (0 <? length (moveDebris (explosionParticles g)))%nat.
Proof.
  intros Hover. unfold gameLoop.
  cbn [gameOver drawJungleBackground set_seed]. rewrite Hover.
  cbv zeta. unfold drawScore, updateExplosion.
  cbn [scoreFlashTime explosionParticles set_explosionParticles
       drawJungleBackground set_seed].
  destruct (0 <? scoreFlashTime g)%Z;
    cbn [explosionParticles showGameOverText set_scoreFlashTime
         set_explosionParticles drawJungleBackground set_seed];
    destruct ((length (moveDebris (explosionParticles g)) =? 0)%nat
              || showGameOverText g) eqn:Htext;
    cbn [gameOver score highScore savedHighScore obstacles player frameCount
         bonusParticles keys isTouching touchCurrentX explosionParticles
         scoreFlashTime showGameOverText frameRequested set_frameRequested
         set_showGameOverText set_scoreFlashTime set_explosionParticles
         drawJungleBackground set_seed];
    repeat split; try assumption; try reflexivity.
  all: apply orb_false_iff in Htext; destruct Htext as [_ Htext];
    exact Htext.
Qed.

Lemma game_inv_over_frame (rect : DOMRect) (g : Game) :
  gameOver g = true ->
  game_inv g -> game_inv (gameLoop' rect g).
Proof.
  intros Hover [H1 H2 H3 H4 H5 H6 H7 H8 H9].
  destruct (gameLoop_over_fields rect g Hover)
    as (Fo & Fsc & Fh & Fs & _ & Fp & Fc & Fb & _ & _ & _ & Fe & Ff & _ & _).
  set (g' := gameLoop' rect g) in *. clearbody g'.
  split.
  - rewrite Fsc. exact H1.
  - rewrite Ff. destruct (0 <? scoreFlashTime g)%Z eqn:E;
      [apply Z.ltb_lt in E |]; lia.
  - rewrite Fc. exact H3.
  - rewrite Fo. discriminate.
  - intros _. rewrite Fsc, Fh. apply H5, Hover.
  - rewrite Fh, Fs. exact H6.
  - rewrite Fp. exact H7.
  - rewrite Fe. apply moveDebris_keeps_ok, H8.
  - rewrite Fb. exact H9.
Qed.

Lemma game_inv_gameLoop (rect : DOMRect) (g : Game) :
  game_inv g -> game_inv (gameLoop' rect g).
Proof using random_range.
  intros Hinv. destruct (gameOver g) eqn:Hover;
    [apply game_inv_over_frame; assumption |].
  rewrite gameLoop_running by exact Hover. unfold beforeCollision.
  apply game_inv_drawJungleBackground in Hinv.
  apply (game_inv_updatePlayer rect) in Hinv.
  assert (H0 : gameOver (updatePlayer rect (drawJungleBackground g)) = false)
    by exact Hover.
  set (g0 := updatePlayer rect (drawJungleBackground g)) in *. clearbody g0.
  apply (game_inv_updateObstacles g0 H0) in Hinv.
  assert (H1 : gameOver (updateObstacles random Math_PI g0) = false).
  { destruct (updateObstacles_fields g0) as (_ & -> & _). exact H0. }
  set (g1 := updateObstacles random Math_PI g0) in *. clearbody g1.
  apply game_inv_updateBonusParticles in Hinv.
  assert (H2 : gameOver (updateBonusParticles g1) = false) by exact H1.
  set (g2 := updateBonusParticles g1) in *. clearbody g2.
  destruct (game_inv_checkCollision g2 H2 Hinv) as [Hinv3 H3].
  destruct (checkCollision' g2) as [[|] g3] eqn:Hcc; cbn [snd] in *;
    cbv iota beta zeta.
  - apply checkCollision_true in Hcc. subst g3.
    apply (game_inv_fatal _ _ g2 H2 Hinv).
  - apply game_inv_set_frameRequested, game_inv_drawScore, Hinv3.
Qed.

(** The invariant holds in every reachable state. *)
Lemma reachable_game_inv (g : Game) :
  reachable random Math_cos Math_sin Math_PI g -> game_inv g.
Proof using random_range.
  induction 1 as [stored | rect g _ IH | k g _ IH | k g _ IH
                  | rect e g _ IH | rect e g _ IH | e g _ IH | g _ IH].
  - apply game_inv_initial.
  - apply game_inv_gameLoop, IH.
  - apply game_inv_set_keys, IH.
  - apply game_inv_set_keys, IH.
  - unfold on_click. destruct (clickResets rect e g); [| exact IH].
    apply game_inv_gameLoop, game_inv_resetState, IH.
  - unfold on_touchstart. destruct (gameOver g).
    + destruct (insideRestartButton _ _); [| exact IH].
      apply game_inv_gameLoop, game_inv_resetState, IH.
    + apply game_inv_set_touch, IH.
  - unfold on_touchmove. destruct (gameOver g); [exact IH |].
    destruct (isTouching g); [apply game_inv_set_touch, IH | exact IH].
  - unfold on_touchend. destruct (gameOver g);
      [exact IH | apply game_inv_set_touch, IH].
Qed.

End Invariants.

Lemma sample_run_reachable (n : nat) :
  reachable sample_random sample_cos sample_sin sample_PI (sample_run n).
Proof.
  induction n as [| n IH]; [apply reach_start |].
  unfold sample_run. rewrite Nat.iter_succ. apply reach_frame, IH.
Qed.

Lemma sample_run_crashed : gameOver (sample_run 201) = true.
Proof. vm_compute. reflexivity. Qed.

Section Reachable.

Variable random : nat -> Q.
Variables Math_cos Math_sin : Q -> Q.
Variable Math_PI : Q.
Hypothesis random_range : forall n : nat, 0 <= random n < 1.

Local Abbreviation gameLoop' := (gameLoop random Math_cos Math_sin Math_PI).
Local Abbreviation reachable' :=
  (reachable random Math_cos Math_sin Math_PI).

(** In every reachable state the score is a non-negative multiple of 10
    and the score flash counter is between 0 and 20. *)
Theorem reachable_score_multiple_of_ten (g : Game) :
  reachable' g ->
  (0 <= score g)%Z /\ (score g mod 10 = 0)%Z
  /\ (0 <= scoreFlashTime g <= 20)%Z.
Proof using random_range.
  intros Hg.
  pose proof (reachable_game_inv random Math_cos Math_sin Math_PI
                random_range g Hg) as Hinv.
  destruct (gi_score g Hinv) as [H1 H2].
  split; [exact H1 |]. split; [exact H2 | apply (gi_flash g Hinv)].
Qed.

(** In every reachable state in which the game is running there is no
    debris and the game-over text is off; so the text is only ever up
    after a fatal collision. *)
Theorem reachable_playing_is_clean (g : Game) :
  reachable' g ->
  (runState g = Playing ->
   explosionParticles g = [] /\ showGameOverText g = false)
  /\ (showGameOverText g = true -> runState g = GameOverDisplayed)
  /\ (explosionParticles g <> [] -> gameOver g = true).
Proof using random_range.
  intros Hg.
  pose proof (gi_running g
                (reachable_game_inv random Math_cos Math_sin Math_PI
                   random_range g Hg)) as Hrun.
  unfold runState. destruct (gameOver g).
  - split; [destruct (showGameOverText g); discriminate |].
    split; [intros ->; reflexivity | reflexivity].
  - destruct (Hrun eq_refl) as [He Ht]. rewrite He, Ht.
    split; [intros _; split; reflexivity |].
    split; [discriminate | intros H; exfalso; apply H; reflexivity].
Qed.

(** In every reachable state the high score in memory is the one in
    [localStorage] (or 0 when nothing is stored), and once the game is
    over it is at least the final score. *)
Theorem reachable_high_score_persisted (g : Game) :
  reachable' g ->
  highScore g = match savedHighScore g with Some h => h | None => 0%Z end
  /\ (gameOver g = true -> (score g <= highScore g)%Z).
Proof using random_range.
  intros Hg.
  pose proof (reachable_game_inv random Math_cos Math_sin Math_PI
                random_range g Hg) as Hinv.
  split; [apply (gi_saved g Hinv) | apply (gi_over g Hinv)].
Qed.

(** In every reachable state the player is on the field, between the
    states of any two listeners or frames: [x] in [0, 730], with the
    [y], size and speed of the [player] object. *)
Theorem reachable_player_on_field (g : Game) :
  reachable' g ->
  0 <= Player.x (player g) <= canvas_width - 70
  /\ Player.y (player g) = canvas_height - 120
  /\ Player.width (player g) = 70
  /\ Player.height (player g) = 45
  /\ Player.speed (player g) = 6.
Proof using random_range.
  intros Hg.
  destruct (gi_player g
              (reachable_game_inv random Math_cos Math_sin Math_PI
                 random_range g Hg)) as (Hw & Hh & Hs & Hy & Hx).
  repeat split; try assumption; apply Hx.
Qed.

(** In every reachable state each particle of either pool has a life in
    (0, 1], a valid opacity for [globalAlpha]: a dead particle is never
    left in a pool. *)
Theorem reachable_particles_alive (g : Game) :
  reachable' g ->
  Forall (fun p => 0 < Debris.life p <= 1) (explosionParticles g)
  /\ Forall (fun p => 0 < Sparkle.life p <= 1) (bonusParticles g).
Proof using random_range.
  intros Hg.
  pose proof (reachable_game_inv random Math_cos Math_sin Math_PI
                random_range g Hg) as Hinv.
  split.
  - eapply Forall_impl; [apply (gi_debris g Hinv) |]. intros p [H _]. exact H.
  - eapply Forall_impl; [apply (gi_sparkles g Hinv) |].
    intros p [H _]. exact H.
Qed.

Lemma moveDebris_iter_nil (n : nat) : Nat.iter n moveDebris [] = [].
Proof.
  induction n as [| n IH]; [reflexivity |].
  rewrite Nat.iter_succ, IH. reflexivity.
Qed.

Lemma frames_over_debris (rect : DOMRect) (n : nat) (g : Game) :
  gameOver g = true ->
  gameOver (Nat.iter n (gameLoop' rect) g) = true
  /\ explosionParticles (Nat.iter n (gameLoop' rect) g)
     = Nat.iter n moveDebris (explosionParticles g).
Proof.
  intros Hover. induction n as [| n [IHo IHe]]; [split; [exact Hover | reflexivity] |].
  rewrite !Nat.iter_succ.
  destruct (gameLoop_over_fields random Math_cos Math_sin Math_PI rect _ IHo)
    as (Fo & _ & _ & _ & _ & _ & _ & _ & _ & _ & _ & Fe & _).
  split; [exact Fo |]. rewrite Fe, IHe. reflexivity.
Qed.

(** The first update after which no debris is left. *)
Lemma moveDebris_first_empty (n : nat) (ps : list Debris.t) :
  Nat.iter (S n) moveDebris ps = [] ->
  exists k : nat,
    (1 <= k <= S n)%nat
    /\ Nat.iter k moveDebris ps = []
    /\ forall j : nat, (1 <= j < k)%nat -> Nat.iter j moveDebris ps <> [].
Proof.
  induction n as [| n IH]; intros Hnil.
  - exists 1%nat. split; [lia |]. split; [exact Hnil |]. intros j Hj. lia.
  - destruct (Nat.iter (S n) moveDebris ps) as [| p rest] eqn:Hprev.
    + destruct (IH eq_refl) as (k & Hk & Hknil & Hbefore).
      exists k. split; [lia |]. split; [exact Hknil | exact Hbefore].
    + exists (S (S n)). split; [lia |]. split; [exact Hnil |].
      intros j Hj Hjnil.
      assert (Hgone : Nat.iter (S n) moveDebris ps = []).
      { replace (S n) with ((S n - j) + j)%nat by lia.
        rewrite Nat.iter_add, Hjnil. apply moveDebris_iter_nil. }
      rewrite Hprev in Hgone. discriminate.
Qed.

(** The explosion ends and the animation loop stops.  From any reachable
    state with the game over there is a frame, at most the hundredth,
    after which no debris is left, the game-over text (and with it the
    restart button) is displayed, and no further frame is requested;
    every frame before it leaves debris in the air and requests the
    next. *)
Theorem explosion_burns_out (rect : DOMRect) (g : Game) :
  reachable' g ->
  gameOver g = true ->
  exists k : nat,
    (1 <= k <= 100)%nat
    /\ (forall j : nat, (1 <= j < k)%nat ->
        explosionParticles (Nat.iter j (gameLoop' rect) g) <> []
        /\ frameRequested (Nat.iter j (gameLoop' rect) g) = true)
    /\ explosionParticles (Nat.iter k (gameLoop' rect) g) = []
    /\ runState (Nat.iter k (gameLoop' rect) g) = GameOverDisplayed
    /\ frameRequested (Nat.iter k (gameLoop' rect) g) = false.
Proof using random_range.
  intros Hg Hover.
  pose proof (gi_debris g
                (reachable_game_inv random Math_cos Math_sin Math_PI
                   random_range g Hg)) as Hdebris.
  assert (Hgone : Nat.iter 100 moveDebris (explosionParticles g) = []).
  { apply (moveDebris_burns_out 99 (explosionParticles g)).
    eapply Forall_impl; [exact Hdebris |].
    intros p [[_ Hl] Hd]. change (inject_Z (Z.of_nat 100)) with 100.
    lra. }
  destruct (moveDebris_first_empty 99 (explosionParticles g) Hgone)
    as (k & Hk & Hknil & Hbefore).
  assert (Hframe : forall i : nat,
            explosionParticles (Nat.iter (S i) (gameLoop' rect) g)
            = Nat.iter (S i) moveDebris (explosionParticles g)
            /\ gameOver (Nat.iter (S i) (gameLoop' rect) g) = true
            /\ showGameOverText (Nat.iter (S i) (gameLoop' rect) g)
               = ((length (Nat.iter (S i) moveDebris (explosionParticles g))
                   =? 0)%nat
                  || showGameOverText (Nat.iter i (gameLoop' rect) g))
            /\ frameRequested (Nat.iter (S i) (gameLoop' rect) g)
               = (0 <? length
                         (Nat.iter (S i) moveDebris (explosionParticles g)))%nat).
  { intros i. destruct (frames_over_debris rect i g Hover) as [Ho He].
    rewrite !Nat.iter_succ.
    destruct (gameLoop_over_fields random Math_cos Math_sin Math_PI rect _ Ho)
      as (Fo & _ & _ & _ & _ & _ & _ & _ & _ & _ & _ & Fe & _ & Ft & Fr).
    rewrite He in Fe, Ft, Fr.
    split; [exact Fe |]. split; [exact Fo |]. split; [exact Ft | exact Fr]. }
  exists k. split; [exact Hk |]. split.
  - intros j Hj. destruct j as [| j]; [lia |].
    destruct (Hframe j) as (Fe & _ & _ & Fr).
    specialize (Hbefore (S j) Hj). rewrite Fe, Fr.
    split; [exact Hbefore |].
    destruct (Nat.iter (S j) moveDebris (explosionParticles g));
      [congruence | reflexivity].
  - destruct k as [| k]; [lia |].
    destruct (Hframe k) as (Fe & Fo & Ft & Fr).
    rewrite Hknil in Fe, Ft, Fr.
    cbn [length Nat.eqb Nat.ltb Nat.leb orb] in Ft, Fr.
    split; [exact Fe |]. split; [| exact Fr].
    unfold runState. rewrite Fo, Ft. reflexivity.
Qed.

End Reachable.

(** ** What a frame and a listener never do *)

Section Frames_never.

Variable random : nat -> Q.
Variables Math_cos Math_sin : Q -> Q.
Variable Math_PI : Q.

Local Abbreviation gameLoop' := (gameLoop random Math_cos Math_sin Math_PI).
Local Abbreviation checkCollision' :=
  (checkCollision random Math_cos Math_sin Math_PI).

Lemma checkCollision_keeps (g : Game) :
  keys (snd (checkCollision' g)) = keys g
  /\ isTouching (snd (checkCollision' g)) = isTouching g
  /\ touchCurrentX (snd (checkCollision' g)) = touchCurrentX g
  /\ highScore (snd (checkCollision' g)) = highScore g
  /\ savedHighScore (snd (checkCollision' g)) = savedHighScore g
  /\ (score g <= score (snd (checkCollision' g)))%Z.
Proof.
  destruct (checkCollision_cases random Math_cos Math_sin Math_PI g)
    as [-> | [(i & o & _ & _ & _ & _ & ->) | (i & o & _ & _ & _ & ->)]];
    cbn [snd]; repeat split; try reflexivity; try lia.
  unfold createBonusEffect. cbn [score set_obstacles set_seed
    set_bonusParticles set_scoreFlashTime set_score]. lia.
Qed.

(** A frame never touches the keys or the touch state, and never lowers
    the score or the high score. *)
Lemma gameLoop_frame_facts (rect : DOMRect) (g : Game) :
  keys (gameLoop' rect g) = keys g
  /\ isTouching (gameLoop' rect g) = isTouching g
  /\ touchCurrentX (gameLoop' rect g) = touchCurrentX g
  /\ (score g <= score (gameLoop' rect g))%Z
  /\ (highScore g <= highScore (gameLoop' rect g))%Z.
Proof.
  destruct (gameOver g) eqn:Hover.
  - destruct (gameLoop_over_fields random Math_cos Math_sin Math_PI rect g
                Hover)
      as (_ & Fsc & Fh & _ & _ & _ & _ & _ & Fk & Ft & Fx & _).
    rewrite Fk, Ft, Fx, Fsc, Fh. repeat split; try reflexivity; lia.
  - rewrite gameLoop_running by exact Hover. unfold beforeCollision.
    set (g0 := updatePlayer rect (drawJungleBackground g)).
    assert (H0 : keys g0 = keys g /\ isTouching g0 = isTouching g
                 /\ touchCurrentX g0 = touchCurrentX g
                 /\ score g0 = score g /\ highScore g0 = highScore g)
      by (repeat split; reflexivity).
    destruct H0 as (K0 & T0 & X0 & S0 & H0). clearbody g0.
    destruct (updateObstacles_fields random Math_PI g0)
      as (_ & _ & Fh & _ & _ & _ & _ & _ & Fk & Ft & Fx & _).
    pose proof (updateObstacles_score random Math_PI g0) as Fs.
    set (g1 := updateObstacles random Math_PI g0) in *. clearbody g1.
    set (k := Z.of_nat _) in Fs.
    assert (Hk : (0 <= k)%Z) by (unfold k; lia). clearbody k.
    assert (H2 : keys (updateBonusParticles g1) = keys g1
                 /\ isTouching (updateBonusParticles g1) = isTouching g1
                 /\ touchCurrentX (updateBonusParticles g1) = touchCurrentX g1
                 /\ score (updateBonusParticles g1) = score g1
                 /\ highScore (updateBonusParticles g1) = highScore g1)
      by (repeat split; reflexivity).
    destruct H2 as (K2 & T2 & X2 & S2 & H2).
    set (g2 := updateBonusParticles g1) in *. clearbody g2.
    destruct (checkCollision_keeps g2) as (K3 & T3 & X3 & H3 & _ & S3).
    pose proof (checkCollision_true random Math_cos Math_sin Math_PI g2)
      as Htrue.
    destruct (checkCollision' g2) as [[|] g3]; cbn [snd] in *;
      cbv iota beta zeta.
    + specialize (Htrue g3 eq_refl). subst g3. unfold createExplosion.
      destruct (highScore (set_gameOver true g2)
                <? score (set_gameOver true g2))%Z eqn:Hcmp;
        [apply Z.ltb_lt in Hcmp | apply Z.ltb_ge in Hcmp];
        cbn [keys isTouching touchCurrentX score highScore
             set_frameRequested set_seed set_explosionParticles
             set_savedHighScore set_highScore set_gameOver] in *;
        repeat split; try congruence; lia.
    + unfold drawScore. destruct (0 <? scoreFlashTime g3)%Z;
        cbn [keys isTouching touchCurrentX score highScore
             set_frameRequested set_scoreFlashTime];
        repeat split; try congruence; lia.
Qed.

(** No frame lowers the score or the high score. *)
Theorem scores_never_drop (rect : DOMRect) (g : Game) :
  (score g <= score (gameLoop' rect g))%Z
  /\ (highScore g <= highScore (gameLoop' rect g))%Z.
Proof.
  destruct (gameLoop_frame_facts rect g) as (_ & _ & _ & Hs & Hh).
  split; [exact Hs | exact Hh].
Qed.

(** No transition of the page, a restart included, lowers the high
    score. *)
Theorem high_score_survives_every_event (g g' : Game) :
  step random Math_cos Math_sin Math_PI g g' ->
  (highScore g <= highScore g')%Z.
Proof.
  assert (Hreset : forall r g,
            (highScore g
             <= highScore (resetGame random Math_cos Math_sin Math_PI r g))%Z).
  { intros r g0. unfold resetGame.
    destruct (gameLoop_frame_facts r (resetState g0)) as (_ & _ & _ & _ & H).
    exact H. }
  intros Hstep.
  destruct Hstep as [r g | k g | k g | r e g | r e g | e g | g].
  - apply (gameLoop_frame_facts r g).
  - apply Z.le_refl.
  - apply Z.le_refl.
  - unfold on_click. destruct (clickResets r e g);
      [apply Hreset | apply Z.le_refl].
  - unfold on_touchstart. destruct (gameOver g);
      [destruct (insideRestartButton _ _); [apply Hreset | apply Z.le_refl]
      | apply Z.le_refl].
  - unfold on_touchmove. destruct (gameOver g); [apply Z.le_refl |].
    destruct (isTouching g); apply Z.le_refl.
  - unfold on_touchend. destruct (gameOver g); apply Z.le_refl.
Qed.

Lemma gameLoop_over_touchStartX (rect : DOMRect) (g : Game) :
  gameOver g = true ->
  touchStartX (gameLoop' rect g) = touchStartX g.
Proof.
  intros Hover. unfold gameLoop.
  cbn [gameOver drawJungleBackground set_seed]. rewrite Hover.
  cbv zeta. unfold drawScore, updateExplosion.
  cbn [scoreFlashTime explosionParticles set_explosionParticles
       drawJungleBackground set_seed].
  destruct (0 <? scoreFlashTime g)%Z;
    cbn [explosionParticles showGameOverText set_scoreFlashTime
         set_explosionParticles drawJungleBackground set_seed];
    destruct ((length (moveDebris (explosionParticles g)) =? 0)%nat
              || showGameOverText g);
    reflexivity.
Qed.

(** What a frame does while the game is over.  It leaves the player, the
    obstacles, the score, the high score and its stored copy, the frame
    counter, the sparkles, the keys and the touch state as they are, and
    [gameOver] set.  It changes four things: the debris is moved by one
    update; the score flash counter is counted down by one while it is
    positive ([drawScore] is still called); the game-over text flag is
    raised as soon as no debris is left and is never lowered; and another
    frame is requested exactly while debris is left. *)
Theorem game_over_freezes (rect : DOMRect) (g : Game) :
  gameOver g = true ->
  (player (gameLoop' rect g) = player g
   /\ obstacles (gameLoop' rect g) = obstacles g
   /\ score (gameLoop' rect g) = score g
   /\ highScore (gameLoop' rect g) = highScore g
   /\ savedHighScore (gameLoop' rect g) = savedHighScore g
   /\ frameCount (gameLoop' rect g) = frameCount g
   /\ bonusParticles (gameLoop' rect g) = bonusParticles g
   /\ keys (gameLoop' rect g) = keys g
   /\ touchStartX (gameLoop' rect g) = touchStartX g
   /\ touchCurrentX (gameLoop' rect g) = touchCurrentX g
   /\ isTouching (gameLoop' rect g) = isTouching g
   /\ gameOver (gameLoop' rect g) = true)
  /\ explosionParticles (gameLoop' rect g)
     = moveDebris (explosionParticles g)
  /\ scoreFlashTime (gameLoop' rect g)
     = (if (0 <? scoreFlashTime g)%Z then scoreFlashTime g - 1
        else scoreFlashTime g)%Z
  /\ showGameOverText (gameLoop' rect g)
     = ((length (moveDebris (explosionParticles g)) =? 0)%nat
        || showGameOverText g)
  /\ frameRequested (gameLoop' rect g)
     = (0 <? length (moveDebris (explosionParticles g)))%nat.
Proof.
  intros Hover.
  pose proof (gameLoop_over_touchStartX rect g Hover) as Fts.
  destruct (gameLoop_over_fields random Math_cos Math_sin Math_PI rect g Hover)
    as (Fo & Fsc & Fh & Fsv & Fob & Fp & Fc & Fb & Fk & Ft & Fx & Fe & Ff
        & Ftext & Freq).
  split; [| split; [exact Fe |]; split; [exact Ff |];
            split; [exact Ftext | exact Freq]].
  split; [exact Fp |]. split; [exact Fob |]. split; [exact Fsc |].
  split; [exact Fh |]. split; [exact Fsv |]. split; [exact Fc |].
  split; [exact Fb |]. split; [exact Fk |]. split; [exact Fts |].
  split; [exact Fx |]. split; [exact Ft | exact Fo].
Qed.

(** A finger lifted while the game is over goes unnoticed: [touchend]
    returns at once, and neither it nor the restart clears [isTouching]
    or the last finger position.  After the restart the player is steered
    by a touch that has ended. *)
Theorem touch_lifted_during_game_over_is_missed (rect : DOMRect) (g : Game) :
  gameOver g = true ->
  on_touchend g = g
  /\ isTouching (resetGame random Math_cos Math_sin Math_PI rect g)
     = isTouching g
  /\ touchCurrentX (resetGame random Math_cos Math_sin Math_PI rect g)
     = touchCurrentX g
  /\ player (resetGame random Math_cos Math_sin Math_PI rect g)
     = movePlayer rect (keys g) (isTouching g) (touchCurrentX g)
         (player (resetState g)).
Proof.
  intros Hover. unfold on_touchend. rewrite Hover.
  split; [reflexivity |]. unfold resetGame.
  destruct (gameLoop_frame_facts rect (resetState g)) as (_ & Ft & Fx & _).
  destruct (resetState_fields g)
    as (_ & Robs & _ & Rbp & _ & Rgo & _ & Rfc & Rft & Rk & Rt & Rtx).
  split; [rewrite Ft; exact Rt |]. split; [rewrite Fx; exact Rtx |].
  set (r := resetState g) in *. clearbody r.
  destruct (gameLoop_quiet random Math_cos Math_sin Math_PI rect r Rgo Robs)
    as (_ & _ & _ & _ & _ & _ & _ & Gpl);
    [rewrite Rfc; discriminate | exact Rbp | exact Rft |].
  rewrite Gpl, Rk, Rt, Rtx. reflexivity.
Qed.

End Frames_never.

(** ** The spawn cadence *)

Section Cadence.

Variable random : nat -> Q.
Variable Math_PI : Q.
Hypothesis random_range : forall n : nat, 0 <= random n < 1.



End Cadence.

(** ** The properties at work on the sample page *)

Lemma createExplosion_burst_witness :
  length
    (explosionParticles
       (createExplosion sample_random sample_cos sample_sin sample_PI
          400 500 (initialGame None)))
  = 80%nat.
Proof.
  destruct (createExplosion_burst sample_random sample_cos sample_sin
              sample_PI sample_random_range 400 500 (initialGame None))
    as (fire & smoke & Heq & Hf & Hs & _).
  rewrite Heq, !length_app, Hf, Hs. reflexivity.
Defined.

Lemma createBonusEffect_burst_witness :
  length
    (bonusParticles
       (createBonusEffect sample_random sample_cos sample_sin sample_PI
          400 500 (initialGame None)))
  = 20%nat.
Proof.
  destruct (createBonusEffect_burst sample_random sample_cos sample_sin
              sample_PI sample_random_range 400 500 (initialGame None))
    as (burst & Heq & Hlen & _).
  rewrite Heq, length_app, Hlen. reflexivity.
Defined.

Lemma createObstacle_adds_one_or_two_witness :
  exists batch : list Obstacle.t,
    obstacles (createObstacle sample_random sample_PI scenario_game)
    = scenario_obstacle :: batch
    /\ (length batch = 1%nat \/ length batch = 2%nat)
    /\ Forall (fun o => Obstacle.y o = -20 /\ Obstacle.scale o = 1.5) batch.
Proof.
  destruct (createObstacle_adds_one_or_two sample_random sample_PI
              sample_random_range scenario_game)
    as (batch & Happ & Hlen & Hall & _).
  exists batch. split; [exact Happ |]. split; [exact Hlen |].
  revert Hall. apply List.Forall_impl.
  intros o (Hy & _ & _ & _ & _ & Hs & _). split; [exact Hy | exact Hs].
Defined.

Lemma batch_of_two_is_separated_witness :
  let obs :=
    obstacles (createObstacle sample_random sample_PI (initialGame None)) in
  let o1 := nth 0 obs fresh_plain in
  let o2 := nth 1 obs fresh_plain in
  -0.001 <= Qabs (Obstacle.x o2 - Obstacle.x o1) - 30
  /\ (Qabs (Obstacle.x o2 - Obstacle.x o1) - 30 <= 0.001
      \/ 69.999 <= Qabs (Obstacle.x o2 - Obstacle.x o1) - 30).
Proof.
  cbv zeta.
  apply (batch_of_two_is_separated sample_random sample_PI
           sample_random_range (initialGame None)).
  vm_compute. reflexivity.
Defined.

Lemma hasValidGap_sound_witness :
  exists a b : Q,
    0 <= a /\ b <= canvas_width /\ 70 <= b - a
    /\ Forall (fun p => Position.x p + Position.width p <= a
                        \/ b <= Position.x p)
         [Position.mk 77 30; Position.mk 385 30].
Proof.
  apply (hasValidGap_sound 70 30 [Position.mk 77 30; Position.mk 385 30]).
  - constructor; [constructor; constructor |].
    constructor; [| constructor]. unfold left_of. cbn. lra.
  - constructor; [reflexivity |]. constructor; [reflexivity | constructor].
  - constructor; [cbn; unfold canvas_width; lra |].
    constructor; [cbn; unfold canvas_width; lra | constructor].
  - lra.
  - vm_compute. reflexivity.
Defined.

Lemma reachable_score_multiple_of_ten_witness :
  (0 <= score (sample_run 201))%Z /\ (score (sample_run 201) mod 10 = 0)%Z
  /\ (0 <= scoreFlashTime (sample_run 201) <= 20)%Z.
Proof.
  apply (reachable_score_multiple_of_ten sample_random sample_cos sample_sin
           sample_PI sample_random_range (sample_run 201)
           (sample_run_reachable 201)).
Defined.

Lemma reachable_playing_is_clean_witness :
  (runState (sample_run 120) = Playing ->
   explosionParticles (sample_run 120) = []
   /\ showGameOverText (sample_run 120) = false)
  /\ (showGameOverText (sample_run 120) = true ->
      runState (sample_run 120) = GameOverDisplayed)
  /\ (explosionParticles (sample_run 120) <> [] ->
      gameOver (sample_run 120) = true).
Proof.
  apply (reachable_playing_is_clean sample_random sample_cos sample_sin
           sample_PI sample_random_range (sample_run 120)
           (sample_run_reachable 120)).
Defined.

Lemma reachable_high_score_persisted_witness :
  highScore (sample_run 201)
  = match savedHighScore (sample_run 201) with
    | Some h => h
    | None => 0%Z
    end
  /\ (gameOver (sample_run 201) = true ->
      (score (sample_run 201) <= highScore (sample_run 201))%Z).
Proof.
  apply (reachable_high_score_persisted sample_random sample_cos sample_sin
           sample_PI sample_random_range (sample_run 201)
           (sample_run_reachable 201)).
Defined.

Lemma reachable_player_on_field_witness :
  0 <= Player.x (player (sample_run 60)) <= canvas_width - 70
  /\ Player.y (player (sample_run 60)) = canvas_height - 120
  /\ Player.width (player (sample_run 60)) = 70
  /\ Player.height (player (sample_run 60)) = 45
  /\ Player.speed (player (sample_run 60)) = 6.
Proof.
  apply (reachable_player_on_field sample_random sample_cos sample_sin
           sample_PI sample_random_range (sample_run 60)
           (sample_run_reachable 60)).
Defined.

Lemma reachable_particles_alive_witness :
  Forall (fun p => 0 < Debris.life p <= 1)
    (explosionParticles (sample_run 201))
  /\ Forall (fun p => 0 < Sparkle.life p <= 1)
       (bonusParticles (sample_run 201)).
Proof.
  apply (reachable_particles_alive sample_random sample_cos sample_sin
           sample_PI sample_random_range (sample_run 201)
           (sample_run_reachable 201)).
Defined.

Lemma explosion_burns_out_witness :
  exists k : nat,
    (1 <= k <= 100)%nat
    /\ explosionParticles
         (Nat.iter k
            (gameLoop sample_random sample_cos sample_sin sample_PI
               sample_rect)
            (sample_run 201))
       = []
    /\ frameRequested
         (Nat.iter k
            (gameLoop sample_random sample_cos sample_sin sample_PI
               sample_rect)
            (sample_run 201))
       = false.
Proof.
  destruct (explosion_burns_out sample_random sample_cos sample_sin sample_PI
              sample_random_range sample_rect (sample_run 201)
              (sample_run_reachable 201))
    as (k & Hk & _ & Hnil & _ & Hstop).
  - vm_compute. reflexivity.
  - exists k. split; [exact Hk |]. split; [exact Hnil | exact Hstop].
Defined.

Lemma high_score_survives_every_event_witness :
  (highScore exploding_game
   <= highScore
        (on_click sample_random sample_cos sample_sin sample_PI sample_rect
           restart_click exploding_game))%Z.
Proof.
  apply (high_score_survives_every_event sample_random sample_cos sample_sin
           sample_PI exploding_game
           (on_click sample_random sample_cos sample_sin sample_PI sample_rect
              restart_click exploding_game)).
  apply step_click.
Defined.

Lemma game_over_freezes_witness :
  player (gameLoop sample_random sample_cos sample_sin sample_PI sample_rect
            exploding_game)
  = player exploding_game
  /\ score (gameLoop sample_random sample_cos sample_sin sample_PI sample_rect
              exploding_game)
     = score exploding_game
  /\ explosionParticles
       (gameLoop sample_random sample_cos sample_sin sample_PI sample_rect
          exploding_game)
     = moveDebris (explosionParticles exploding_game).
Proof.
  destruct (game_over_freezes sample_random sample_cos sample_sin sample_PI
              sample_rect exploding_game)
    as ((Hp & _ & Hs & _) & He & _).
  - vm_compute. reflexivity.
  - split; [exact Hp |]. split; [exact Hs | exact He].
Defined.

Lemma touch_lifted_during_game_over_is_missed_witness :
  on_touchend (set_touch 300 300 true exploding_game)
  = set_touch 300 300 true exploding_game
  /\ isTouching
       (resetGame sample_random sample_cos sample_sin sample_PI sample_rect
          (set_touch 300 300 true exploding_game))
     = true.
Proof.
  destruct (touch_lifted_during_game_over_is_missed sample_random sample_cos
              sample_sin sample_PI sample_rect
              (set_touch 300 300 true exploding_game))
    as (He & Ht & _).
  - vm_compute. reflexivity.
  - split; [exact He |]. rewrite Ht. reflexivity.
Defined.

